(** * VISTA: credential issuance, wire codec and message validation

    A shallow embedding of the trust pipeline of the VISTA proof of concept
    (authority, binary codec, transceiver application) and the properties
    its specification states about it.

    Conventions of the embedding.
    - A [datetime] is an integer count of microseconds since Python's
      [datetime.min] (0001-01-01T00:00:00 UTC); a [timedelta] is an integer
      count of microseconds.  Both are exact in Python, so every operation on
      them below is integer arithmetic.  The finite range of Python's
      datetimes (years 1 to 9999) is not modelled.
    - A Python [float] is a rational number: every finite binary64 value is
      one.  NaN and the infinities are outside the model.
    - [bytes] are lists of [Byte.byte].
    - A Python exception is a value of [exn]; a function that may raise
      returns a [result]. *)

From Stdlib Require Import ZArith QArith Qabs Qround Lia Lqa String Ascii List.
From Stdlib.Strings Require Import Byte.
From Stdlib Require Import SpecFloat DecimalString.
From stdpp Require Import base option list gmap sorting.

Local Open Scope Z_scope.

(** ** Python values and exceptions *)

Module Py.

Abbreviation bytes := (list byte).

(** The exceptions the modelled code raises.  Messages are the source's
    string literals; where the source interpolates a value that the model
    does not print, the placeholder is kept as written. *)
Inductive exn : Type :=
| ValueError (msg : string)
| StructError (msg : string)
| OverflowError (msg : string)
| BinasciiError
| InvalidSignature
| QueueFull
| Unmodelled (what : string)
| PydanticValidationError (msg : string)
| ValidationError (msg : string)
| DomainValidationError (msg : string).

Inductive result (A : Type) : Type :=
| Ok (a : A)
| Raise (e : exn).

Arguments Ok {A} a.
Arguments Raise {A} e.

Definition bind {A B : Type} (r : result A) (f : A -> result B) : result B :=
  match r with
  | Ok a => f a
  | Raise e => Raise e
  end.

Definition raises {A : Type} (r : result A) : Prop := exists e, r = Raise e.

Definition returns {A : Type} (r : result A) : Prop := exists a, r = Ok a.

End Py.

Import Py.

Notation "x <- r ;; k" := (bind r (fun x => k))
  (at level 100, r at next level, right associativity).
Notation "r ;;; k" := (bind r (fun _ => k))
  (at level 100, right associativity).

(** ** settings.py *)

Module Settings.

Definition datetime := Z.
Definition timedelta := Z.

(** The options the core reads.  Durations are kept in the unit the source
    declares for them. *)
Record Settings : Type := {
  time_resolution_ms : Z;
  min_datetime : datetime;
  key_rotation_mins : Z;
  key_expiration_buffer_ms : Z;
  num_threads : Z;
  broadcast_period_secs : Z
}.

(** 2020-01-01T00:00:00+00:00 is day 737424 after 0001-01-01. *)
Definition default_min_datetime : datetime := 737424 * 86400 * 1000000.

Definition settings : Settings := {|
  time_resolution_ms := 500;
  min_datetime := default_min_datetime;
  key_rotation_mins := 5;
  key_expiration_buffer_ms := 500;
  num_threads := 5;
  broadcast_period_secs := 1
|}.

Definition milliseconds (n : Z) : timedelta := n * 1000.
Definition minutes (n : Z) : timedelta := n * 60 * 1000000.

(** [int(a / b)] on timedeltas: true division followed by truncation toward
    zero.  The quotient is taken exactly. *)
Definition int_truediv (a b : timedelta) : Z := Z.quot a b.

(** [timedelta * float]: the exact product rounded to the nearest
    microsecond, ties to even. *)
Definition round_half_even (q : Q) : Z :=
  let f := Qfloor q in
  let r := (q - inject_Z f)%Q in
  match (r ?= 1 # 2)%Q with
  | Lt => f
  | Gt => f + 1
  | Eq => if Z.even f then f else f + 1
  end.

Definition timedelta_mul_float (x : Q) (td : timedelta) : timedelta :=
  round_half_even (x * inject_Z td).

(** The binary64 values of the literals 0.9 and 1.1. *)
Definition float_0_9 : Q := 8106479329266893 # 9007199254740992.
Definition float_1_1 : Q := 2476979795053773 # 2251799813685248.

End Settings.

Import Settings.

(** ** utils.py *)

Module Utils.

Section WithSettings.

Variable s : Settings.

Definition TIME_RESOLUTION : timedelta := milliseconds (time_resolution_ms s).
Definition MIN_DATETIME : datetime := min_datetime s.

(** The rounding constants of [decimal] that a caller may pass. *)
Inductive rounding : Type :=
| ROUND_FLOOR
| ROUND_CEILING
| ROUND_OTHER (name : string).

Definition encode_datetime_as_int (val : datetime) (r : rounding) : result Z :=
  if val <? MIN_DATETIME then
    Raise (ValueError "datetimes must be no earlier than {MIN_DATETIME}")
  else
    match r with
    | ROUND_FLOOR =>
        let val := val - (val - MIN_DATETIME) mod TIME_RESOLUTION in
        Ok (int_truediv (val - MIN_DATETIME) TIME_RESOLUTION)
    | ROUND_CEILING =>
        let val := val + (MIN_DATETIME - val) mod TIME_RESOLUTION in
        Ok (int_truediv (val - MIN_DATETIME) TIME_RESOLUTION)
    | ROUND_OTHER _ =>
        Raise (ValueError "rounding must be one of ROUND_CEILING or ROUND_FLOOR")
    end.

Definition decode_datetime_from_int (val : Z) : datetime :=
  val * TIME_RESOLUTION + MIN_DATETIME.

End WithSettings.

(** Comparisons of floats. *)
Definition Qgtb (x y : Q) : bool := negb (Qle_bool x y).
Definition Qltb (x y : Q) : bool := negb (Qle_bool y x).
Definition Qgeb (x y : Q) : bool := Qle_bool y x.
Definition Qleb (x y : Q) : bool := Qle_bool x y.

Definition BBox : Type := Q * Q * Q * Q.
Definition Point : Type := Q * Q.

Definition LongitudeRange : exn := ValueError "Longitude out of range".
Definition LatitudeRange : exn := ValueError "Latitude out of range".

(** One turn of the range loop of [bbox_includes]. *)
Definition check_lon_lat (p : Point) : result unit :=
  let '(lon, lat) := p in
  if Qgtb (Qabs lon) 180 then Raise LongitudeRange
  else if Qgtb (Qabs lat) 90 then Raise LatitudeRange
  else Ok tt.

Fixpoint check_all (ps : list Point) : result unit :=
  match ps with
  | [] => Ok tt
  | p :: rest => check_lon_lat p ;;; check_all rest
  end.

Definition bbox_includes (bbox : BBox) (point : Point) : result bool :=
  let '(b0, b1, b2, b3) := bbox in
  check_all [point; (b0, b1); (b2, b3)] ;;;
  let '(lon, lat) := point in
  let '(west_bound, south_bound) := (b0, b1) in
  let '(east_bound, north_bound) := (b2, b3) in
  if Qgtb lat north_bound || Qltb lat south_bound then Ok false
  else if Qltb east_bound west_bound then
    Ok (Qgeb lon west_bound || Qleb lon east_bound)
  else
    Ok (Qgeb lon west_bound && Qleb lon east_bound).

End Utils.

(** ** The [struct] module: big-endian fixed-layout fields

    Python's [struct.pack] and [struct.unpack] for the format characters the
    codec uses ([s], [I], [f] under the [!] byte order). *)

Module Struct.

Definition b2z (b : byte) : Z := Z.of_N (Byte.to_N b).

Definition z2b (z : Z) : byte :=
  match Byte.of_N (Z.to_N (z mod 256)) with
  | Some b => b
  | None => x00
  end.

(** [int.to_bytes(n, 'big')] and [int.from_bytes(bs, 'big')]. *)
Fixpoint int_to_bytes (n : nat) (z : Z) : bytes :=
  match n with
  | O => []
  | S k => int_to_bytes k (z / 256) ++ [z2b z]
  end.

Definition int_from_bytes (bs : bytes) : Z :=
  fold_left (fun acc b => acc * 256 + b2z b) bs 0.

(** Format [I]: an unsigned 32-bit integer. *)
Definition pack_I (z : Z) : result bytes :=
  if (0 <=? z) && (z <? 2 ^ 32) then Ok (int_to_bytes 4 z)
  else Raise (StructError "argument out of range").

Definition unpack_I (bs : bytes) : Z := int_from_bytes bs.

(** Format [Ns]: the value truncated or padded with null bytes to [n] bytes. *)
Definition pack_s (n : nat) (v : bytes) : bytes :=
  firstn n (v ++ repeat x00 n).

(** Format [f]: IEEE 754 binary32.  The value is rounded to nearest, ties to
    even, as the C conversion from double does. *)
Definition binary32_of_Q (x : Q) : spec_float :=
  match Qnum x with
  | Z0 => S754_zero false
  | Zpos n => SFdiv 24 128 (S754_finite false n 0) (S754_finite false (Qden x) 0)
  | Zneg n => SFdiv 24 128 (S754_finite true n 0) (S754_finite false (Qden x) 0)
  end.

Definition sign_bit (sg : bool) : Z := if sg then 2 ^ 31 else 0.

Definition bits_of_binary32 (f : spec_float) : option Z :=
  match f with
  | S754_zero sg => Some (sign_bit sg)
  | S754_finite sg m e =>
      if Zpos m <? 2 ^ 23 then Some (sign_bit sg + Zpos m)
      else Some (sign_bit sg + (e + 150) * 2 ^ 23 + (Zpos m - 2 ^ 23))
  | S754_infinity _ => None
  | S754_nan => None
  end.

Definition pack_f (x : Q) : result bytes :=
  match bits_of_binary32 (binary32_of_Q x) with
  | Some w => Ok (int_to_bytes 4 w)
  | None => Raise (OverflowError "float too large to pack with f format")
  end.

(** The value of a binary32 word.  Words that encode an infinity or a NaN
    have no value in the model. *)
Definition Q_of_bits32 (w : Z) : option Q :=
  let sg := w / 2 ^ 31 in
  let E := (w / 2 ^ 23) mod 256 in
  let M := w mod 2 ^ 23 in
  if E =? 255 then None
  else
    let m := if E =? 0 then M else 2 ^ 23 + M in
    let e := if E =? 0 then -149 else E - 150 in
    Some (Qred (inject_Z (if sg =? 1 then - m else m) * Qpower 2 e)).

Definition unpack_f (bs : bytes) : result Q :=
  match Q_of_bits32 (int_from_bytes bs) with
  | Some x => Ok x
  | None => Raise (Unmodelled "non-finite float")
  end.

(** A float survives the wire when packing and unpacking give it back. *)
Definition f32_exact (x : Q) : Prop :=
  exists bs, pack_f x = Ok bs /\ unpack_f bs = Ok x.

(** Splitting a buffer into fields of the given widths; [struct.unpack]
    refuses a buffer whose size is not the size of the format. *)
Fixpoint split_fields (widths : list nat) (data : bytes) : list bytes :=
  match widths with
  | [] => []
  | w :: ws => firstn w data :: split_fields ws (skipn w data)
  end.

Definition calcsize (widths : list nat) : nat := fold_right Nat.add O widths.

Definition unpack_fields (widths : list nat) (data : bytes) : result (list bytes) :=
  if Nat.eqb (length data) (calcsize widths) then Ok (split_fields widths data)
  else Raise (StructError "unpack requires a buffer of the format's size").

(** Packing and unpacking a run of [f] fields. *)
Fixpoint pack_floats (xs : list Q) : result bytes :=
  match xs with
  | [] => Ok []
  | x :: rest =>
      b <- pack_f x ;;
      bs <- pack_floats rest ;;
      Ok (b ++ bs)
  end.

Fixpoint unpack_floats (fields : list bytes) : result (list Q) :=
  match fields with
  | [] => Ok []
  | f :: rest =>
      x <- unpack_f f ;;
      xs <- unpack_floats rest ;;
      Ok (x :: xs)
  end.

End Struct.

Import Struct.

(** ** The [base64] module: [standard_b64encode] and [standard_b64decode] *)

Module Base64.

Definition alphabet : string :=
  "ABCDEFGHIJKLMNOPQRSTUVWXYZabcdefghijklmnopqrstuvwxyz0123456789+/".

Definition alphabet_bytes : bytes := list_byte_of_string alphabet.

Definition BASE64_PAD : byte := "="%byte.

(** The character of a sextet. *)
Definition b2a (i : Z) : byte := nth (Z.to_nat i) alphabet_bytes x00.

(** The sextet of a character, [None] outside the alphabet. *)
Fixpoint index_of (b : byte) (l : bytes) (i : Z) : option Z :=
  match l with
  | [] => None
  | c :: rest => if Byte.eqb b c then Some i else index_of b rest (i + 1)
  end.

Definition a2b (b : byte) : option Z := index_of b alphabet_bytes 0.

Fixpoint encode_chunks (data : bytes) : bytes :=
  match data with
  | [] => []
  | [a] =>
      let a := b2z a in
      [b2a (a / 4); b2a ((a mod 4) * 16); BASE64_PAD; BASE64_PAD]
  | [a; b] =>
      let a := b2z a in
      let b := b2z b in
      [b2a (a / 4); b2a ((a mod 4) * 16 + b / 16); b2a ((b mod 16) * 4);
       BASE64_PAD]
  | a :: b :: c :: rest =>
      let a := b2z a in
      let b := b2z b in
      let c := b2z c in
      b2a (a / 4) :: b2a ((a mod 4) * 16 + b / 16)
        :: b2a ((b mod 16) * 4 + c / 64) :: b2a (c mod 64)
        :: encode_chunks rest
  end.

Definition standard_b64encode (data : bytes) : bytes := encode_chunks data.

(** The decoder of [binascii.a2b_base64] in its default, lenient mode: a
    character outside the alphabet is skipped, a pad sequence that completes
    a quad ends the input, and input that stops inside a quad is refused. *)
Record dstate : Type := {
  quad_pos : Z;
  leftchar : Z;
  pads : Z;
  out : bytes
}.

Definition dstart : dstate :=
  {| quad_pos := 0; leftchar := 0; pads := 0; out := [] |}.

Definition dfinish (st : dstate) : result bytes :=
  if quad_pos st =? 0 then Ok (out st) else Raise BinasciiError.

Fixpoint decode_loop (data : bytes) (st : dstate) : result bytes :=
  match data with
  | [] => dfinish st
  | ch :: rest =>
      if Byte.eqb ch BASE64_PAD then
        if (2 <=? quad_pos st) && (4 <=? quad_pos st + (pads st + 1)) then
          Ok (out st)
        else
          decode_loop rest
            {| quad_pos := quad_pos st; leftchar := leftchar st;
               pads := pads st + 1; out := out st |}
      else
        match a2b ch with
        | None => decode_loop rest st
        | Some v =>
            let q := quad_pos st in
            let l := leftchar st in
            if q =? 0 then
              decode_loop rest
                {| quad_pos := 1; leftchar := v; pads := 0; out := out st |}
            else if q =? 1 then
              decode_loop rest
                {| quad_pos := 2; leftchar := v mod 16; pads := 0;
                   out := out st ++ [z2b (l * 4 + v / 16)] |}
            else if q =? 2 then
              decode_loop rest
                {| quad_pos := 3; leftchar := v mod 4; pads := 0;
                   out := out st ++ [z2b (l * 16 + v / 4)] |}
            else
              decode_loop rest
                {| quad_pos := 0; leftchar := 0; pads := 0;
                   out := out st ++ [z2b (l * 64 + v)] |}
        end
  end.

Definition standard_b64decode (data : bytes) : result bytes :=
  decode_loop data dstart.

(** A [str] handed to [standard_b64decode] must be ASCII. *)
Definition is_ascii (b : byte) : bool := b2z b <? 128.

Definition standard_b64decode_str (data : string) : result bytes :=
  let bs := list_byte_of_string data in
  if forallb is_ascii bs then standard_b64decode bs
  else Raise (ValueError "string argument should contain only ASCII characters").

(** [bytes.decode('utf-8')] of ASCII bytes. *)
Definition decode_utf8 (bs : bytes) : string := string_of_list_byte bs.

End Base64.

Import Base64.

(** ** crypto/pks.py: the conventional signature scheme *)

Module Pks.

(** A key object of the [cryptography] package, known by its raw bytes. *)
Record PublicKey : Type := { public_bytes : bytes }.
Record PrivateKey : Type := { private_bytes : bytes }.

(** The Ed25519 primitive of the [cryptography] package.  [ed25519_verify]
    returns normally on a valid signature and raises otherwise;
    [ed25519_generate] draws a key from the entropy it is handed. *)
Class Ed25519 : Type := {
  ed25519_generate : Z -> PrivateKey;
  ed25519_public_key : PrivateKey -> PublicKey;
  ed25519_sign : PrivateKey -> bytes -> bytes;
  ed25519_verify : PublicKey -> bytes -> bytes -> result unit
}.

(** The documented contract of [Ed25519PublicKey.verify]: the only exception
    it raises is [InvalidSignature]. *)
Definition raises_only_InvalidSignature (lib : Ed25519) : Prop :=
  forall pk sig msg e, ed25519_verify pk sig msg = Raise e -> e = InvalidSignature.

Definition key_as_bytes_public (key : PublicKey) : bytes := public_bytes key.
Definition key_as_bytes_private (key : PrivateKey) : bytes := private_bytes key.

(** [from_public_bytes] and [from_private_bytes] accept exactly 32 bytes; the
    source turns any failure into a bare [ValueError]. *)
Definition deserialize_public_key (v : bytes) : result PublicKey :=
  if Nat.eqb (length v) 32 then Ok {| public_bytes := v |}
  else Raise (ValueError "").

Definition deserialize_private_key (v : bytes) : result PrivateKey :=
  if Nat.eqb (length v) 32 then Ok {| private_bytes := v |}
  else Raise (ValueError "").

Section WithEd25519.

Context {lib : Ed25519}.

Record KeyGroup : Type := {
  public_key : PublicKey;
  private_key : PrivateKey
}.

(** [generate_keys] draws a fresh private key from the entropy it is handed. *)
Definition generate_keys (entropy : Z) : KeyGroup :=
  let private_key := ed25519_generate entropy in
  let public_key := ed25519_public_key private_key in
  {| public_key := public_key; private_key := private_key |}.

Definition sign (msg : bytes) (private_key : PrivateKey) : bytes :=
  ed25519_sign private_key msg.

Definition verify (public_key : PublicKey) (msg signature : bytes) : result bool :=
  match ed25519_verify public_key signature msg with
  | Raise InvalidSignature => Ok false
  | Raise e => Raise e
  | Ok _ => Ok true
  end.

End WithEd25519.

End Pks.

(** ** crypto/ibs.py: the identity-based signature scheme *)

Module Ibs.

(** An element of the pairing group, known by what [pairing_group.serialize]
    writes for it: the digit of its group, a colon, and the base64 text of
    its bytes. *)
Record PairingElement : Type := {
  pe_group : byte;
  pe_data : bytes
}.

Definition serialize (e : PairingElement) : bytes :=
  pe_group e :: ":"%byte :: standard_b64encode (pe_data e).

Definition deserialize (v : bytes) : result PairingElement :=
  match v with
  | g :: sep :: text =>
      if Byte.eqb sep ":"%byte then
        data <- standard_b64decode text ;;
        Ok {| pe_group := g; pe_data := data |}
      else Raise (ValueError "")
  | _ => Raise (ValueError "")
  end.

(** [deserialize_pairing_element] on [bytes]: any failure becomes a bare
    [ValueError]. *)
Definition deserialize_pairing_element (v : bytes) : result PairingElement :=
  match deserialize v with
  | Ok e => Ok e
  | Raise _ => Raise (ValueError "")
  end.

(** The public parameters of a root key, kept in serialized form. *)
Definition PublicKey : Type := bytes.

Record KeyGroup : Type := {
  public_key : PublicKey;
  secret_key : PairingElement
}.

Record IdentityKeyGroup : Type := {
  identity : string;
  id_public_key : PublicKey;
  id_secret_key : PairingElement * PairingElement
}.

Record Signature : Type := {
  S1 : PairingElement;
  S2 : PairingElement;
  S3 : PairingElement
}.

(** The Waters scheme of the [charm] package; [waters_setup] draws from the
    entropy it is handed. *)
Class WatersSig : Type := {
  waters_setup : Z -> PublicKey * PairingElement;
  waters_keygen : PublicKey -> PairingElement -> string -> PairingElement * PairingElement;
  waters_sign : PublicKey -> PairingElement * PairingElement -> string -> Signature;
  waters_verify : PublicKey -> string -> string -> Signature -> bool
}.

Definition key_as_bytes (key : PairingElement) : bytes := serialize key.

Definition key_as_str (key : PairingElement * PairingElement) : string * string :=
  (decode_utf8 (serialize (fst key)), decode_utf8 (serialize (snd key))).

Section WithWaters.

Context {lib : WatersSig}.

Definition generate_root_key (entropy : Z) : KeyGroup :=
  let '(pk, sk) := waters_setup entropy in
  {| public_key := pk; secret_key := sk |}.

Definition generate_identity_key (id : string) (root_key : KeyGroup) : IdentityKeyGroup :=
  {| identity := id;
     id_public_key := public_key root_key;
     id_secret_key := waters_keygen (public_key root_key) (secret_key root_key) id |}.

(** [sign] and [verify] on a [bytes] message hash its base64 text. *)
Definition sign (msg : bytes) (identity_key : IdentityKeyGroup) : Signature :=
  let msg := decode_utf8 (standard_b64encode msg) in
  waters_sign (id_public_key identity_key) (id_secret_key identity_key) msg.

Definition verify (root_public_key : PublicKey) (id : string) (msg : bytes)
    (signature : Signature) : bool :=
  let msg := decode_utf8 (standard_b64encode msg) in
  waters_verify root_public_key id msg signature.

End WithWaters.

End Ibs.

(** ** The [uuid] module and pydantic's [UUID4] *)

Module UUID.

Record t : Type := { int : Z }.

(** [UUID(bytes=b)] *)
Definition of_bytes (b : bytes) : result t :=
  if Nat.eqb (length b) 16 then Ok {| int := int_from_bytes b |}
  else Raise (ValueError "bytes is not a 16-char string").

(** [u.bytes] *)
Definition to_bytes (u : t) : bytes := int_to_bytes 16 (int u).

Definition is_rfc_4122 (u : t) : bool :=
  Z.testbit (int u) 63 && negb (Z.testbit (int u) 62).

(** [u.version]: meaningful for RFC 4122 identifiers only. *)
Definition version (u : t) : option Z :=
  if is_rfc_4122 u then Some (Z.land (Z.shiftr (int u) 76) 15) else None.

(** pydantic's validation of a field declared [UUID4]. *)
Definition validate_uuid4 (u : t) : result t :=
  match version u with
  | Some 4 => Ok u
  | _ => Raise (PydanticValidationError "uuid version 4 expected")
  end.

Definition hex_digits : string := "0123456789abcdef".

Definition hex_digit (d : Z) : ascii :=
  match String.get (Z.to_nat d) hex_digits with
  | Some c => c
  | None => "0"%char
  end.

Fixpoint hex_of (n : nat) (z : Z) : string :=
  match n with
  | O => EmptyString
  | S k => (hex_of k (z / 16) ++ String (hex_digit (z mod 16)) EmptyString)%string
  end.

(** [str(u)] *)
Definition str (u : t) : string :=
  let h := hex_of 32 (int u) in
  (substring 0 8 h ++ "-" ++ substring 8 4 h ++ "-" ++ substring 12 4 h ++ "-"
     ++ substring 16 4 h ++ "-" ++ substring 20 12 h)%string.

End UUID.

Import Utils.

(** ** models/domain.py: the wire types *)

Module TokenPayload.

Record t : Type := {
  gufi : UUID.t;
  nbf : datetime;
  exp : datetime;
  bbox : BBox
}.

(** The constructor call, with pydantic's validation of the [UUID4] field. *)
Definition init (g : UUID.t) (n e : datetime) (b : BBox) : result t :=
  g <- UUID.validate_uuid4 g ;;
  Ok {| gufi := g; nbf := n; exp := e; bbox := b |}.

Section WithSettings.

Variable s : Settings.

(** Format ['! 16s 2I 4f']. *)
Definition pack (p : t) : result bytes :=
  n <- encode_datetime_as_int s (nbf p) ROUND_FLOOR ;;
  e <- encode_datetime_as_int s (exp p) ROUND_CEILING ;;
  let g := pack_s 16 (UUID.to_bytes (gufi p)) in
  n <- pack_I n ;;
  e <- pack_I e ;;
  let '(b0, b1, b2, b3) := bbox p in
  fs <- pack_floats [b0; b1; b2; b3] ;;
  Ok (g ++ n ++ e ++ fs).

Definition unpack (data : bytes) : result t :=
  values <- unpack_fields [16; 4; 4; 4; 4; 4; 4]%nat data ;;
  match values with
  | [v0; v1; v2; v3; v4; v5; v6] =>
      g <- UUID.of_bytes v0 ;;
      fs <- unpack_floats [v3; v4; v5; v6] ;;
      match fs with
      | [b0; b1; b2; b3] =>
          init g (decode_datetime_from_int s (unpack_I v1))
            (decode_datetime_from_int s (unpack_I v2)) (b0, b1, b2, b3)
      | _ => Raise (StructError "")
      end
  | _ => Raise (StructError "")
  end.

End WithSettings.

Definition validate_ (p : t) (time : datetime) (loc : Point) : result unit :=
  if time >? exp p then Raise (DomainValidationError "token expired")
  else if time <? nbf p then Raise (DomainValidationError "token not yet valid")
  else
    inside <- bbox_includes (bbox p) loc ;;
    if negb inside then Raise (DomainValidationError "token spatial bounds exceeded")
    else Ok tt.

End TokenPayload.

Module Token.

Record t : Type := {
  payload : TokenPayload.t;
  kid : Z;
  signature : bytes
}.

(** What [Token.unpack] is handed: the binary form or its base64 text. *)
Inductive data : Type :=
| Binary (b : bytes)
| Text (s : string).

Section WithSettings.

Variable s : Settings.

(** Format ['! 40s I 64s']. *)
Definition pack (tok : t) : result bytes :=
  p <- TokenPayload.pack s (payload tok) ;;
  k <- pack_I (kid tok) ;;
  Ok (pack_s 40 p ++ k ++ pack_s 64 (signature tok)).

Definition unpack (d : data) : result t :=
  raw <- match d with
         | Text txt => standard_b64decode_str txt
         | Binary b => Ok b
         end ;;
  values <- unpack_fields [40; 4; 64]%nat raw ;;
  match values with
  | [v0; v1; v2] =>
      p <- TokenPayload.unpack s v0 ;;
      Ok {| payload := p; kid := unpack_I v1; signature := v2 |}
  | _ => Raise (StructError "")
  end.

Context {ed : Pks.Ed25519}.

Definition validate_ (tok : t) (token_key : Pks.PublicKey) (time : datetime)
    (loc : Point) : result unit :=
  TokenPayload.validate_ (payload tok) time loc ;;;
  packed <- TokenPayload.pack s (payload tok) ;;
  ok <- Pks.verify token_key packed (signature tok) ;;
  if negb ok then Raise (DomainValidationError "token signature invalid")
  else Ok tt.

End WithSettings.

End Token.

Module StateUpdate.

Record t : Type := {
  lat_deg : Q;
  lon_deg : Q;
  alt_hae_ft : Q;
  vel_ew_fps : Q;
  vel_ns_fps : Q;
  vel_vert_fps : Q;
  toa_utc : Q
}.

Definition values (u : t) : list Q :=
  [lat_deg u; lon_deg u; alt_hae_ft u; vel_ew_fps u; vel_ns_fps u;
   vel_vert_fps u; toa_utc u].

(** Format ['! 7f'], by the generic [pack] and [unpack] of the base model. *)
Definition pack (u : t) : result bytes := pack_floats (values u).

Definition unpack (data : bytes) : result t :=
  fields <- unpack_fields [4; 4; 4; 4; 4; 4; 4]%nat data ;;
  fs <- unpack_floats fields ;;
  match fs with
  | [a; b; c; d; e; f; g] =>
      Ok {| lat_deg := a; lon_deg := b; alt_hae_ft := c; vel_ew_fps := d;
            vel_ns_fps := e; vel_vert_fps := f; toa_utc := g |}
  | _ => Raise (StructError "")
  end.

End StateUpdate.

Module Message.

Record t : Type := {
  token : Token.t;
  kid : Z;
  payload : StateUpdate.t;
  signature : Ibs.Signature
}.

(** One signature element on the wire: its serialization without the first
    two bytes, base64-decoded. *)
Definition element_raw (e : Ibs.PairingElement) : result bytes :=
  standard_b64decode (skipn 2 (Ibs.key_as_bytes e)).

(** One signature element read back: the literal prefix and the base64 text
    of the field, handed to the validator of the [Signature] model. *)
Definition element_of_raw (v : bytes) : result Ibs.PairingElement :=
  Ibs.deserialize_pairing_element
    ("1"%byte :: ":"%byte :: standard_b64encode v).

Section WithSettings.

Variable s : Settings.

(** Format ['! 108s I 28s 21s 21s 21s']. *)
Definition pack (m : t) : result bytes :=
  tok <- Token.pack s (token m) ;;
  p <- StateUpdate.pack (payload m) ;;
  s1 <- element_raw (Ibs.S1 (signature m)) ;;
  s2 <- element_raw (Ibs.S2 (signature m)) ;;
  s3 <- element_raw (Ibs.S3 (signature m)) ;;
  k <- pack_I (kid m) ;;
  Ok (pack_s 108 tok ++ k ++ pack_s 28 p ++ pack_s 21 s1 ++ pack_s 21 s2
        ++ pack_s 21 s3).

Definition unpack (data : bytes) : result t :=
  values <- unpack_fields [108; 4; 28; 21; 21; 21]%nat data ;;
  match values with
  | [v0; v1; v2; v3; v4; v5] =>
      tok <- Token.unpack s (Token.Binary v0) ;;
      p <- StateUpdate.unpack v2 ;;
      s1 <- element_of_raw v3 ;;
      s2 <- element_of_raw v4 ;;
      s3 <- element_of_raw v5 ;;
      Ok {| token := tok; kid := unpack_I v1; payload := p;
            signature := {| Ibs.S1 := s1; Ibs.S2 := s2; Ibs.S3 := s3 |} |}
  | _ => Raise (StructError "")
  end.

Context {ed : Pks.Ed25519} {ws : Ibs.WatersSig}.

Definition validate_ (m : t) (message_key : Ibs.PublicKey)
    (token_key : Pks.PublicKey) (time : datetime) (loc : Point) : result unit :=
  Token.validate_ s (token m) token_key time loc ;;;
  let id := UUID.str (TokenPayload.gufi (Token.payload (token m))) in
  packed <- StateUpdate.pack (payload m) ;;
  if negb (Ibs.verify message_key id packed (signature m)) then
    Raise (DomainValidationError "message signature invalid")
  else Ok tt.

End WithSettings.

End Message.

(** ** transceiver/nav_src.py *)

Module NavSrc.

(** [random.uniform(a, b)] is [a + (b - a) * random()], with [random()] in
    the interval [0, 1).  The sum and the product are taken exactly: the
    rounding of the float operations is not modelled. *)
Definition uniform (a b r : Q) : Q := (a + (b - a) * r)%Q.

(** The POSIX epoch, 1970-01-01, is day 719162 after 0001-01-01. *)
Definition posix_epoch : datetime := 719162 * 86400 * 1000000.

(** [datetime.utcfromtimestamp(x)]: the naive datetime of the UTC wall clock,
    to the nearest microsecond. *)
Definition utcfromtimestamp (x : Q) : datetime :=
  posix_epoch + round_half_even (x * 1000000).

(** [toa.timestamp()].  A naive datetime is read as local time, so the
    offset of the host's zone is taken off; an aware one has offset zero. *)
Definition timestamp (utcoffset : timedelta) (toa : datetime) : Q :=
  ((toa - posix_epoch - utcoffset) # 1000000)%Q.

(** [Random(bbox).get_state(toa)]; [rnd i] is the i-th value that
    [random()] returns during the call. *)
Definition get_state (bbox : BBox) (rnd : nat -> Q) (utcoffset : timedelta)
    (toa : datetime) : StateUpdate.t :=
  let '(b0, b1, b2, b3) := bbox in
  {| StateUpdate.lat_deg := uniform b1 b3 (rnd 0%nat);
     StateUpdate.lon_deg := uniform b0 b2 (rnd 1%nat);
     StateUpdate.alt_hae_ft := uniform 0 10000 (rnd 2%nat);
     StateUpdate.vel_ew_fps := uniform (-250) 250 (rnd 3%nat);
     StateUpdate.vel_ns_fps := uniform (-250) 250 (rnd 4%nat);
     StateUpdate.vel_vert_fps := uniform (-50) 50 (rnd 5%nat);
     StateUpdate.toa_utc := timestamp utcoffset toa |}.

End NavSrc.

(** ** [asyncio.Queue] *)

Module Queue.

Record t (A : Type) : Type := {
  maxsize : Z;
  items : list A
}.

Arguments maxsize {A} _.
Arguments items {A} _.

(** [Queue(maxsize=0)]: a [maxsize] of zero or less makes the queue
    unbounded. *)
Definition new {A : Type} (maxsize : Z) : t A :=
  {| maxsize := maxsize; items := [] |}.

Definition default_maxsize : Z := 0.

Definition qsize {A : Type} (q : t A) : Z := Z.of_nat (length (items q)).

Definition full {A : Type} (q : t A) : bool :=
  if maxsize q <=? 0 then false else maxsize q <=? qsize q.

Definition put_nowait {A : Type} (q : t A) (item : A) : result (t A) :=
  if full q then Raise QueueFull
  else Ok {| maxsize := maxsize q; items := items q ++ [item] |}.

(** [get] on a queue that holds an item; on an empty queue the caller
    stays suspended. *)
Definition get {A : Type} (q : t A) : option (A * t A) :=
  match items q with
  | [] => None
  | x :: rest => Some (x, {| maxsize := maxsize q; items := rest |})
  end.

End Queue.

(** ** Logging *)

Module Log.

Inductive level : Type := DEBUG | INFO | WARNING | CRITICAL.

Definition entry : Type := level * string.

End Log.

(** ** transceiver/application.py *)

Module MessageKey.

Record t : Type := {
  kid : Z;
  nbf : datetime;
  exp : datetime;
  public_key : Ibs.PublicKey
}.

End MessageKey.

Module TokenKey.

Record t : Type := {
  kid : Z;
  nbf : datetime;
  exp : datetime;
  public_key : Pks.PublicKey
}.

End TokenKey.

Module SigningKey.

Record t : Type := {
  kid : Z;
  nbf : datetime;
  exp : datetime;
  key_group : Ibs.IdentityKeyGroup
}.

End SigningKey.

Module Application.

(** [str(n)] of an integer, as an f-string prints it. *)
Definition str_int (n : Z) : string := NilZero.string_of_int (Z.to_int n).

(** The validation failures, by the names the specification gives them. *)
Definition NoMessageKey (kid : Z) : exn :=
  ValidationError ("message key " ++ str_int kid ++ " not found in load set").
Definition MessageKeyExpired : exn := ValidationError "message key expired".
Definition MessageKeyNotYetValid : exn := ValidationError "message not yet valid".
Definition NoTokenKey (kid : Z) : exn :=
  ValidationError ("token key " ++ str_int kid ++ " not found in load set").
Definition TokenKeyExpired : exn := ValidationError "token key expired".
Definition TokenKeyNotYetValid : exn := ValidationError "token key not yet valid".
Definition TokenExpired : exn := DomainValidationError "token expired".
Definition TokenNotYetValid : exn := DomainValidationError "token not yet valid".
Definition TokenSpatialBoundsExceeded : exn :=
  DomainValidationError "token spatial bounds exceeded".
Definition TokenSignatureInvalid : exn :=
  DomainValidationError "token signature invalid".
Definition MessageSignatureInvalid : exn :=
  DomainValidationError "message signature invalid".

(** The queues and the log that the link and the application share. *)
Record World : Type := {
  receive_queue : Queue.t (datetime * bytes);
  transmit_queue : Queue.t bytes;
  log : list Log.entry
}.

Definition logger (lvl : Log.level) (msg : string) (w : World) : World :=
  {| receive_queue := receive_queue w;
     transmit_queue := transmit_queue w;
     log := log w ++ [(lvl, msg)] |}.

Definition set_transmit_queue (q : Queue.t bytes) (w : World) : World :=
  {| receive_queue := receive_queue w; transmit_queue := q; log := log w |}.

Definition set_receive_queue (q : Queue.t (datetime * bytes)) (w : World) : World :=
  {| receive_queue := q; transmit_queue := transmit_queue w; log := log w |}.

(** What a handler leaves behind: the world, and the exception that escaped
    it, if any. *)
Definition outcome : Type := World * option exn.

Section WithLibs.

Variable s : Settings.
Context {ed : Pks.Ed25519} {ws : Ibs.WatersSig}.

Definition validate_msg (message_keys : gmap Z MessageKey.t)
    (token_keys : gmap Z TokenKey.t) (msg : Message.t) (time : datetime)
    (loc : Point) : result unit :=
  match message_keys !! Message.kid msg with
  | None => Raise (NoMessageKey (Message.kid msg))
  | Some message_key =>
      if time >? MessageKey.exp message_key then Raise MessageKeyExpired
      else if time <? MessageKey.nbf message_key then Raise MessageKeyNotYetValid
      else
        match token_keys !! Token.kid (Message.token msg) with
        | None => Raise (NoTokenKey (Token.kid (Message.token msg)))
        | Some token_key =>
            if time >? TokenKey.exp token_key then Raise TokenKeyExpired
            else if time <? TokenKey.nbf token_key then Raise TokenKeyNotYetValid
            else
              Message.validate_ s msg (MessageKey.public_key message_key)
                (TokenKey.public_key token_key) time loc
        end
  end.

(** [except (ValidationError, DomainValidationError)] *)
Definition is_validation_error (e : exn) : option string :=
  match e with
  | ValidationError m => Some m
  | DomainValidationError m => Some m
  | _ => None
  end.

Definition sender (msg : Message.t) : UUID.t :=
  TokenPayload.gufi (Token.payload (Message.token msg)).

(** *** The black-hat role *)

Record BlackHat : Type := {
  bh_token_keys : gmap Z TokenKey.t;
  bh_message_keys : gmap Z MessageKey.t
}.

(** [BlackHat.receive]; [rnd] and [utcoffset] are the randomness and the
    local zone that the random nav source reads. *)
Definition blackhat_receive (self : BlackHat) (rnd : nat -> Q)
    (utcoffset : timedelta) (time : datetime) (data : bytes) (w : World) : outcome :=
  match Message.unpack s data with
  | Raise e => (w, Some e)
  | Ok msg =>
      let w := logger Log.INFO
                 ("Received message from " ++ UUID.str (sender msg)) w in
      let pos := (StateUpdate.lon_deg (Message.payload msg),
                  StateUpdate.lat_deg (Message.payload msg)) in
      match validate_msg (bh_message_keys self) (bh_token_keys self) msg time pos with
      | Raise e =>
          match is_validation_error e with
          | Some err =>
              (logger Log.WARNING
                 ("Message validation FAILED: " ++ err ++ ".  Not using for replay") w,
               None)
          | None => (w, Some e)
          end
      | Ok _ =>
          let bbox := TokenPayload.bbox (Token.payload (Message.token msg)) in
          let toa := NavSrc.utcfromtimestamp
                       (StateUpdate.toa_utc (Message.payload msg)) in
          let msg := {| Message.token := Message.token msg;
                        Message.kid := Message.kid msg;
                        Message.payload := NavSrc.get_state bbox rnd utcoffset toa;
                        Message.signature := Message.signature msg |} in
          match Message.pack s msg with
          | Raise e => (w, Some e)
          | Ok packed =>
              match Queue.put_nowait (transmit_queue w) packed with
              | Raise e => (w, Some e)
              | Ok q => (set_transmit_queue q w, None)
              end
          end
      end
  end.

(** *** The baseline role *)

Record Baseline : Type := {
  nav_src : datetime -> StateUpdate.t;
  broadcast_period : timedelta;
  gufi : UUID.t;
  tokens : list Token.t;
  token_keys : gmap Z TokenKey.t;
  message_keys : gmap Z MessageKey.t;
  signing_keys : list SigningKey.t
}.

Definition uuid_eqb (a b : UUID.t) : bool := UUID.int a =? UUID.int b.

Definition baseline_receive (self : Baseline) (time : datetime) (data : bytes)
    (w : World) : outcome :=
  match Message.unpack s data with
  | Raise e => (w, Some e)
  | Ok msg =>
      if uuid_eqb (sender msg) (gufi self) then
        (logger Log.DEBUG "ignoring message from self" w, None)
      else
        let w := logger Log.INFO
                   ("Received message from " ++ UUID.str (sender msg)) w in
        let own_state := nav_src self time in
        let pos := (StateUpdate.lon_deg own_state, StateUpdate.lat_deg own_state) in
        match validate_msg (message_keys self) (token_keys self) msg time pos with
        | Raise e =>
            match is_validation_error e with
            | Some err => (logger Log.WARNING ("Message validation FAILED: " ++ err) w, None)
            | None => (w, Some e)
            end
        | Ok _ => (logger Log.DEBUG "{msg.json()}" w, None)
        end
  end.

Fixpoint choose_token (tokens : list Token.t) (now : datetime) : result Token.t :=
  match tokens with
  | [] => Raise (ValueError "no valid token found in loadset")
  | token :: rest =>
      if (TokenPayload.exp (Token.payload token) >? now)
         && (TokenPayload.nbf (Token.payload token) <? now)
      then Ok token
      else choose_token rest now
  end.

Fixpoint choose_signing_key (keys : list SigningKey.t) (now : datetime)
    : result SigningKey.t :=
  match keys with
  | [] => Raise (ValueError "no valid signing key found in loadset")
  | key :: rest =>
      if (SigningKey.exp key >? now) && (SigningKey.nbf key <? now) then Ok key
      else choose_signing_key rest now
  end.

(** [assemble_msg]; each of the two choices reads the clock for itself. *)
Definition assemble_msg (signing_keys : list SigningKey.t) (tokens : list Token.t)
    (payload : StateUpdate.t) (now_key now_token : datetime) : result Message.t :=
  signing_key <- choose_signing_key signing_keys now_key ;;
  token <- choose_token tokens now_token ;;
  packed <- StateUpdate.pack payload ;;
  let signature := Ibs.sign packed (SigningKey.key_group signing_key) in
  Ok {| Message.payload := payload;
        Message.token := token;
        Message.kid := SigningKey.kid signing_key;
        Message.signature := signature |}.

(** [timedelta.total_seconds()] *)
Definition total_seconds (td : timedelta) : Q := (td # 1000000)%Q.

(** The end of a turn of [Baseline.produce]: [delta] is the time the turn
    has taken, in seconds; a turn that leaves no time to sleep is reported. *)
Definition report_slipping (self : Baseline) (delta : Q) (w : World) : World :=
  let remaining := (total_seconds (broadcast_period self) - delta)%Q in
  let delay := if Qle_bool remaining 0 then 0%Q else remaining in
  if Qeq_bool delay 0 then logger Log.CRITICAL "squitter producer slipping!" w
  else w.

(** One turn of the loop of [Baseline.produce], up to the sleep. *)
Definition produce_step (self : Baseline) (toa now_key now_token : datetime)
    (delta : Q) (w : World) : outcome :=
  let payload := nav_src self toa in
  match assemble_msg (signing_keys self) (tokens self) payload now_key now_token with
  | Raise e => (w, Some e)
  | Ok squitter =>
      match Message.pack s squitter with
      | Raise e => (w, Some e)
      | Ok packed =>
          match Queue.put_nowait (transmit_queue w) packed with
          | Ok q => (report_slipping self delta (set_transmit_queue q w), None)
          | Raise QueueFull =>
              (report_slipping self delta
                 (logger Log.CRITICAL "transmit queue full - message dropped" w),
               None)
          | Raise e => (w, Some e)
          end
      end
  end.

End WithLibs.

End Application.

(** ** transceiver/link.py and transceiver/__init__.py *)

Module Link.

Import Application.

(** [IpMulticast.Protocol.datagram_received]; [addr] is the text of the
    sender's host and port. *)
Definition datagram_received (tomr : datetime) (data : bytes) (addr : string)
    (w : World) : outcome :=
  let w := logger Log.DEBUG
             ("received UDP datagram from " ++ addr ++ " at {tomr}") w in
  match Queue.put_nowait (receive_queue w) (tomr, data) with
  | Ok q => (set_receive_queue q w, None)
  | Raise QueueFull =>
      (logger Log.CRITICAL
         ("receive queue full - message from " ++ addr ++ " dropped") w, None)
  | Raise e => (w, Some e)
  end.

(** One turn of [run_transmitting]: the datagram sent, if one was queued. *)
Definition run_transmitting_step (w : World) : option (bytes * World) :=
  match Queue.get (transmit_queue w) with
  | None => None
  | Some (data, q) => Some (data, set_transmit_queue q w)
  end.

End Link.

Module Transceiver.

Import Application.

(** [start]: the two queues are built by [Queue()], with no arguments. *)
Definition start : World :=
  {| receive_queue := Queue.new Queue.default_maxsize;
     transmit_queue := Queue.new Queue.default_maxsize;
     log := [] |}.

End Transceiver.

(** ** models/database.py and models/api.py: what the authority reads *)

Module Database.

(** A row of [token_keys] or of [root_keys].  A transient row has no primary
    key; the commit gives it one. *)
Record Key : Type := {
  pk : option Z;
  nbf : datetime;
  exp : datetime;
  public_key : bytes;
  secret_key : bytes
}.

Definition TokenKey : Type := Key.
Definition RootKey : Type := Key.

Record Token : Type := {
  t_nbf : datetime;
  t_exp : datetime;
  value : bytes;
  key : TokenKey
}.

Record SigningKey : Type := {
  private_key : string * string;
  root_key : RootKey
}.

Record Authorization : Type := {
  gufi : UUID.t;
  a_nbf : datetime;
  a_exp : datetime;
  bbox : BBox;
  operator : string;
  granted : datetime;
  tokens : list Token;
  signing_keys : list SigningKey
}.

(** The tables a session reads and writes, rows in insertion order. *)
Record Session : Type := {
  token_keys : list TokenKey;
  root_keys : list RootKey
}.

Definition pk_or_zero (k : Key) : Z := default 0 (pk k).

(** The primary key that the next inserted row gets. *)
Definition next_pk (rows : list Key) : Z :=
  1 + fold_right Z.max 0 (map pk_or_zero rows).

Fixpoint assign_pks (next : Z) (rows : list Key) : list Key :=
  match rows with
  | [] => []
  | r :: rest =>
      {| pk := Some next; nbf := nbf r; exp := exp r;
         public_key := public_key r; secret_key := secret_key r |}
        :: assign_pks (next + 1) rest
  end.

(** [db.add_all(rows); db.commit()] on one table. *)
Definition add_all_commit (table rows : list Key) : list Key :=
  table ++ assign_pks (next_pk table) rows.

(** [.filter(exp > start, nbf < end)] *)
Definition overlaps (start end_ : datetime) (k : Key) : bool :=
  (exp k >? start) && (nbf k <? end_).

(** [.order_by(nbf.asc())]: rows of equal [nbf] keep the table's order. *)
Definition nbf_le (a b : Key) : Prop := nbf a <= nbf b.

#[global] Instance nbf_le_dec : RelDecision nbf_le.
Proof. intros a b. unfold nbf_le. apply Z_le_dec. Defined.

Definition order_by_nbf_asc (rows : list Key) : list Key := merge_sort nbf_le rows.

(** [.order_by(exp.desc()).first()]: a row of greatest [exp], the earliest
    such row of the table. *)
Fixpoint first_by_exp_desc (rows : list Key) : option Key :=
  match rows with
  | [] => None
  | r :: rest =>
      match first_by_exp_desc rest with
      | Some m => if exp m >? exp r then Some m else Some r
      | None => Some r
      end
  end.

End Database.

Module Api.

Record AuthorizationRequest : Type := {
  gufi : UUID.t;
  nbf : datetime;
  exp : datetime;
  bbox : BBox
}.

End Api.

(** ** authority.py *)

Module Authority.

Import Database.

Section WithLibs.

Variable s : Settings.
Context {ed : Pks.Ed25519} {ws : Ibs.WatersSig}.

Definition KEY_INTERVAL : timedelta := minutes (key_rotation_mins s).
Definition KEY_EXP_BUFFER : timedelta := milliseconds (key_expiration_buffer_ms s).

(** The epoch families, told apart in the messages of the errors. *)
Definition choose_token_keys (db : Session) (start end_ : datetime)
    : result (list TokenKey) :=
  let token_keys := order_by_nbf_asc (filter (fun k => overlaps start end_ k = true) (token_keys db)) in
  match last token_keys with
  | None => Raise (ValueError "no token keys for time range")
  | Some l =>
      if exp l <? end_ then Raise (ValueError "token keys do not cover time range")
      else Ok token_keys
  end.

Definition choose_root_keys (db : Session) (start end_ : datetime)
    : result (list RootKey) :=
  let root_keys := order_by_nbf_asc (filter (fun k => overlaps start end_ k = true) (root_keys db)) in
  match last root_keys with
  | None => Raise (ValueError "no root keys for time range")
  | Some l =>
      if exp l <? end_ then Raise (ValueError "root keys do not cover time range")
      else Ok root_keys
  end.

(** The loop of [generate_token_keys] and [generate_root_keys]: one row per
    index of [range(n)]. *)
Definition epoch_nbf (start : datetime) (i : Z) : datetime := start + i * KEY_INTERVAL.
Definition epoch_exp (start : datetime) (i : Z) : datetime :=
  start + (i + 1) * KEY_INTERVAL + KEY_EXP_BUFFER.

Definition range (n : Z) : list Z := map Z.of_nat (seq 0 (Z.to_nat n)).

Definition n_epochs (start end_ : datetime) : Z :=
  1 + int_truediv (end_ - start) KEY_INTERVAL.

Definition generate_root_keys (entropy : Z -> Z) (start end_ : datetime)
    : result (list RootKey) :=
  if negb (end_ >? start) then Raise (ValueError "start must be before end")
  else
    Ok (map (fun i =>
               let key_group := Ibs.generate_root_key (entropy i) in
               {| pk := None;
                  nbf := epoch_nbf start i;
                  exp := epoch_exp start i;
                  public_key := Ibs.public_key key_group;
                  secret_key := Ibs.key_as_bytes (Ibs.secret_key key_group) |})
            (range (n_epochs start end_))).

Definition generate_token_keys (entropy : Z -> Z) (start end_ : datetime)
    : result (list TokenKey) :=
  if negb (end_ >? start) then Raise (ValueError "start must be before end")
  else
    Ok (map (fun i =>
               let key_group := Pks.generate_keys (entropy i) in
               {| pk := None;
                  nbf := epoch_nbf start i;
                  exp := epoch_exp start i;
                  public_key := Pks.key_as_bytes_public (Pks.public_key key_group);
                  secret_key := Pks.key_as_bytes_private (Pks.private_key key_group) |})
            (range (n_epochs start end_))).

(** [start - (start - datetime.min) % KEY_INTERVAL] *)
Definition quantize_now (now : datetime) : datetime := now - (now - 0) mod KEY_INTERVAL.

Definition add_token_keys (db : Session) (now : datetime) (entropy : Z -> Z)
    (end_ : datetime) : result Session :=
  match first_by_exp_desc (token_keys db) with
  | None =>
      let start := quantize_now now in
      keys <- generate_token_keys entropy start end_ ;;
      Ok {| token_keys := add_all_commit (token_keys db) keys;
            root_keys := root_keys db |}
  | Some l =>
      if exp l <? end_ then
        keys <- generate_token_keys entropy (nbf l + KEY_INTERVAL) end_ ;;
        Ok {| token_keys := add_all_commit (token_keys db) keys;
              root_keys := root_keys db |}
      else Ok db
  end.

Definition add_root_keys (db : Session) (now : datetime) (entropy : Z -> Z)
    (end_ : datetime) : result Session :=
  match first_by_exp_desc (root_keys db) with
  | None =>
      let start := quantize_now now in
      keys <- generate_root_keys entropy start end_ ;;
      Ok {| token_keys := token_keys db;
            root_keys := add_all_commit (root_keys db) keys |}
  | Some l =>
      if exp l <? end_ then
        keys <- generate_root_keys entropy (nbf l + KEY_INTERVAL) end_ ;;
        Ok {| token_keys := token_keys db;
              root_keys := add_all_commit (root_keys db) keys |}
      else Ok db
  end.

(** The domain token that [generate_token] builds and signs for one key. *)
Definition mint_token (request : Api.AuthorizationRequest) (key : TokenKey)
    : result Token.t :=
  private_key <- Pks.deserialize_private_key (secret_key key) ;;
  payload <- TokenPayload.init (Api.gufi request)
               (Z.max (Api.nbf request) (nbf key))
               (Z.min (Api.exp request) (exp key))
               (Api.bbox request) ;;
  packed_payload <- TokenPayload.pack s payload ;;
  let signature := Pks.sign packed_payload private_key in
  match pk key with
  | None => Raise (PydanticValidationError "none is not an allowed value")
  | Some kid =>
      Ok {| Token.payload := payload; Token.kid := kid; Token.signature := signature |}
  end.

Definition generate_token (request : Api.AuthorizationRequest) (key : TokenKey)
    : result Database.Token :=
  token <- mint_token request key ;;
  packed_value <- Token.pack s token ;;
  Ok {| t_nbf := TokenPayload.nbf (Token.payload token);
        t_exp := TokenPayload.exp (Token.payload token);
        value := packed_value;
        key := key |}.

Definition generate_signing_key (request : Api.AuthorizationRequest) (key : RootKey)
    : result Database.SigningKey :=
  sk <- Ibs.deserialize_pairing_element (secret_key key) ;;
  let root_key := {| Ibs.public_key := public_key key; Ibs.secret_key := sk |} in
  let identity_key := Ibs.generate_identity_key (UUID.str (Api.gufi request)) root_key in
  Ok {| private_key := Ibs.key_as_str (Ibs.id_secret_key identity_key);
        root_key := key |}.

(** A list comprehension whose body may raise. *)
Fixpoint for_each {A B : Type} (f : A -> result B) (l : list A) : result (list B) :=
  match l with
  | [] => Ok []
  | a :: rest =>
      b <- f a ;;
      bs <- for_each f rest ;;
      Ok (b :: bs)
  end.

Definition generate_authorization (db : Session) (now : datetime)
    (request : Api.AuthorizationRequest) (operator : string)
    : result Authorization :=
  token_keys <- choose_token_keys db (Api.nbf request) (Api.exp request) ;;
  tokens <- for_each (generate_token request) token_keys ;;
  root_keys <- choose_root_keys db (Api.nbf request) (Api.exp request) ;;
  signing_keys <- for_each (generate_signing_key request) root_keys ;;
  Ok {| gufi := Api.gufi request;
        a_nbf := Api.nbf request;
        a_exp := Api.exp request;
        bbox := Api.bbox request;
        operator := operator;
        granted := now;
        tokens := tokens;
        signing_keys := signing_keys |}.

End WithLibs.

End Authority.

(** * Properties *)

(** ** Time encoding *)

Module UtilsFacts.

(** The floor and the ceiling of a quotient of integers, as the
    specification writes them. *)
Definition floor_div (a b : Z) : Z := a / b.
Definition ceil_div (a b : Z) : Z := - ((- a) / b).

Lemma floor_div_spec (a b : Z) :
  0 < b -> floor_div a b * b <= a < (floor_div a b + 1) * b.
Proof.
  intros Hb. unfold floor_div.
  pose proof (Z.div_mod a b ltac:(lia)) as Hdm.
  pose proof (Z.mod_pos_bound a b Hb) as Hm.
  nia.
Qed.

Lemma ceil_div_spec (a b : Z) :
  0 < b -> (ceil_div a b - 1) * b < a <= ceil_div a b * b.
Proof.
  intros Hb. unfold ceil_div.
  pose proof (Z.div_mod (- a) b ltac:(lia)) as Hdm.
  pose proof (Z.mod_pos_bound (- a) b Hb) as Hm.
  nia.
Qed.

Lemma encode_floor (s : Settings) (t : datetime) :
  0 < TIME_RESOLUTION s -> MIN_DATETIME s <= t ->
  encode_datetime_as_int s t ROUND_FLOOR
  = Ok (floor_div (t - MIN_DATETIME s) (TIME_RESOLUTION s)).
Proof.
  intros Hd Ht. unfold encode_datetime_as_int, floor_div, int_truediv.
  destruct (Z.ltb_spec t (MIN_DATETIME s)) as [Hlt | _]; [lia |].
  f_equal.
  set (a := t - MIN_DATETIME s). set (d := TIME_RESOLUTION s) in *.
  replace (t - a mod d - MIN_DATETIME s) with (d * (a / d)).
  - rewrite Z.quot_div_nonneg.
    + rewrite Z.mul_comm. apply Z.div_mul. lia.
    + apply Z.mul_nonneg_nonneg; [lia |]. apply Z.div_pos; unfold a; lia.
    + assumption.
  - pose proof (Z.div_mod a d ltac:(lia)). unfold a in *. lia.
Qed.

Lemma encode_ceiling (s : Settings) (t : datetime) :
  0 < TIME_RESOLUTION s -> MIN_DATETIME s <= t ->
  encode_datetime_as_int s t ROUND_CEILING
  = Ok (ceil_div (t - MIN_DATETIME s) (TIME_RESOLUTION s)).
Proof.
  intros Hd Ht. unfold encode_datetime_as_int, ceil_div, int_truediv.
  destruct (Z.ltb_spec t (MIN_DATETIME s)) as [Hlt | _]; [lia |].
  f_equal.
  set (d := TIME_RESOLUTION s) in *.
  replace (- (t - MIN_DATETIME s)) with (MIN_DATETIME s - t) by lia.
  set (a := MIN_DATETIME s - t).
  pose proof (Z.div_mod a d ltac:(lia)) as Hdm.
  pose proof (Z.mod_pos_bound a d Hd) as Hm.
  assert (Hq : a / d <= 0).
  { apply Z.div_le_upper_bound; unfold a; lia. }
  replace (t + a mod d - MIN_DATETIME s) with (d * (- (a / d))) by (unfold a in *; lia).
  rewrite Z.quot_div_nonneg.
  - rewrite Z.mul_comm. apply Z.div_mul. lia.
  - apply Z.mul_nonneg_nonneg; lia.
  - assumption.
Qed.



Lemma encode_on_tick (s : Settings) (k : Z) (r : rounding) :
  0 < TIME_RESOLUTION s -> 0 <= k -> r = ROUND_FLOOR \/ r = ROUND_CEILING ->
  encode_datetime_as_int s (MIN_DATETIME s + k * TIME_RESOLUTION s) r = Ok k.
Proof.
  intros Hd Hk Hr. set (d := TIME_RESOLUTION s) in *.
  assert (Ht : MIN_DATETIME s <= MIN_DATETIME s + k * d) by nia.
  pose proof (floor_div_spec (k * d) d Hd) as Hf.
  pose proof (ceil_div_spec (k * d) d Hd) as Hc.
  destruct Hr as [-> | ->];
    [rewrite encode_floor by assumption | rewrite encode_ceiling by assumption];
    fold d; replace (MIN_DATETIME s + k * d - MIN_DATETIME s) with (k * d) by lia;
    f_equal; nia.
Qed.







(** The values of the test suite, computed. *)
Example test_encode_datetime_as_int :
  timedelta_mul_float float_0_9 (TIME_RESOLUTION settings) = 450000
  /\ timedelta_mul_float float_1_1 (TIME_RESOLUTION settings) = 550000
  /\ encode_datetime_as_int settings (MIN_DATETIME settings) ROUND_FLOOR = Ok 0
  /\ encode_datetime_as_int settings (MIN_DATETIME settings) ROUND_CEILING = Ok 0
  /\ encode_datetime_as_int settings (MIN_DATETIME settings + 450000) ROUND_FLOOR = Ok 0
  /\ encode_datetime_as_int settings (MIN_DATETIME settings + 450000) ROUND_CEILING = Ok 1
  /\ encode_datetime_as_int settings (MIN_DATETIME settings + 550000) ROUND_CEILING = Ok 2.
Proof. vm_compute. repeat split. Qed.

End UtilsFacts.

(** ** Bounding boxes *)

Module BBoxFacts.

Local Open Scope Q_scope.

Definition lon_in_range (x : Q) : Prop := -180 <= x <= 180.
Definition lat_in_range (x : Q) : Prop := -90 <= x <= 90.

(** Every coordinate of the point and of both corners is in range. *)
Definition in_range (bbox : BBox) (point : Point) : Prop :=
  let '(west, south, east, north) := bbox in
  let '(lon, lat) := point in
  (lon_in_range lon /\ lat_in_range lat)
  /\ (lon_in_range west /\ lat_in_range south)
  /\ (lon_in_range east /\ lat_in_range north).

(** Containment as the specification words it. *)
Definition contains (bbox : BBox) (point : Point) : Prop :=
  let '(west, south, east, north) := bbox in
  let '(lon, lat) := point in
  (south <= lat /\ lat <= north)
  /\ (east < west -> west <= lon \/ lon <= east)
  /\ (~ east < west -> west <= lon /\ lon <= east).

Lemma Qgtb_true (x y : Q) : Qgtb x y = true <-> y < x.
Proof.
  unfold Qgtb. rewrite negb_true_iff, <- not_true_iff_false, Qle_bool_iff.
  split; [apply Qnot_le_lt | apply Qlt_not_le].
Qed.

Lemma Qgtb_false (x y : Q) : Qgtb x y = false <-> x <= y.
Proof. unfold Qgtb. rewrite negb_false_iff. apply Qle_bool_iff. Qed.

Lemma Qltb_true (x y : Q) : Qltb x y = true <-> x < y.
Proof. unfold Qltb. apply (Qgtb_true y x). Qed.

Lemma Qltb_false (x y : Q) : Qltb x y = false <-> y <= x.
Proof. unfold Qltb. apply (Qgtb_false y x). Qed.

Lemma Qgeb_true (x y : Q) : Qgeb x y = true <-> y <= x.
Proof. unfold Qgeb. apply Qle_bool_iff. Qed.

Lemma Qleb_true (x y : Q) : Qleb x y = true <-> x <= y.
Proof. unfold Qleb. apply Qle_bool_iff. Qed.

Lemma Qabs_le_iff (x b : Q) : Qabs x <= b <-> - b <= x /\ x <= b.
Proof. apply Qabs_Qle_condition. Qed.

Lemma check_lon_lat_ok (lon lat : Q) :
  check_lon_lat (lon, lat) = Ok tt <-> lon_in_range lon /\ lat_in_range lat.
Proof.
  unfold check_lon_lat, lon_in_range, lat_in_range.
  destruct (Qgtb (Qabs lon) 180) eqn:Hlon.
  - apply Qgtb_true in Hlon. split; [discriminate |].
    intros [Hl _]. apply (Qabs_le_iff lon 180) in Hl. exfalso.
    exact (Qlt_not_le _ _ Hlon Hl).
  - apply Qgtb_false, Qabs_le_iff in Hlon.
    destruct (Qgtb (Qabs lat) 90) eqn:Hlat.
    + apply Qgtb_true in Hlat. split; [discriminate |].
      intros [_ Hl]. apply (Qabs_le_iff lat 90) in Hl. exfalso.
      exact (Qlt_not_le _ _ Hlat Hl).
    + apply Qgtb_false, Qabs_le_iff in Hlat. split; [intros _ | reflexivity].
      split; assumption.
Qed.


(** The range loop passes exactly when every pair is in range, and
    otherwise raises one of the two range errors. *)
Lemma check_all_ok (ps : list Point) :
  check_all ps = Ok tt
  <-> Forall (fun p => lon_in_range (fst p) /\ lat_in_range (snd p)) ps.
Proof.
  induction ps as [| [lon lat] rest IH]; cbn [check_all].
  - split; [constructor | reflexivity].
  - destruct (check_lon_lat (lon, lat)) as [[] | e] eqn:Hc; unfold bind.
    + rewrite IH. apply check_lon_lat_ok in Hc. split.
      * intros Hrest. constructor; assumption.
      * intros Hall. inversion Hall. assumption.
    + split; [discriminate |]. intros Hall. inversion Hall as [| ? ? Hp _]; subst.
      simpl in Hp. apply check_lon_lat_ok in Hp. rewrite Hp in Hc. discriminate Hc.
Qed.


Lemma in_range_Forall (west south east north lon lat : Q) :
  in_range (west, south, east, north) (lon, lat)
  <-> Forall (fun p => lon_in_range (fst p) /\ lat_in_range (snd p))
        [(lon, lat); (west, south); (east, north)].
Proof.
  unfold in_range. split.
  - intros (H1 & H2 & H3).
    constructor; [exact H1 |]. constructor; [exact H2 |].
    constructor; [exact H3 |]. constructor.
  - intros H. inversion H as [| ? ? H1 H']; subst.
    inversion H' as [| ? ? H2 H'']; subst.
    inversion H'' as [| ? ? H3 _]; subst. simpl in *. tauto.
Qed.

(** What the function computes once the range loop has passed. *)
Definition decision (bbox : BBox) (point : Point) : bool :=
  let '(west, south, east, north) := bbox in
  let '(lon, lat) := point in
  if Qgtb lat north || Qltb lat south then false
  else if Qltb east west then Qgeb lon west || Qleb lon east
  else Qgeb lon west && Qleb lon east.

Lemma bbox_includes_unfold (west south east north lon lat : Q) :
  bbox_includes (west, south, east, north) (lon, lat)
  = (check_all [(lon, lat); (west, south); (east, north)] ;;;
     Ok (decision (west, south, east, north) (lon, lat))).
Proof.
  unfold bbox_includes, decision.
  destruct (check_all _); unfold bind; [| reflexivity].
  destruct (Qgtb lat north || Qltb lat south)%bool; [reflexivity |].
  destruct (Qltb east west); reflexivity.
Qed.

Lemma bbox_decision (west south east north lon lat : Q) :
  decision (west, south, east, north) (lon, lat) = true
  <-> contains (west, south, east, north) (lon, lat).
Proof.
  unfold contains, decision.
  destruct (Qgtb lat north) eqn:Hn; simpl.
  { apply Qgtb_true in Hn. split; [discriminate |].
    intros [[_ Hle] _]. exfalso. exact (Qlt_not_le _ _ Hn Hle). }
  apply Qgtb_false in Hn.
  destruct (Qltb lat south) eqn:Hs; simpl.
  { apply Qltb_true in Hs. split; [discriminate |].
    intros [[Hle _] _]. exfalso. exact (Qlt_not_le _ _ Hs Hle). }
  apply Qltb_false in Hs.
  destruct (Qltb east west) eqn:Hew.
  - apply Qltb_true in Hew. rewrite orb_true_iff, Qgeb_true, Qleb_true.
    split.
    + intros Hor. split; [split; assumption |].
      split; [intros _; exact Hor | intros Hno; contradiction].
    + intros (_ & Hyes & _). exact (Hyes Hew).
  - apply Qltb_false in Hew. rewrite andb_true_iff, Qgeb_true, Qleb_true.
    split.
    + intros Hand. split; [split; assumption |].
      split; [| intros _; exact Hand].
      intros Hlt. exfalso. exact (Qlt_not_le _ _ Hlt Hew).
    + intros (_ & _ & Hno). apply Hno. apply Qle_not_lt. exact Hew.
Qed.


(** The cases of the test suite. *)
Example test_bbox_includes :
  map (bbox_includes (-40, 30, -30, 40))
    [(-35, 35); (-40, 30); (-40, 40); (-30, 40); (-30, 30)]
  = repeat (Ok true) 5
  /\ map (bbox_includes (-40, 30, -30, 40)) [(-45, 35); (-25, 35); (-35, 45); (-35, 25)]
     = repeat (Ok false) 4
  /\ map (bbox_includes (170, -10, -170, 10)) [(-180, 0); (180, 0)] = repeat (Ok true) 2
  /\ map (bbox_includes (170, -10, -170, 10)) [(0, 0); (165, 0); (-165, 0)]
     = repeat (Ok false) 3
  /\ bbox_includes (30, -91, -30, 40) (0, 0) = Raise LatitudeRange
  /\ bbox_includes (-40, 30, 40, 91) (0, 0) = Raise LatitudeRange
  /\ bbox_includes (-40, 30, -30, 40) (0, -91) = Raise LatitudeRange
  /\ bbox_includes (181, -40, -30, 40) (0, 0) = Raise LongitudeRange
  /\ bbox_includes (-40, 30, -181, -30) (0, 0) = Raise LongitudeRange
  /\ bbox_includes (-40, 30, -30, 40) (-181, 0) = Raise LongitudeRange.
Proof. vm_compute. repeat split. Qed.

End BBoxFacts.

(** ** Stand-ins for the cryptographic primitives

    The properties below hold for every implementation of the two
    primitives.  To run the model on concrete inputs, this module gives each
    primitive a stand-in with the interface and the raising behaviour of the
    real one and no security: a signature is the padded concatenation of the
    key and the message. *)

Module Toy.

Fixpoint bytes_eqb (a b : bytes) : bool :=
  match a, b with
  | [], [] => true
  | x :: a', y :: b' => Byte.eqb x y && bytes_eqb a' b'
  | _, _ => false
  end.

Definition tag (key msg : bytes) : bytes := pack_s 64 (key ++ msg).

Definition ed25519 : Pks.Ed25519 := {|
  Pks.ed25519_generate := fun entropy =>
    {| Pks.private_bytes := int_to_bytes 32 entropy |};
  Pks.ed25519_public_key := fun sk =>
    {| Pks.public_bytes := Pks.private_bytes sk |};
  Pks.ed25519_sign := fun sk msg => tag (Pks.private_bytes sk) msg;
  Pks.ed25519_verify := fun pk sig msg =>
    if bytes_eqb sig (tag (Pks.public_bytes pk) msg) then Ok tt
    else Raise InvalidSignature
|}.

Definition element (data : bytes) : Ibs.PairingElement :=
  {| Ibs.pe_group := "1"%byte; Ibs.pe_data := pack_s 21 data |}.

Definition waters_tag (pk : Ibs.PublicKey) (id msg : string) : Ibs.Signature :=
  {| Ibs.S1 := element pk;
     Ibs.S2 := element (list_byte_of_string id);
     Ibs.S3 := element (rev (list_byte_of_string msg)) |}.

Definition element_eqb (a b : Ibs.PairingElement) : bool :=
  Byte.eqb (Ibs.pe_group a) (Ibs.pe_group b)
  && bytes_eqb (Ibs.pe_data a) (Ibs.pe_data b).

Definition signature_eqb (a b : Ibs.Signature) : bool :=
  element_eqb (Ibs.S1 a) (Ibs.S1 b) && element_eqb (Ibs.S2 a) (Ibs.S2 b)
  && element_eqb (Ibs.S3 a) (Ibs.S3 b).

Definition waters : Ibs.WatersSig := {|
  Ibs.waters_setup := fun entropy =>
    (int_to_bytes 8 entropy, element (int_to_bytes 8 entropy));
  Ibs.waters_keygen := fun pk sk id =>
    (element pk, element (list_byte_of_string id));
  Ibs.waters_sign := fun pk sk msg =>
    {| Ibs.S1 := element pk;
       Ibs.S2 := snd sk;
       Ibs.S3 := element (rev (list_byte_of_string msg)) |};
  Ibs.waters_verify := fun pk id msg sig => signature_eqb sig (waters_tag pk id msg)
|}.

End Toy.

(** ** Conventional signature verification *)

Module PksFacts.

Section WithEd25519.

Context {lib : Pks.Ed25519}.

(** C8.  Provided the primitive keeps its contract (it raises nothing but
    [InvalidSignature]), [verify] returns a boolean for every key, message
    and signature and never raises: true when the primitive accepts the
    signature, false when it rejects it. *)
Theorem verify_returns_bool :
  Pks.raises_only_InvalidSignature lib ->
  forall (public_key : Pks.PublicKey) (msg signature : bytes),
    exists b : bool,
      Pks.verify public_key msg signature = Ok b
      /\ (b = true <-> returns (Pks.ed25519_verify public_key signature msg))
      /\ (b = false <-> Pks.ed25519_verify public_key signature msg = Raise InvalidSignature).
Proof.
  intros Hcontract public_key msg signature. unfold Pks.verify.
  destruct (Pks.ed25519_verify public_key signature msg) as [[] | e] eqn:Hv.
  - exists true. split; [reflexivity |]. split.
    + split; [intros _; exists tt; reflexivity | reflexivity].
    + split; discriminate.
  - pose proof (Hcontract _ _ _ _ Hv) as ->.
    exists false. split; [reflexivity |]. split.
    + split; [discriminate | intros [a Ha]; discriminate Ha].
    + split; reflexivity.
Qed.

(** An exception other than [InvalidSignature] is not caught: the contract
    of the primitive is what keeps [verify] from raising. *)
Lemma verify_propagates (public_key : Pks.PublicKey) (msg signature : bytes) (e : exn) :
  Pks.ed25519_verify public_key signature msg = Raise e ->
  e <> InvalidSignature ->
  Pks.verify public_key msg signature = Raise e.
Proof.
  intros Hv Hne. unfold Pks.verify. rewrite Hv.
  destruct e; try reflexivity. contradiction.
Qed.

End WithEd25519.

Lemma toy_contract : Pks.raises_only_InvalidSignature Toy.ed25519.
Proof.
  intros pk sig msg e. simpl.
  destruct (Toy.bytes_eqb _ _); [discriminate | intros [= <-]; reflexivity].
Qed.

Lemma verify_returns_bool_witness :
  Pks.raises_only_InvalidSignature Toy.ed25519
  /\ forall (public_key : Pks.PublicKey) (msg signature : bytes),
       exists b : bool,
         Pks.verify (lib := Toy.ed25519) public_key msg signature = Ok b
         /\ (b = true
             <-> returns (Pks.ed25519_verify (Ed25519 := Toy.ed25519) public_key signature msg))
         /\ (b = false
             <-> Pks.ed25519_verify (Ed25519 := Toy.ed25519) public_key signature msg
                 = Raise InvalidSignature).
Proof.
  split; [exact toy_contract |].
  exact (verify_returns_bool (lib := Toy.ed25519) toy_contract).
Defined.

End PksFacts.

(** ** Key selection *)

Module ChooseFacts.

Import Database.

#[local] Instance nbf_le_total : Total nbf_le.
Proof. intros a b. unfold nbf_le. lia. Qed.

#[local] Instance nbf_le_trans : Transitive nbf_le.
Proof. intros a b c. unfold nbf_le. lia. Qed.

(** The epochs of a table that overlap the window [start, end_). *)
Definition selected (table : list Key) (start end_ : datetime) : list Key :=
  filter (fun k => overlaps start end_ k = true) table.

Lemma overlaps_iff (start end_ : datetime) (k : Key) :
  overlaps start end_ k = true <-> exp k > start /\ nbf k < end_.
Proof. unfold overlaps. rewrite andb_true_iff, Z.gtb_lt, Z.ltb_lt. lia. Qed.

Lemma order_by_nbf_asc_perm (rows : list Key) : order_by_nbf_asc rows ≡ₚ rows.
Proof. apply merge_sort_Permutation. Qed.

Lemma order_by_nbf_asc_sorted (rows : list Key) :
  StronglySorted nbf_le (order_by_nbf_asc rows).
Proof. apply StronglySorted_merge_sort; typeclasses eauto. Qed.





Section WithSettings.

Variable s : Settings.

Lemma choose_token_keys_cases (db : Session) (start end_ : datetime) :
  let keys := order_by_nbf_asc (selected (token_keys db) start end_) in
  match last keys with
  | None =>
      Authority.choose_token_keys db start end_
      = Raise (ValueError "no token keys for time range")
  | Some l =>
      if exp l <? end_ then
        Authority.choose_token_keys db start end_
        = Raise (ValueError "token keys do not cover time range")
      else Authority.choose_token_keys db start end_ = Ok keys
  end.
Proof.
  unfold Authority.choose_token_keys, selected. cbv zeta.
  destruct (last _) as [l |]; [| reflexivity].
  destruct (exp l <? end_); reflexivity.
Qed.

Lemma choose_root_keys_cases (db : Session) (start end_ : datetime) :
  let keys := order_by_nbf_asc (selected (root_keys db) start end_) in
  match last keys with
  | None =>
      Authority.choose_root_keys db start end_
      = Raise (ValueError "no root keys for time range")
  | Some l =>
      if exp l <? end_ then
        Authority.choose_root_keys db start end_
        = Raise (ValueError "root keys do not cover time range")
      else Authority.choose_root_keys db start end_ = Ok keys
  end.
Proof.
  unfold Authority.choose_root_keys, selected. cbv zeta.
  destruct (last _) as [l |]; [| reflexivity].
  destruct (exp l <? end_); reflexivity.
Qed.



End WithSettings.

End ChooseFacts.

(** ** Epoch allocation *)

Module EpochFacts.

Import Database UtilsFacts.




Lemma lookup_range (n : Z) (i : nat) (x : Z) :
  Authority.range n !! i = Some x -> x = Z.of_nat i.
Proof.
  unfold Authority.range. rewrite list_lookup_fmap.
  destruct (seq 0 (Z.to_nat n) !! i) as [j |] eqn:Hj; [| discriminate].
  apply lookup_seq in Hj as [-> _]. intros [= <-]. reflexivity.
Qed.



Section WithLibs.

Variable s : Settings.
Context {ed : Pks.Ed25519} {ws : Ibs.WatersSig}.

Local Abbreviation KI := (Authority.KEY_INTERVAL s).
Local Abbreviation BUF := (Authority.KEY_EXP_BUFFER s).

















End WithLibs.

(** An empty authority at midnight of 2020-01-01 asked to reach seven
    minutes ahead. *)
Definition empty_db : Session := {| token_keys := []; root_keys := [] |}.
Definition midnight : datetime := default_min_datetime.



(** A horizon that is not after the anchor: the code raises, where the claim
    has epochs generated in either case. *)
Example add_epochs_past_horizon :
  Authority.add_token_keys settings (ed := Toy.ed25519) empty_db midnight id midnight
  = Raise (ValueError "start must be before end").
Proof. reflexivity. Qed.

End EpochFacts.

(** ** Token issuance *)

Module IssuanceFacts.

Import Database.

Lemma bind_Ok {A B : Type} (r : result A) (f : A -> result B) (b : B) :
  bind r f = Ok b -> exists a, r = Ok a /\ f a = Ok b.
Proof. destruct r as [a | e]; simpl; [eauto | discriminate]. Qed.

Ltac bind_inv H :=
  let a := fresh "a" in
  let Ha := fresh "Ha" in
  apply bind_Ok in H; destruct H as (a & Ha & H).

Lemma for_each_Ok {A B : Type} (f : A -> result B) (l : list A) (bs : list B) :
  Authority.for_each f l = Ok bs -> Forall2 (fun a b => f a = Ok b) l bs.
Proof.
  revert bs. induction l as [| a rest IH]; simpl; intros bs H.
  - injection H as <-. constructor.
  - bind_inv H. bind_inv H. injection H as <-.
    constructor; [assumption | apply IH; assumption].
Qed.

Lemma init_Ok (g : UUID.t) (n e : datetime) (b : BBox) (p : TokenPayload.t) :
  TokenPayload.init g n e b = Ok p ->
  p = {| TokenPayload.gufi := g; TokenPayload.nbf := n;
         TokenPayload.exp := e; TokenPayload.bbox := b |}
  /\ UUID.version g = Some 4.
Proof.
  unfold TokenPayload.init, UUID.validate_uuid4. intros H.
  destruct (UUID.version g) as [[| v | v] |]; simpl in H; try discriminate H.
  destruct v as [v | v |]; try discriminate H.
  destruct v as [v | v |]; try discriminate H.
  destruct v as [v | v |]; try discriminate H.
  injection H as <-. split; reflexivity.
Qed.

Section WithLibs.

Variable s : Settings.
Context {ed : Pks.Ed25519} {ws : Ibs.WatersSig}.




End WithLibs.

(** An authority that has allocated its epochs at midnight for a ten-minute
    horizon, and a request for the window from one to ten minutes past. *)
Definition ten_minutes_on : datetime := EpochFacts.midnight + minutes 10.

Definition session_of (r : result Session) : Session :=
  match r with
  | Ok db => db
  | Raise _ => EpochFacts.empty_db
  end.

Definition ready_db : Session :=
  let db := session_of (Authority.add_root_keys settings (ws := Toy.waters)
                          EpochFacts.empty_db EpochFacts.midnight id ten_minutes_on) in
  session_of (Authority.add_token_keys settings (ed := Toy.ed25519) db
                EpochFacts.midnight id ten_minutes_on).

Definition a_gufi : UUID.t := {| UUID.int := 0x123456781234467892345678123456ab |}.

Definition a_request : Api.AuthorizationRequest := {|
  Api.gufi := a_gufi;
  Api.nbf := EpochFacts.midnight + minutes 1;
  Api.exp := ten_minutes_on;
  Api.bbox := (-718 # 10, 419 # 10, -706 # 10, 427 # 10)%Q
|}.


End IssuanceFacts.

(** ** A vehicle's load set, for running the model

    The authority of [IssuanceFacts] answers the request; the load set is
    assembled from its tables as [get_loadset] and the constructor of the
    baseline application do. *)

Module Fixture.

Import Database.

Definition result_get {A : Type} (d : A) (r : result A) : A :=
  match r with
  | Ok a => a
  | Raise _ => d
  end.

Definition an_authorization : result Authorization :=
  Authority.generate_authorization settings (ed := Toy.ed25519) (ws := Toy.waters)
    IssuanceFacts.ready_db EpochFacts.midnight IssuanceFacts.a_request "jane doe".

Definition db_tokens : list Database.Token :=
  match an_authorization with
  | Ok a => tokens a
  | Raise _ => []
  end.

Fixpoint oks {A : Type} (l : list (result A)) : list A :=
  match l with
  | [] => []
  | Ok a :: rest => a :: oks rest
  | Raise _ :: rest => oks rest
  end.

Definition the_tokens : list Token.t :=
  oks (map (fun t => Token.unpack settings (Token.Binary (value t))) db_tokens).

Definition token_key_of (k : Key) : Z * TokenKey.t :=
  (pk_or_zero k,
   {| TokenKey.kid := pk_or_zero k;
      TokenKey.nbf := nbf k;
      TokenKey.exp := exp k;
      TokenKey.public_key := {| Pks.public_bytes := public_key k |} |}).

Definition message_key_of (k : Key) : Z * MessageKey.t :=
  (pk_or_zero k,
   {| MessageKey.kid := pk_or_zero k;
      MessageKey.nbf := nbf k;
      MessageKey.exp := exp k;
      MessageKey.public_key := public_key k |}).

Definition the_token_keys : gmap Z TokenKey.t :=
  list_to_map (map token_key_of (token_keys IssuanceFacts.ready_db)).

Definition the_message_keys : gmap Z MessageKey.t :=
  list_to_map (map message_key_of (root_keys IssuanceFacts.ready_db)).

Definition signing_key_of (k : Key) : SigningKey.t :=
  {| SigningKey.kid := pk_or_zero k;
     SigningKey.nbf := nbf k;
     SigningKey.exp := exp k;
     SigningKey.key_group :=
       Ibs.generate_identity_key (lib := Toy.waters)
         (UUID.str IssuanceFacts.a_gufi)
         {| Ibs.public_key := public_key k;
            Ibs.secret_key :=
              result_get (Toy.element [])
                (Ibs.deserialize_pairing_element (secret_key k)) |} |}.

Definition the_signing_keys : list SigningKey.t :=
  map signing_key_of (root_keys IssuanceFacts.ready_db).

(** A state inside the authorized box, two minutes past midnight. *)
Definition two_past : datetime := EpochFacts.midnight + minutes 2.

Definition a_state : StateUpdate.t := {|
  StateUpdate.lat_deg := 42;
  StateUpdate.lon_deg := -71;
  StateUpdate.alt_hae_ft := 1000;
  StateUpdate.vel_ew_fps := 100;
  StateUpdate.vel_ns_fps := -50;
  StateUpdate.vel_vert_fps := 0;
  StateUpdate.toa_utc := 1577836800
|}.

Definition blank_message : Message.t := {|
  Message.token :=
    {| Token.payload :=
         {| TokenPayload.gufi := IssuanceFacts.a_gufi;
            TokenPayload.nbf := 0; TokenPayload.exp := 0;
            TokenPayload.bbox := (0, 0, 0, 0)%Q |};
       Token.kid := 0; Token.signature := [] |};
  Message.kid := 0;
  Message.payload := a_state;
  Message.signature :=
    {| Ibs.S1 := Toy.element []; Ibs.S2 := Toy.element []; Ibs.S3 := Toy.element [] |}
|}.

(** The message the vehicle broadcasts at that time. *)
Definition a_message : Message.t :=
  result_get blank_message
    (Application.assemble_msg (ws := Toy.waters) the_signing_keys the_tokens a_state
       two_past two_past).

Definition a_location : Point := (-71, 42)%Q.

End Fixture.

(** ** The validation pipeline *)

Module ValidationFacts.

Import Application.

(** A check either passes or names the error it raises. *)
Definition check : Type := option exn.

Definition fail_if (b : bool) (e : exn) : check := if b then Some e else None.

(** A check on a key that an earlier lookup found. *)
Definition when {A : Type} (o : option A) (f : A -> check) : check :=
  match o with
  | Some a => f a
  | None => None
  end.

(** Running checks in order: the first failure is raised. *)
Fixpoint first_failure (checks : list check) : result unit :=
  match checks with
  | [] => Ok tt
  | None :: rest => first_failure rest
  | Some e :: _ => Raise e
  end.

Lemma first_failure_Ok (checks : list check) :
  first_failure checks = Ok tt <-> Forall (fun c => c = None) checks.
Proof.
  induction checks as [| [e |] rest IH]; simpl.
  - split; [constructor | reflexivity].
  - split; [discriminate | intros H; inversion H; discriminate].
  - rewrite IH. split; [constructor; auto | intros H; inversion H; assumption].
Qed.

Lemma first_failure_Raise (checks : list check) (e : exn) :
  first_failure checks = Raise e
  <-> exists i : nat,
        checks !! i = Some (Some e)
        /\ forall j : nat, (j < i)%nat -> checks !! j = Some None.
Proof.
  induction checks as [| [e' |] rest IH]; simpl.
  - split; [discriminate | intros (i & Hi & _); destruct i; discriminate Hi].
  - split.
    + intros [= <-]. exists 0%nat. split; [reflexivity | intros j Hj; lia].
    + intros (i & Hi & Hbefore). destruct i as [| i].
      * injection Hi as <-. reflexivity.
      * specialize (Hbefore 0%nat ltac:(lia)). discriminate Hbefore.
  - rewrite IH. split.
    + intros (i & Hi & Hbefore). exists (S i). split; [exact Hi |].
      intros [| j] Hj; [reflexivity | apply Hbefore; lia].
    + intros (i & Hi & Hbefore). destruct i as [| i]; [discriminate Hi |].
      exists i. split; [exact Hi |].
      intros j Hj. apply (Hbefore (S j)). lia.
Qed.

Section WithLibs.

Variable s : Settings.
Context {ed : Pks.Ed25519} {ws : Ibs.WatersSig}.

Section Checks.

Variable message_keys : gmap Z MessageKey.t.
Variable token_keys : gmap Z TokenKey.t.
Variable msg : Message.t.
Variable time : datetime.
Variable loc : Point.

Definition the_token : Token.t := Message.token msg.
Definition the_payload : TokenPayload.t := Token.payload the_token.
Definition message_key : option MessageKey.t := message_keys !! Message.kid msg.
Definition token_key : option TokenKey.t := token_keys !! Token.kid the_token.

(** 1. the message key is looked up by [msg.kid] *)
Definition message_key_lookup : check :=
  match message_key with
  | None => Some (NoMessageKey (Message.kid msg))
  | Some _ => None
  end.

(** 2. the window of the message key: expired when time > exp, not yet valid
    when time < nbf *)
Definition message_key_expired : check :=
  when message_key (fun k => fail_if (time >? MessageKey.exp k) MessageKeyExpired).
Definition message_key_not_yet_valid : check :=
  when message_key (fun k => fail_if (time <? MessageKey.nbf k) MessageKeyNotYetValid).

(** 3. the token key is looked up by [msg.token.kid] *)
Definition token_key_lookup : check :=
  match token_key with
  | None => Some (NoTokenKey (Token.kid the_token))
  | Some _ => None
  end.

(** 4. the window of the token key *)
Definition token_key_expired : check :=
  when token_key (fun k => fail_if (time >? TokenKey.exp k) TokenKeyExpired).
Definition token_key_not_yet_valid : check :=
  when token_key (fun k => fail_if (time <? TokenKey.nbf k) TokenKeyNotYetValid).

(** 5. the window of the token payload *)
Definition token_expired : check :=
  fail_if (time >? TokenPayload.exp the_payload) TokenExpired.
Definition token_not_yet_valid : check :=
  fail_if (time <? TokenPayload.nbf the_payload) TokenNotYetValid.

(** 6. the location is inside the bbox of the token; a coordinate out of
    range raises the range error of [bbox_includes] *)
Definition token_spatial_bounds : check :=
  match bbox_includes (TokenPayload.bbox the_payload) loc with
  | Ok true => None
  | Ok false => Some TokenSpatialBoundsExceeded
  | Raise e => Some e
  end.

(** 7. the conventional signature over the packed token payload; a payload
    that cannot be packed raises the error of the packing *)
Definition token_signature : check :=
  when token_key (fun k =>
    match TokenPayload.pack s the_payload with
    | Raise e => Some e
    | Ok packed =>
        match Pks.verify (TokenKey.public_key k) packed (Token.signature the_token) with
        | Ok true => None
        | Ok false => Some TokenSignatureInvalid
        | Raise e => Some e
        end
    end).

(** 8. the identity-based signature over the packed state payload, under the
    identity [str(msg.token.payload.gufi)] *)
Definition message_signature : check :=
  when message_key (fun k =>
    match StateUpdate.pack (Message.payload msg) with
    | Raise e => Some e
    | Ok packed =>
        fail_if
          (negb (Ibs.verify (MessageKey.public_key k)
                   (UUID.str (TokenPayload.gufi the_payload)) packed
                   (Message.signature msg)))
          MessageSignatureInvalid
    end).

Definition checks : list check :=
  [message_key_lookup; message_key_expired; message_key_not_yet_valid;
   token_key_lookup; token_key_expired; token_key_not_yet_valid;
   token_expired; token_not_yet_valid; token_spatial_bounds;
   token_signature; message_signature].

Lemma validate_msg_first_failure :
  validate_msg s message_keys token_keys msg time loc = first_failure checks.
Proof.
  unfold validate_msg, checks, message_key_lookup, message_key_expired,
    message_key_not_yet_valid, token_key_lookup, token_key_expired,
    token_key_not_yet_valid, token_expired, token_not_yet_valid,
    token_spatial_bounds, token_signature, message_signature,
    message_key, token_key, the_payload, the_token, when, fail_if.
  destruct (message_keys !! Message.kid msg) as [mk |]; [| reflexivity].
  cbn [first_failure].
  destruct (time >? MessageKey.exp mk); [reflexivity |].
  destruct (time <? MessageKey.nbf mk); [reflexivity |].
  destruct (token_keys !! Token.kid (Message.token msg)) as [tk |]; [| reflexivity].
  cbn [first_failure].
  destruct (time >? TokenKey.exp tk); [reflexivity |].
  destruct (time <? TokenKey.nbf tk); [reflexivity |].
  unfold Message.validate_, Token.validate_, TokenPayload.validate_.
  destruct (time >? TokenPayload.exp (Token.payload (Message.token msg)));
    [reflexivity |].
  destruct (time <? TokenPayload.nbf (Token.payload (Message.token msg)));
    [reflexivity |].
  destruct (bbox_includes _ loc) as [[|] | e];
    cbn [bind first_failure negb]; try reflexivity.
  destruct (TokenPayload.pack s _) as [packed | e];
    cbn [bind first_failure negb]; [| reflexivity].
  destruct (Pks.verify _ packed _) as [[|] | e];
    cbn [bind first_failure negb]; try reflexivity.
  destruct (StateUpdate.pack _) as [sp | e];
    cbn [bind first_failure negb]; [| reflexivity].
  destruct (Ibs.verify _ _ sp _); reflexivity.
Qed.

End Checks.

(** C1, as the code has it.  For every message, key maps, time and
    location, [validate_msg] runs these checks in this order: message-key
    lookup by msg.kid; message key expired (time > exp), not yet valid
    (time < nbf); token-key lookup by msg.token.kid; token key expired, not
    yet valid; token expired, not yet valid; bbox containment of the location;
    conventional signature over the packed token payload; identity-based
    signature over the packed state payload under str(msg.token.payload.gufi).
    It raises the error of the first check that fails and returns normally if
    and only if every check passes.  The containment check fails with
    TokenSpatialBoundsExceeded when the location is outside the box and with
    the range error of [bbox_includes] when a coordinate is out of range; a
    signature check whose payload cannot be packed fails with the error of
    the packing. *)
Theorem validate_msg_order (message_keys : gmap Z MessageKey.t)
    (token_keys : gmap Z TokenKey.t) (msg : Message.t) (time : datetime) (loc : Point) :
  let r := validate_msg s message_keys token_keys msg time loc in
  let cs := checks message_keys token_keys msg time loc in
  r = first_failure cs
  /\ (r = Ok tt <-> Forall (fun c => c = None) cs)
  /\ (forall e, r = Raise e
        <-> exists i : nat,
              cs !! i = Some (Some e)
              /\ forall j : nat, (j < i)%nat -> cs !! j = Some None).
Proof.
  cbv zeta. rewrite validate_msg_first_failure.
  split; [reflexivity |].
  split; [apply first_failure_Ok | intros e; apply first_failure_Raise].
Qed.

End WithLibs.

(** The eleven validation errors of the claim. *)
Definition validation_errors (msg : Message.t) : list exn :=
  [NoMessageKey (Message.kid msg); MessageKeyExpired; MessageKeyNotYetValid;
   NoTokenKey (Token.kid (Message.token msg)); TokenKeyExpired; TokenKeyNotYetValid;
   TokenExpired; TokenNotYetValid; TokenSpatialBoundsExceeded;
   TokenSignatureInvalid; MessageSignatureInvalid].

(** The fresh message of the fixture validates at a location inside the box. *)
Example fresh_message_accepted :
  validate_msg settings (ed := Toy.ed25519) (ws := Toy.waters)
    Fixture.the_message_keys Fixture.the_token_keys Fixture.a_message
    Fixture.two_past Fixture.a_location = Ok tt.
Proof. vm_compute. reflexivity. Qed.

(** C1 as it is worded fails at a location whose longitude is out of range:
    every check before the containment check passes, and what is raised is
    the range error, which is none of the eleven validation errors. *)
Lemma validate_msg_range_counterexample :
  validate_msg settings (ed := Toy.ed25519) (ws := Toy.waters)
    Fixture.the_message_keys Fixture.the_token_keys Fixture.a_message
    Fixture.two_past (181, 0)%Q = Raise LongitudeRange
  /\ ~ In LongitudeRange (validation_errors Fixture.a_message).
Proof.
  split; [vm_compute; reflexivity |].
  unfold validation_errors, LongitudeRange, NoMessageKey, MessageKeyExpired,
    MessageKeyNotYetValid, NoTokenKey, TokenKeyExpired, TokenKeyNotYetValid,
    TokenExpired, TokenNotYetValid, TokenSpatialBoundsExceeded,
    TokenSignatureInvalid, MessageSignatureInvalid.
  cbn [In].
  intros H. repeat (destruct H as [H | H]; [discriminate H |]). exact H.
Qed.

End ValidationFacts.

(** ** Fixed-layout fields *)

Module StructFacts.

Lemma b2z_range (b : byte) : 0 <= b2z b < 256.
Proof.
  unfold b2z. pose proof (Byte.to_N_bounded b). lia.
Qed.

Lemma z2b_b2z (b : byte) : z2b (b2z b) = b.
Proof.
  unfold z2b. rewrite Z.mod_small by apply b2z_range.
  unfold b2z. rewrite N2Z.id, Byte.of_to_N. reflexivity.
Qed.

Lemma b2z_z2b (z : Z) : b2z (z2b z) = z mod 256.
Proof.
  unfold z2b, b2z.
  pose proof (Z.mod_pos_bound z 256 ltac:(lia)) as Hm.
  destruct (Byte.of_N (Z.to_N (z mod 256))) as [b |] eqn:Hb.
  - apply Byte.to_of_N in Hb. rewrite Hb. lia.
  - apply Byte.of_N_None_iff in Hb. lia.
Qed.

Lemma length_int_to_bytes (n : nat) (z : Z) : length (int_to_bytes n z) = n.
Proof.
  revert z. induction n as [| k IH]; intros z; simpl; [reflexivity |].
  rewrite length_app, IH. simpl. lia.
Qed.

Lemma int_from_bytes_snoc (bs : bytes) (b : byte) :
  int_from_bytes (bs ++ [b]) = int_from_bytes bs * 256 + b2z b.
Proof. unfold int_from_bytes. rewrite fold_left_app. reflexivity. Qed.

Lemma int_from_to_bytes (n : nat) (z : Z) :
  0 <= z < 256 ^ Z.of_nat n -> int_from_bytes (int_to_bytes n z) = z.
Proof.
  revert z. induction n as [| k IH]; intros z Hz.
  - simpl in *. unfold int_from_bytes. simpl. lia.
  - cbn [int_to_bytes]. rewrite int_from_bytes_snoc, b2z_z2b.
    rewrite Nat2Z.inj_succ, Z.pow_succ_r in Hz by lia.
    rewrite IH.
    + pose proof (Z.div_mod z 256 ltac:(lia)). lia.
    + split; [apply Z.div_pos; lia |].
      apply Z.div_lt_upper_bound; lia.
Qed.

Lemma int_from_bytes_range (bs : bytes) :
  0 <= int_from_bytes bs < 256 ^ Z.of_nat (length bs).
Proof.
  induction bs as [| b rest IH] using rev_ind.
  - unfold int_from_bytes. simpl. lia.
  - rewrite int_from_bytes_snoc, length_app. cbn [length].
    replace (Z.of_nat (length rest + 1)) with (Z.succ (Z.of_nat (length rest))) by lia.
    rewrite Z.pow_succ_r by lia.
    pose proof (b2z_range b). lia.
Qed.

Lemma int_to_from_bytes (bs : bytes) :
  int_to_bytes (length bs) (int_from_bytes bs) = bs.
Proof.
  induction bs as [| b rest IH] using rev_ind; [reflexivity |].
  rewrite length_app, Nat.add_comm. cbn [length Nat.add int_to_bytes].
  rewrite int_from_bytes_snoc.
  pose proof (b2z_range b) as Hb.
  replace ((int_from_bytes rest * 256 + b2z b) / 256) with (int_from_bytes rest).
  - rewrite IH. f_equal. f_equal.
    rewrite <- (z2b_b2z b) at 2. unfold z2b.
    replace ((int_from_bytes rest * 256 + b2z b) mod 256) with (b2z b mod 256);
      [reflexivity |].
    rewrite Z.add_comm, Z.mod_add by lia. reflexivity.
  - rewrite Z.add_comm, Z.div_add by lia. rewrite Z.div_small by lia. lia.
Qed.

Lemma pack_I_Ok (z : Z) :
  0 <= z < 2 ^ 32 ->
  pack_I z = Ok (int_to_bytes 4 z) /\ unpack_I (int_to_bytes 4 z) = z.
Proof.
  intros Hz. unfold pack_I, unpack_I.
  destruct (Z.leb_spec 0 z); [| lia].
  destruct (Z.ltb_spec z (2 ^ 32)); [| lia].
  split; [reflexivity |]. apply int_from_to_bytes. simpl. lia.
Qed.

Lemma pack_I_inv (z : Z) (bs : bytes) :
  pack_I z = Ok bs -> 0 <= z < 2 ^ 32 /\ bs = int_to_bytes 4 z.
Proof.
  unfold pack_I.
  destruct (Z.leb_spec 0 z); destruct (Z.ltb_spec z (2 ^ 32)); simpl;
    intros [= <-] || discriminate. split; [lia | reflexivity].
Qed.

Lemma pack_s_exact (n : nat) (v : bytes) : length v = n -> pack_s n v = v.
Proof.
  intros <-. unfold pack_s. rewrite firstn_app, firstn_all, Nat.sub_diag.
  simpl. apply app_nil_r.
Qed.

Lemma length_pack_s (n : nat) (v : bytes) : length (pack_s n v) = n.
Proof.
  unfold pack_s. rewrite length_firstn, length_app, repeat_length. lia.
Qed.

Lemma length_pack_f (x : Q) (bs : bytes) : pack_f x = Ok bs -> length bs = 4%nat.
Proof.
  unfold pack_f. destruct (bits_of_binary32 _); [| discriminate].
  intros H. injection H as <-. reflexivity.
Qed.

Lemma length_pack_floats (xs : list Q) (bs : bytes) :
  pack_floats xs = Ok bs -> length bs = (4 * length xs)%nat.
Proof.
  revert bs. induction xs as [| x rest IH]; simpl; intros bs H.
  - injection H as <-. reflexivity.
  - IssuanceFacts.bind_inv H. IssuanceFacts.bind_inv H. injection H as <-.
    rewrite length_app, (length_pack_f _ _ Ha), (IH _ Ha0). lia.
Qed.

(** A buffer that is the concatenation of fields of the right widths splits
    into those fields. *)
Lemma split_fields_app (w : nat) (ws : list nat) (a rest : bytes) :
  length a = w -> split_fields (w :: ws) (a ++ rest) = a :: split_fields ws rest.
Proof.
  intros <-. cbn [split_fields].
  rewrite firstn_app, firstn_all, Nat.sub_diag, skipn_app, skipn_all, Nat.sub_diag.
  simpl. rewrite app_nil_r. reflexivity.
Qed.

Lemma split_fields_last (w : nat) (a : bytes) :
  length a = w -> split_fields [w] a = [a].
Proof.
  intros <-. cbn [split_fields]. rewrite firstn_all. reflexivity.
Qed.

(** Floats that survive the wire, packed in a run, are read back as they
    were. *)
Definition all_exact (xs : list Q) : Prop := Forall f32_exact xs.

Lemma pack_floats_exact (xs : list Q) :
  all_exact xs ->
  exists bs, pack_floats xs = Ok bs
             /\ length bs = (4 * length xs)%nat
             /\ unpack_floats (split_fields (repeat 4%nat (length xs)) bs) = Ok xs.
Proof.
  induction 1 as [| x rest (b & Hp & Hu) _ (bs & Hps & Hlen & Hus)].
  - exists []. repeat split.
  - exists (b ++ bs). cbn [pack_floats]. rewrite Hp, Hps. cbn [bind].
    pose proof (length_pack_f _ _ Hp) as Hb.
    split; [reflexivity |]. split; [rewrite length_app; simpl; lia |].
    cbn [length repeat]. rewrite split_fields_app by exact Hb.
    cbn [unpack_floats]. rewrite Hu, Hus. reflexivity.
Qed.

End StructFacts.

(** ** Base64 *)

Module Base64Facts.

Import StructFacts.

(** Induction over a byte string three bytes at a time. *)
Lemma triple_ind {A : Type} (P : list A -> Prop) :
  P [] -> (forall a, P [a]) -> (forall a b, P [a; b]) ->
  (forall a b c l, P l -> P (a :: b :: c :: l)) ->
  forall l, P l.
Proof.
  intros H0 H1 H2 H3.
  assert (Hall : forall l, P l /\ (forall a, P (a :: l)) /\ (forall a b, P (a :: b :: l))).
  { induction l as [| x l (IH0 & IH1 & IH2)]; [auto |].
    split; [apply IH1 |]. split; [intros a; apply IH2 |].
    intros a b. apply H3. exact IH0. }
  intros l. apply Hall.
Qed.

Definition sextets : list Z := seqZ 0 64.

Definition sextet_ok (v : Z) : bool :=
  match a2b (b2a v) with
  | Some v' => (v' =? v) && negb (Byte.eqb (b2a v) BASE64_PAD) && is_ascii (b2a v)
  | None => false
  end.

Lemma sextets_ok : forallb sextet_ok sextets = true.
Proof. vm_compute. reflexivity. Qed.

(** Every sextet has a character of its own, which is ASCII and not the pad. *)
Lemma b2a_spec (v : Z) :
  0 <= v < 64 ->
  a2b (b2a v) = Some v
  /\ Byte.eqb (b2a v) BASE64_PAD = false
  /\ is_ascii (b2a v) = true.
Proof.
  intros Hv.
  assert (Hin : In v sextets).
  { apply list_elem_of_In, elem_of_seqZ. lia. }
  pose proof (proj1 (forallb_forall sextet_ok sextets) sextets_ok v Hin) as Hok.
  unfold sextet_ok in Hok.
  destruct (a2b (b2a v)) as [v' |]; [| discriminate Hok].
  apply andb_true_iff in Hok as [Hok Hascii].
  apply andb_true_iff in Hok as [Heq Hpad].
  apply Z.eqb_eq in Heq. subst v'. apply negb_true_iff in Hpad. auto.
Qed.

Lemma pad_is_pad : Byte.eqb BASE64_PAD BASE64_PAD = true.
Proof. reflexivity. Qed.

(** One step of the decoder on the character of a sextet, by the position
    in the quad. *)
Lemma decode_step0 (v : Z) (rest : bytes) (st : dstate) :
  0 <= v < 64 -> quad_pos st = 0 ->
  decode_loop (b2a v :: rest) st
  = decode_loop rest {| quad_pos := 1; leftchar := v; pads := 0; out := out st |}.
Proof.
  intros Hv Hq. destruct (b2a_spec v Hv) as (Ha & Hp & _).
  cbn [decode_loop]. rewrite Hp, Ha, Hq. reflexivity.
Qed.

Lemma decode_step1 (v : Z) (rest : bytes) (st : dstate) :
  0 <= v < 64 -> quad_pos st = 1 ->
  decode_loop (b2a v :: rest) st
  = decode_loop rest
      {| quad_pos := 2; leftchar := v mod 16; pads := 0;
         out := out st ++ [z2b (leftchar st * 4 + v / 16)] |}.
Proof.
  intros Hv Hq. destruct (b2a_spec v Hv) as (Ha & Hp & _).
  cbn [decode_loop]. rewrite Hp, Ha, Hq. reflexivity.
Qed.

Lemma decode_step2 (v : Z) (rest : bytes) (st : dstate) :
  0 <= v < 64 -> quad_pos st = 2 ->
  decode_loop (b2a v :: rest) st
  = decode_loop rest
      {| quad_pos := 3; leftchar := v mod 4; pads := 0;
         out := out st ++ [z2b (leftchar st * 16 + v / 4)] |}.
Proof.
  intros Hv Hq. destruct (b2a_spec v Hv) as (Ha & Hp & _).
  cbn [decode_loop]. rewrite Hp, Ha, Hq. reflexivity.
Qed.

Lemma decode_step3 (v : Z) (rest : bytes) (st : dstate) :
  0 <= v < 64 -> quad_pos st = 3 ->
  decode_loop (b2a v :: rest) st
  = decode_loop rest
      {| quad_pos := 0; leftchar := 0; pads := 0;
         out := out st ++ [z2b (leftchar st * 64 + v)] |}.
Proof.
  intros Hv Hq. destruct (b2a_spec v Hv) as (Ha & Hp & _).
  cbn [decode_loop]. rewrite Hp, Ha, Hq. reflexivity.
Qed.

(** A pad ends the input once it completes the quad, and is counted
    otherwise. *)
Lemma decode_pad (rest : bytes) (st : dstate) :
  decode_loop (BASE64_PAD :: rest) st
  = if (2 <=? quad_pos st) && (4 <=? quad_pos st + (pads st + 1)) then Ok (out st)
    else decode_loop rest
           {| quad_pos := quad_pos st; leftchar := leftchar st;
              pads := pads st + 1; out := out st |}.
Proof. reflexivity. Qed.

Lemma z2b_of (b : byte) (z : Z) : z = b2z b -> z2b z = b.
Proof. intros ->. apply z2b_b2z. Qed.

(** The arithmetic of regrouping three bytes into four sextets. *)
Definition s1 (a : Z) : Z := a / 4.
Definition s2 (a b : Z) : Z := (a mod 4) * 16 + b / 16.
Definition s3 (b c : Z) : Z := (b mod 16) * 4 + c / 64.
Definition s4 (c : Z) : Z := c mod 64.

Lemma sextets_range (a b c : Z) :
  0 <= a < 256 -> 0 <= b < 256 -> 0 <= c < 256 ->
  0 <= s1 a < 64 /\ 0 <= s2 a b < 64 /\ 0 <= s3 b c < 64 /\ 0 <= s4 c < 64.
Proof.
  intros Ha Hb Hc. unfold s1, s2, s3, s4.
  repeat split; Z.div_mod_to_equations; lia.
Qed.

Lemma first_byte (a b : Z) :
  0 <= a < 256 -> 0 <= b < 256 -> s1 a * 4 + s2 a b / 16 = a.
Proof. intros Ha Hb. unfold s1, s2. Z.div_mod_to_equations. lia. Qed.

Lemma second_byte (a b c : Z) :
  0 <= a < 256 -> 0 <= b < 256 -> 0 <= c < 256 ->
  (s2 a b mod 16) * 16 + s3 b c / 4 = b.
Proof. intros Ha Hb Hc. unfold s2, s3. Z.div_mod_to_equations. lia. Qed.

Lemma third_byte (b c : Z) :
  0 <= b < 256 -> 0 <= c < 256 -> (s3 b c mod 4) * 64 + s4 c = c.
Proof. intros Hb Hc. unfold s3, s4. Z.div_mod_to_equations. lia. Qed.

(** The decoder reads the four characters of three bytes back as the
    bytes. *)
Lemma decode_quad (a b c : byte) (rest : bytes) (st : dstate) :
  quad_pos st = 0 ->
  decode_loop
    (b2a (s1 (b2z a)) :: b2a (s2 (b2z a) (b2z b))
       :: b2a (s3 (b2z b) (b2z c)) :: b2a (s4 (b2z c)) :: rest) st
  = decode_loop rest
      {| quad_pos := 0; leftchar := 0; pads := 0; out := out st ++ [a; b; c] |}.
Proof.
  intros Hq.
  pose proof (b2z_range a) as Ha. pose proof (b2z_range b) as Hb.
  pose proof (b2z_range c) as Hc.
  destruct (sextets_range _ _ _ Ha Hb Hc) as (H1 & H2 & H3 & H4).
  rewrite (decode_step0 _ _ _ H1 Hq).
  rewrite (decode_step1 _ _ _ H2) by reflexivity.
  rewrite (decode_step2 _ _ _ H3) by reflexivity.
  rewrite (decode_step3 _ _ _ H4) by reflexivity.
  cbn [quad_pos leftchar out pads].
  rewrite (first_byte _ _ Ha Hb), (second_byte _ _ _ Ha Hb Hc), (third_byte _ _ Hb Hc).
  rewrite !z2b_b2z, <- !app_assoc. reflexivity.
Qed.

Lemma encode_chunks_1 (a : byte) :
  encode_chunks [a]
  = [b2a (s1 (b2z a)); b2a (s2 (b2z a) 0); BASE64_PAD; BASE64_PAD].
Proof. unfold s1, s2. cbn [encode_chunks]. rewrite Z.add_0_r. reflexivity. Qed.

Lemma encode_chunks_2 (a b : byte) :
  encode_chunks [a; b]
  = [b2a (s1 (b2z a)); b2a (s2 (b2z a) (b2z b)); b2a (s3 (b2z b) 0); BASE64_PAD].
Proof. unfold s1, s2, s3. cbn [encode_chunks]. rewrite Z.add_0_r. reflexivity. Qed.

Lemma encode_chunks_3 (a b c : byte) (rest : bytes) :
  encode_chunks (a :: b :: c :: rest)
  = b2a (s1 (b2z a)) :: b2a (s2 (b2z a) (b2z b)) :: b2a (s3 (b2z b) (b2z c))
      :: b2a (s4 (b2z c)) :: encode_chunks rest.
Proof. reflexivity. Qed.

Lemma decode_loop_encode (data : bytes) :
  forall st, quad_pos st = 0 ->
    decode_loop (encode_chunks data) st = Ok (out st ++ data).
Proof.
  induction data as [| a | a b | a b c rest IH] using triple_ind; intros st Hq.
  - cbn. unfold dfinish. rewrite Hq, app_nil_r. reflexivity.
  - rewrite encode_chunks_1.
    pose proof (b2z_range a) as Ha.
    destruct (sextets_range _ 0 0 Ha ltac:(lia) ltac:(lia)) as (H1 & H2 & _).
    rewrite (decode_step0 _ _ _ H1 Hq).
    rewrite (decode_step1 _ _ _ H2) by reflexivity.
    rewrite !decode_pad. cbn [quad_pos leftchar out pads].
    rewrite (first_byte _ 0 Ha ltac:(lia)), z2b_b2z. reflexivity.
  - rewrite encode_chunks_2.
    pose proof (b2z_range a) as Ha. pose proof (b2z_range b) as Hb.
    destruct (sextets_range _ _ 0 Ha Hb ltac:(lia)) as (H1 & H2 & H3 & _).
    rewrite (decode_step0 _ _ _ H1 Hq).
    rewrite (decode_step1 _ _ _ H2) by reflexivity.
    rewrite (decode_step2 _ _ _ H3) by reflexivity.
    rewrite decode_pad. cbn [quad_pos leftchar out pads].
    rewrite (first_byte _ _ Ha Hb), (second_byte _ _ 0 Ha Hb ltac:(lia)).
    rewrite !z2b_b2z, <- app_assoc. reflexivity.
  - rewrite encode_chunks_3, decode_quad by exact Hq.
    rewrite IH by reflexivity. cbn [out]. rewrite <- app_assoc. reflexivity.
Qed.

Lemma b2a_ascii (v : Z) : 0 <= v < 64 -> is_ascii (b2a v) = true.
Proof. intros Hv. apply (b2a_spec v Hv). Qed.

Lemma encode_chunks_ascii (data : bytes) :
  forallb is_ascii (encode_chunks data) = true.
Proof.
  induction data as [| a | a b | a b c rest IH] using triple_ind.
  - reflexivity.
  - rewrite encode_chunks_1. pose proof (b2z_range a) as Ha.
    destruct (sextets_range _ 0 0 Ha ltac:(lia) ltac:(lia)) as (H1 & H2 & _).
    cbn [forallb]. rewrite (b2a_ascii _ H1), (b2a_ascii _ H2). reflexivity.
  - rewrite encode_chunks_2.
    pose proof (b2z_range a) as Ha. pose proof (b2z_range b) as Hb.
    destruct (sextets_range _ _ 0 Ha Hb ltac:(lia)) as (H1 & H2 & H3 & _).
    cbn [forallb]. rewrite (b2a_ascii _ H1), (b2a_ascii _ H2), (b2a_ascii _ H3).
    reflexivity.
  - rewrite encode_chunks_3.
    pose proof (b2z_range a) as Ha. pose proof (b2z_range b) as Hb.
    pose proof (b2z_range c) as Hc.
    destruct (sextets_range _ _ _ Ha Hb Hc) as (H1 & H2 & H3 & H4).
    cbn [forallb].
    rewrite (b2a_ascii _ H1), (b2a_ascii _ H2), (b2a_ascii _ H3), (b2a_ascii _ H4), IH.
    reflexivity.
Qed.

(** Decoding undoes encoding. *)
Lemma b64decode_b64encode (data : bytes) :
  standard_b64decode (standard_b64encode data) = Ok data.
Proof.
  unfold standard_b64decode, standard_b64encode.
  rewrite decode_loop_encode by reflexivity. reflexivity.
Qed.

Lemma b64encode_ascii (data : bytes) :
  forallb is_ascii (standard_b64encode data) = true.
Proof. apply encode_chunks_ascii. Qed.

(** The text form of a byte string decodes to the byte string. *)
Lemma b64decode_str_b64encode (data : bytes) :
  standard_b64decode_str (decode_utf8 (standard_b64encode data)) = Ok data.
Proof.
  unfold standard_b64decode_str, decode_utf8.
  rewrite list_byte_of_string_of_list_byte, b64encode_ascii.
  apply b64decode_b64encode.
Qed.

End Base64Facts.

(** ** The binary codec *)

Module CodecFacts.

Import StructFacts Base64Facts UtilsFacts.

Lemma unpack_fields_Ok (widths : list nat) (data : bytes) :
  length data = calcsize widths ->
  unpack_fields widths data = Ok (split_fields widths data).
Proof.
  intros H. unfold unpack_fields. rewrite H, Nat.eqb_refl. reflexivity.
Qed.

(** *** Identifiers *)

Definition uuid_ok (u : UUID.t) : Prop :=
  0 <= UUID.int u < 2 ^ 128 /\ UUID.version u = Some 4.

Lemma length_uuid_bytes (u : UUID.t) : length (UUID.to_bytes u) = 16%nat.
Proof. apply length_int_to_bytes. Qed.

Lemma uuid_of_to_bytes (u : UUID.t) :
  0 <= UUID.int u < 2 ^ 128 -> UUID.of_bytes (UUID.to_bytes u) = Ok u.
Proof.
  intros Hu. unfold UUID.of_bytes. rewrite length_uuid_bytes. cbn [Nat.eqb].
  unfold UUID.to_bytes. rewrite int_from_to_bytes by exact Hu.
  destruct u. reflexivity.
Qed.

Lemma validate_uuid4_Ok (u : UUID.t) :
  UUID.version u = Some 4 -> UUID.validate_uuid4 u = Ok u.
Proof. intros H. unfold UUID.validate_uuid4. rewrite H. reflexivity. Qed.

(** *** Signature elements *)

Definition element_ok (e : Ibs.PairingElement) : Prop :=
  Ibs.pe_group e = "1"%byte /\ length (Ibs.pe_data e) = 21%nat.

Lemma element_raw_Ok (e : Ibs.PairingElement) :
  Message.element_raw e = Ok (Ibs.pe_data e).
Proof.
  unfold Message.element_raw, Ibs.key_as_bytes, Ibs.serialize. cbn [skipn].
  apply b64decode_b64encode.
Qed.

Lemma element_of_raw_Ok (v : bytes) :
  Message.element_of_raw v = Ok {| Ibs.pe_group := "1"%byte; Ibs.pe_data := v |}.
Proof.
  unfold Message.element_of_raw, Ibs.deserialize_pairing_element, Ibs.deserialize.
  change (Byte.eqb ":"%byte ":"%byte) with true. cbv iota.
  rewrite b64decode_b64encode. reflexivity.
Qed.

Lemma element_roundtrip (e : Ibs.PairingElement) :
  element_ok e ->
  exists raw, Message.element_raw e = Ok raw
              /\ length (pack_s 21 raw) = 21%nat
              /\ Message.element_of_raw (pack_s 21 raw) = Ok e.
Proof.
  intros [Hg Hl]. exists (Ibs.pe_data e).
  split; [apply element_raw_Ok |]. split; [apply length_pack_s |].
  rewrite pack_s_exact by exact Hl. rewrite element_of_raw_Ok.
  destruct e as [g d]. simpl in Hg. subst g. reflexivity.
Qed.

(** *** Token payloads *)

Section WithSettings.

Variable s : Settings.

Local Abbreviation MIN := (MIN_DATETIME s).
Local Abbreviation D := (TIME_RESOLUTION s).

(** The tick at or below a datetime, and the tick at or above it. *)
Definition floor_tick (t : datetime) : datetime :=
  decode_datetime_from_int s (floor_div (t - MIN) D).
Definition ceil_tick (t : datetime) : datetime :=
  decode_datetime_from_int s (ceil_div (t - MIN) D).

(** A datetime on a tick boundary. *)
Definition on_tick (t : datetime) : Prop := (t - MIN) mod D = 0.



Lemma floor_tick_spec (t : datetime) :
  0 < D -> floor_tick t <= t < floor_tick t + D /\ on_tick (floor_tick t).
Proof.
  intros Hd. unfold floor_tick, decode_datetime_from_int, on_tick.
  pose proof (floor_div_spec (t - MIN) D Hd). split; [lia |].
  replace (floor_div (t - MIN) D * D + MIN - MIN) with (floor_div (t - MIN) D * D) by lia.
  apply Z.mod_mul. lia.
Qed.

Lemma ceil_tick_spec (t : datetime) :
  0 < D -> ceil_tick t - D < t <= ceil_tick t /\ on_tick (ceil_tick t).
Proof.
  intros Hd. unfold ceil_tick, decode_datetime_from_int, on_tick.
  pose proof (ceil_div_spec (t - MIN) D Hd). split; [lia |].
  replace (ceil_div (t - MIN) D * D + MIN - MIN) with (ceil_div (t - MIN) D * D) by lia.
  apply Z.mod_mul. lia.
Qed.

(** A datetime whose tick count fits the 32-bit field of the wire. *)
Definition time_ok (t : datetime) : Prop :=
  MIN <= t /\ ceil_div (t - MIN) D < 2 ^ 32.

Lemma time_ok_ticks (t : datetime) :
  0 < D -> time_ok t ->
  0 <= floor_div (t - MIN) D < 2 ^ 32 /\ 0 <= ceil_div (t - MIN) D < 2 ^ 32.
Proof.
  intros Hd [Hmin Hmax].
  pose proof (floor_div_spec (t - MIN) D Hd).
  pose proof (ceil_div_spec (t - MIN) D Hd). nia.
Qed.

(** A payload that the wire can carry: a version-4 identifier, times from
    [MIN_DATETIME] on whose ticks fit 32 bits, and bbox coordinates that are
    binary32 values. *)
Definition payload_ok (p : TokenPayload.t) : Prop :=
  uuid_ok (TokenPayload.gufi p)
  /\ time_ok (TokenPayload.nbf p)
  /\ time_ok (TokenPayload.exp p)
  /\ (let '(b0, b1, b2, b3) := TokenPayload.bbox p in all_exact [b0; b1; b2; b3]).

(** What a payload becomes on the wire: nbf at its floor tick, exp at its
    ceiling tick. *)
Definition quantized (p : TokenPayload.t) : TokenPayload.t :=
  {| TokenPayload.gufi := TokenPayload.gufi p;
     TokenPayload.nbf := floor_tick (TokenPayload.nbf p);
     TokenPayload.exp := ceil_tick (TokenPayload.exp p);
     TokenPayload.bbox := TokenPayload.bbox p |}.


Lemma payload_roundtrip (p : TokenPayload.t) :
  0 < D -> payload_ok p ->
  exists data, TokenPayload.pack s p = Ok data
               /\ length data = 40%nat
               /\ TokenPayload.unpack s data = Ok (quantized p).
Proof.
  intros Hd ([Hint Hver] & Hnbf & Hexp & Hbox).
  destruct p as [g n e [[[b0 b1] b2] b3]]. cbn [TokenPayload.gufi TokenPayload.nbf
    TokenPayload.exp TokenPayload.bbox] in *.
  destruct (time_ok_ticks _ Hd Hnbf) as [Hn _].
  destruct (time_ok_ticks _ Hd Hexp) as [_ He].
  destruct (pack_floats_exact _ Hbox) as (fs & Hpf & Hlf & Huf).
  destruct (pack_I_Ok _ Hn) as [Hpn Hun]. destruct (pack_I_Ok _ He) as [Hpe Hue].
  unfold TokenPayload.pack.
  cbn [TokenPayload.gufi TokenPayload.nbf TokenPayload.exp TokenPayload.bbox].
  rewrite encode_floor, encode_ceiling by (try exact Hd; apply Hnbf || apply Hexp).
  cbn [bind]. rewrite Hpn, Hpe. cbn [bind]. rewrite Hpf. cbn [bind].
  rewrite pack_s_exact by apply length_uuid_bytes.
  eexists. split; [reflexivity |].
  assert (Hlen : length (UUID.to_bytes g ++ int_to_bytes 4 (floor_div (n - MIN) D)
                           ++ int_to_bytes 4 (ceil_div (e - MIN) D) ++ fs) = 40%nat).
  { rewrite !length_app, length_uuid_bytes, !length_int_to_bytes, Hlf. reflexivity. }
  split; [exact Hlen |].
  unfold TokenPayload.unpack.
  rewrite unpack_fields_Ok by exact Hlen. cbn [bind].
  rewrite split_fields_app by apply length_uuid_bytes.
  rewrite split_fields_app by apply length_int_to_bytes.
  rewrite split_fields_app by apply length_int_to_bytes.
  cbn [length repeat] in Huf. cbn [split_fields] in Huf |- *.
  rewrite uuid_of_to_bytes by exact Hint. cbn [bind].
  rewrite Huf. cbn [bind]. rewrite Hun, Hue.
  unfold TokenPayload.init. rewrite validate_uuid4_Ok by exact Hver. reflexivity.
Qed.

(** *** Tokens *)

Definition token_ok (tok : Token.t) : Prop :=
  payload_ok (Token.payload tok)
  /\ 0 <= Token.kid tok < 2 ^ 32
  /\ length (Token.signature tok) = 64%nat.

Definition token_quantized (tok : Token.t) : Token.t :=
  {| Token.payload := quantized (Token.payload tok);
     Token.kid := Token.kid tok;
     Token.signature := Token.signature tok |}.



Lemma token_roundtrip (tok : Token.t) :
  0 < D -> token_ok tok ->
  exists data, Token.pack s tok = Ok data
               /\ length data = 108%nat
               /\ Token.unpack s (Token.Binary data) = Ok (token_quantized tok).
Proof.
  intros Hd (Hp & Hk & Hs).
  destruct (payload_roundtrip _ Hd Hp) as (pd & Hpack & Hlen & Hunpack).
  destruct (pack_I_Ok _ Hk) as [Hpk Huk].
  unfold Token.pack. rewrite Hpack. cbn [bind]. rewrite Hpk. cbn [bind].
  rewrite !pack_s_exact by assumption.
  eexists. split; [reflexivity |].
  assert (Hl : length (pd ++ int_to_bytes 4 (Token.kid tok) ++ Token.signature tok)
               = 108%nat).
  { rewrite !length_app, Hlen, length_int_to_bytes, Hs. reflexivity. }
  split; [exact Hl |].
  unfold Token.unpack. cbn [bind].
  rewrite unpack_fields_Ok by exact Hl. cbn [bind].
  rewrite split_fields_app by exact Hlen.
  rewrite split_fields_app by apply length_int_to_bytes.
  rewrite split_fields_last by exact Hs.
  rewrite Hunpack. cbn [bind]. rewrite Huk. reflexivity.
Qed.

(** The base64 text of a buffer unpacks as the buffer does. *)
Lemma token_unpack_text (data : bytes) :
  Token.unpack s (Token.Text (decode_utf8 (standard_b64encode data)))
  = Token.unpack s (Token.Binary data).
Proof.
  unfold Token.unpack. rewrite b64decode_str_b64encode. reflexivity.
Qed.

(** *** State updates *)

Lemma state_roundtrip (u : StateUpdate.t) :
  all_exact (StateUpdate.values u) ->
  exists data, StateUpdate.pack u = Ok data
               /\ length data = 28%nat
               /\ StateUpdate.unpack data = Ok u.
Proof.
  intros Hx. destruct (pack_floats_exact _ Hx) as (fs & Hpf & Hlf & Huf).
  exists fs. split; [exact Hpf |]. split; [exact Hlf |].
  unfold StateUpdate.unpack. rewrite unpack_fields_Ok by exact Hlf.
  cbn [bind]. cbn [StateUpdate.values length repeat] in Huf.
  rewrite Huf. cbn [bind StateUpdate.values]. destruct u. reflexivity.
Qed.

(** *** Messages *)

Definition message_ok (m : Message.t) : Prop :=
  token_ok (Message.token m)
  /\ 0 <= Message.kid m < 2 ^ 32
  /\ all_exact (StateUpdate.values (Message.payload m))
  /\ element_ok (Ibs.S1 (Message.signature m))
  /\ element_ok (Ibs.S2 (Message.signature m))
  /\ element_ok (Ibs.S3 (Message.signature m)).

Definition message_quantized (m : Message.t) : Message.t :=
  {| Message.token := token_quantized (Message.token m);
     Message.kid := Message.kid m;
     Message.payload := Message.payload m;
     Message.signature := Message.signature m |}.


Lemma message_roundtrip (m : Message.t) :
  0 < D -> message_ok m ->
  exists data, Message.pack s m = Ok data
               /\ length data = 203%nat
               /\ Message.unpack s data = Ok (message_quantized m).
Proof.
  intros Hd (Ht & Hk & Hx & H1 & H2 & H3).
  destruct (token_roundtrip _ Hd Ht) as (td & Htp & Htl & Htu).
  destruct (state_roundtrip _ Hx) as (sd & Hsp & Hsl & Hsu).
  destruct (pack_I_Ok _ Hk) as [Hpk Huk].
  destruct (element_roundtrip _ H1) as (r1 & Hr1 & Hl1 & Hu1).
  destruct (element_roundtrip _ H2) as (r2 & Hr2 & Hl2 & Hu2).
  destruct (element_roundtrip _ H3) as (r3 & Hr3 & Hl3 & Hu3).
  unfold Message.pack.
  rewrite Htp. cbn [bind]. rewrite Hsp. cbn [bind].
  rewrite Hr1. cbn [bind]. rewrite Hr2. cbn [bind]. rewrite Hr3. cbn [bind].
  rewrite Hpk. cbn [bind].
  rewrite (pack_s_exact 108) by exact Htl. rewrite (pack_s_exact 28) by exact Hsl.
  eexists. split; [reflexivity |].
  assert (Hl : length (td ++ int_to_bytes 4 (Message.kid m) ++ sd ++ pack_s 21 r1
                         ++ pack_s 21 r2 ++ pack_s 21 r3) = 203%nat).
  { rewrite !length_app, Htl, length_int_to_bytes, Hsl, Hl1, Hl2, Hl3. reflexivity. }
  split; [exact Hl |].
  unfold Message.unpack. rewrite unpack_fields_Ok by exact Hl. cbn [bind].
  rewrite split_fields_app by exact Htl.
  rewrite split_fields_app by apply length_int_to_bytes.
  rewrite split_fields_app by exact Hsl.
  rewrite split_fields_app by exact Hl1.
  rewrite split_fields_app by exact Hl2.
  rewrite split_fields_last by exact Hl3.
  rewrite Htu. cbn [bind]. rewrite Hsu. cbn [bind].
  rewrite Hu1. cbn [bind]. rewrite Hu2. cbn [bind]. rewrite Hu3. cbn [bind].
  rewrite Huk. unfold message_quantized.
  destruct (Message.signature m). reflexivity.
Qed.


End WithSettings.

(** *** The values of the test suite *)




Ltac exact_float :=
  eexists; split; [vm_compute; reflexivity | vm_compute; reflexivity].







(** Other values that the wire does not carry: a time before
    [MIN_DATETIME] cannot be packed, and an off-tick nbf comes back at its
    floor tick. *)
Example pack_before_min :
  TokenPayload.pack settings
    {| TokenPayload.gufi := IssuanceFacts.a_gufi;
       TokenPayload.nbf := MIN_DATETIME settings - TIME_RESOLUTION settings;
       TokenPayload.exp := MIN_DATETIME settings;
       TokenPayload.bbox := (-40, 30, -30, 40)%Q |}
  = Raise (ValueError "datetimes must be no earlier than {MIN_DATETIME}").
Proof. reflexivity. Qed.

End CodecFacts.

(** ** The queues between the link and the application *)

Module QueueFacts.

Import Application.

(** A queue within its capacity; a queue without capacity has nothing to
    keep. *)
Definition within_capacity {A : Type} (q : Queue.t A) : Prop :=
  0 < Queue.maxsize q -> Queue.qsize q <= Queue.maxsize q.

Lemma qsize_snoc {A : Type} (m : Z) (l : list A) (x : A) :
  Queue.qsize {| Queue.maxsize := m; Queue.items := l ++ [x] |}
  = Queue.qsize {| Queue.maxsize := m; Queue.items := l |} + 1.
Proof. unfold Queue.qsize. cbn [Queue.items]. rewrite length_app. simpl. lia. Qed.

Lemma full_unbounded {A : Type} (q : Queue.t A) :
  Queue.maxsize q <= 0 -> Queue.full q = false.
Proof.
  intros H. unfold Queue.full. destruct (Z.leb_spec (Queue.maxsize q) 0); [reflexivity | lia].
Qed.

Lemma full_bounded {A : Type} (q : Queue.t A) :
  0 < Queue.maxsize q ->
  Queue.full q = true <-> Queue.maxsize q <= Queue.qsize q.
Proof.
  intros H. unfold Queue.full.
  destruct (Z.leb_spec (Queue.maxsize q) 0); [lia |]. apply Z.leb_le.
Qed.

Lemma put_nowait_cases {A : Type} (q : Queue.t A) (x : A) :
  (Queue.full q = true /\ Queue.put_nowait q x = Raise QueueFull)
  \/ (Queue.full q = false
      /\ Queue.put_nowait q x
         = Ok {| Queue.maxsize := Queue.maxsize q; Queue.items := Queue.items q ++ [x] |}).
Proof. unfold Queue.put_nowait. destruct (Queue.full q); [left | right]; split; reflexivity. Qed.

(** The datagrams that arrive at the link, each with the time of its arrival
    and the address of its sender. *)
Definition datagram : Type := datetime * bytes * string.

Definition deliver (w : World) (d : datagram) : World :=
  let '(tomr, data, addr) := d in fst (Link.datagram_received tomr data addr w).

Definition deliver_all (w : World) (ds : list datagram) : World :=
  fold_left deliver ds w.

Definition is_critical (e : Log.entry) : bool :=
  match fst e with
  | Log.CRITICAL => true
  | _ => false
  end.

(** The messages that the log reports as dropped. *)
Definition drops (w : World) : list Log.entry := List.filter is_critical (log w).

Lemma deliver_unbounded (w : World) (d : datagram) :
  Queue.maxsize (receive_queue w) <= 0 ->
  let w' := deliver w d in
  Queue.maxsize (receive_queue w') = Queue.maxsize (receive_queue w)
  /\ Queue.items (receive_queue w') = Queue.items (receive_queue w) ++ [fst d]
  /\ transmit_queue w' = transmit_queue w
  /\ drops w' = drops w.
Proof.
  intros Hm. destruct d as [[tomr data] addr]. unfold deliver, Link.datagram_received.
  cbv zeta. unfold Queue.put_nowait.
  rewrite full_unbounded by exact Hm.
  cbn [fst receive_queue transmit_queue set_receive_queue logger Queue.maxsize
       Queue.items log].
  repeat split. unfold drops. cbn [log logger set_receive_queue].
  rewrite List.filter_app. cbn [List.filter is_critical fst]. apply app_nil_r.
Qed.

Lemma deliver_all_unbounded (ds : list datagram) (w : World) :
  Queue.maxsize (receive_queue w) <= 0 ->
  let w' := deliver_all w ds in
  Queue.maxsize (receive_queue w') = Queue.maxsize (receive_queue w)
  /\ Queue.items (receive_queue w') = Queue.items (receive_queue w) ++ map fst ds
  /\ transmit_queue w' = transmit_queue w
  /\ drops w' = drops w.
Proof.
  induction ds as [| d rest IH] in w |- *; intros Hm; cbv zeta.
  - cbn [deliver_all fold_left map]. rewrite app_nil_r. repeat split.
  - destruct (deliver_unbounded w d Hm) as (H1 & H2 & H3 & H4).
    unfold deliver_all. cbn [fold_left]. fold (deliver_all (deliver w d) rest).
    destruct (IH (deliver w d) ltac:(rewrite H1; exact Hm)) as (I1 & I2 & I3 & I4).
    rewrite I1, I2, I3, I4, H1, H2, H3, H4. cbn [map].
    rewrite <- app_assoc. repeat split.
Qed.

(** C9, evaluated on the code.  The queues that [start] builds have no
    capacity: whatever datagrams arrive while the application consumes
    nothing, the receive queue holds every one of them in the order of
    arrival, it is never full, and nothing is dropped or reported. *)
Theorem start_receive_queue_unbounded (ds : list datagram) :
  let w := deliver_all Transceiver.start ds in
  Queue.items (receive_queue w) = map fst ds
  /\ Queue.qsize (receive_queue w) = Z.of_nat (length ds)
  /\ Queue.full (receive_queue w) = false
  /\ Queue.full (transmit_queue w) = false
  /\ drops w = [].
Proof.
  cbv zeta.
  assert (Hm : Queue.maxsize (receive_queue Transceiver.start) <= 0)
    by (vm_compute; discriminate).
  destruct (deliver_all_unbounded ds Transceiver.start Hm) as (H1 & H2 & H3 & H4).
  cbn [Transceiver.start receive_queue Queue.new Queue.items app] in H2.
  split; [exact H2 |].
  split; [unfold Queue.qsize; rewrite H2, length_map; reflexivity |].
  split; [apply full_unbounded; rewrite H1; exact Hm |].
  split; [rewrite H3; reflexivity | rewrite H4; reflexivity].
Qed.

(** [datagram_received] on any world: it never lets an exception escape and
    never touches the transmit queue; on a full receive queue the datagram is
    dropped, the queue is as before and the drop is reported at level
    CRITICAL; otherwise the datagram is put at the tail.  A queue within its
    capacity stays within it. *)
Theorem datagram_received_spec (tomr : datetime) (data : bytes) (addr : string)
    (w : World) :
  let '(w', raised) := Link.datagram_received tomr data addr w in
  raised = None
  /\ transmit_queue w' = transmit_queue w
  /\ Queue.maxsize (receive_queue w') = Queue.maxsize (receive_queue w)
  /\ (if Queue.full (receive_queue w)
      then receive_queue w' = receive_queue w /\ drops w' = drops w ++ [
             (Log.CRITICAL,
              ("receive queue full - message from " ++ addr ++ " dropped")%string)]
      else Queue.items (receive_queue w') = Queue.items (receive_queue w) ++ [(tomr, data)]
           /\ drops w' = drops w)
  /\ (within_capacity (receive_queue w) -> within_capacity (receive_queue w')).
Proof.
  unfold Link.datagram_received. cbv zeta.
  cbn [receive_queue logger].
  destruct (put_nowait_cases (receive_queue w) (tomr, data)) as [[Hf ->] | [Hf ->]];
    rewrite Hf;
    cbn [receive_queue transmit_queue set_receive_queue logger log Queue.maxsize
         Queue.items].
  - split; [reflexivity |]. split; [reflexivity |]. split; [reflexivity |].
    split; [| intros H; exact H].
    split; [reflexivity |]. unfold drops. cbn [log logger].
    rewrite !List.filter_app. cbn [List.filter is_critical fst].
    rewrite app_nil_r. reflexivity.
  - split; [reflexivity |]. split; [reflexivity |]. split; [reflexivity |].
    split.
    + split; [reflexivity |]. unfold drops. cbn [log logger set_receive_queue].
      rewrite List.filter_app. cbn [List.filter is_critical fst]. apply app_nil_r.
    + unfold within_capacity. cbn [Queue.maxsize]. intros Hin Hpos.
      rewrite qsize_snoc.
      destruct (Z.le_gt_cases (Queue.maxsize (receive_queue w))
                  (Queue.qsize (receive_queue w))) as [Hle | Hgt].
      * apply (full_bounded _ Hpos) in Hle. congruence.
      * unfold Queue.qsize in *. cbn [Queue.items]. lia.
Qed.

End QueueFacts.

(** ** The random navigation source *)

Module NavFacts.

Import BBoxFacts.

Local Open Scope Q_scope.

(** A value that [random()] may return lies in the interval from 0 to 1. *)
Definition unit_interval (r : Q) : Prop := 0 <= r <= 1.

Lemma uniform_between (a b r : Q) :
  a <= b -> unit_interval r ->
  a <= NavSrc.uniform a b r /\ NavSrc.uniform a b r <= b.
Proof. unfold NavSrc.uniform, unit_interval. intros Hab [H0 H1]. split; nra. Qed.

Lemma uniform_between_reversed (a b r : Q) :
  b < a -> 0 < r -> r < 1 ->
  b < NavSrc.uniform a b r /\ NavSrc.uniform a b r < a.
Proof. unfold NavSrc.uniform. intros Hab H0 H1. split; nra. Qed.

(** The location of a state. *)
Definition location (u : StateUpdate.t) : Point :=
  (StateUpdate.lon_deg u, StateUpdate.lat_deg u).

(** A box whose corners are in range and whose south is not above its
    north. *)
Definition well_formed (bbox : BBox) : Prop :=
  let '(west, south, east, north) := bbox in
  (lon_in_range west /\ lat_in_range south)
  /\ (lon_in_range east /\ lat_in_range north)
  /\ south <= north.

Lemma bbox_includes_in_range (west south east north lon lat : Q) :
  in_range (west, south, east, north) (lon, lat) ->
  bbox_includes (west, south, east, north) (lon, lat)
  = Ok (decision (west, south, east, north) (lon, lat)).
Proof.
  intros H. rewrite bbox_includes_unfold.
  apply in_range_Forall, check_all_ok in H. rewrite H. reflexivity.
Qed.

(** A state drawn for a box that does not cross the antimeridian lies in the
    box, and its altitude and velocities lie in the ranges of the draw. *)
Theorem get_state_inside (west south east north : Q) (rnd : nat -> Q)
    (utcoffset : timedelta) (toa : datetime) :
  let bbox := (west, south, east, north) in
  let u := NavSrc.get_state bbox rnd utcoffset toa in
  well_formed bbox -> west <= east -> (forall i, unit_interval (rnd i)) ->
  bbox_includes bbox (location u) = Ok true
  /\ (0 <= StateUpdate.alt_hae_ft u <= 10000)
  /\ (-250 <= StateUpdate.vel_ew_fps u <= 250)
  /\ (-250 <= StateUpdate.vel_ns_fps u <= 250)
  /\ (-50 <= StateUpdate.vel_vert_fps u <= 50).
Proof.
  cbv zeta. intros ((Hw & Hs) & (He & Hn) & Hsn) Hwe Hrnd.
  unfold location, NavSrc.get_state.
  cbn [StateUpdate.lon_deg StateUpdate.lat_deg StateUpdate.alt_hae_ft
       StateUpdate.vel_ew_fps StateUpdate.vel_ns_fps StateUpdate.vel_vert_fps].
  destruct (uniform_between south north (rnd 0%nat) Hsn (Hrnd 0%nat)) as [Hlat1 Hlat2].
  destruct (uniform_between west east (rnd 1%nat) Hwe (Hrnd 1%nat)) as [Hlon1 Hlon2].
  unfold lon_in_range, lat_in_range in *.
  split.
  - rewrite bbox_includes_in_range.
    + f_equal. apply bbox_decision. unfold contains.
      split; [split; assumption |].
      split; [| intros _; split; assumption].
      intros Hlt. exfalso. exact (Qlt_not_le _ _ Hlt Hwe).
    + unfold in_range, lon_in_range, lat_in_range.
      repeat split; try tauto; lra.
  - repeat split;
      match goal with
      | |- context [NavSrc.uniform ?a ?b ?r] =>
          apply (uniform_between a b r); [lra | apply Hrnd]
      end.
Qed.

(** A state drawn for a box that crosses the antimeridian (east < west) has
    its longitude strictly between east and west, which is outside the
    box. *)
Theorem get_state_outside_crossing (west south east north : Q) (rnd : nat -> Q)
    (utcoffset : timedelta) (toa : datetime) :
  let bbox := (west, south, east, north) in
  let u := NavSrc.get_state bbox rnd utcoffset toa in
  well_formed bbox -> east < west -> unit_interval (rnd 0%nat) ->
  0 < rnd 1%nat -> rnd 1%nat < 1 ->
  bbox_includes bbox (location u) = Ok false.
Proof.
  cbv zeta. intros ((Hw & Hs) & (He & Hn) & Hsn) Hew Hr0 Hr1 Hr1'.
  unfold location, NavSrc.get_state.
  cbn [StateUpdate.lon_deg StateUpdate.lat_deg].
  destruct (uniform_between south north (rnd 0%nat) Hsn Hr0) as [Hlat1 Hlat2].
  destruct (uniform_between_reversed west east (rnd 1%nat) Hew Hr1 Hr1')
    as [Hlon1 Hlon2].
  unfold lon_in_range, lat_in_range in *.
  rewrite bbox_includes_in_range.
  - f_equal. apply not_true_is_false. rewrite bbox_decision. unfold contains.
    intros (_ & Hyes & _). destruct (Hyes Hew) as [H | H].
    + exact (Qlt_not_le _ _ Hlon2 H).
    + exact (Qlt_not_le _ _ Hlon1 H).
  - unfold in_range, lon_in_range, lat_in_range.
    repeat split; try tauto; lra.
Qed.

Definition a_half (_ : nat) : Q := 1 # 2.

Lemma get_state_inside_witness :
  let bbox := (-40, 30, -30, 40) in
  let u := NavSrc.get_state bbox a_half 0%Z EpochFacts.midnight in
  well_formed bbox
  /\ bbox_includes bbox (location u) = Ok true
  /\ (0 <= StateUpdate.alt_hae_ft u <= 10000)
  /\ (-250 <= StateUpdate.vel_ew_fps u <= 250)
  /\ (-250 <= StateUpdate.vel_ns_fps u <= 250)
  /\ (-50 <= StateUpdate.vel_vert_fps u <= 50).
Proof.
  cbv zeta.
  assert (Hwf : well_formed (-40, 30, -30, 40)).
  { unfold well_formed, lon_in_range, lat_in_range. repeat split; discriminate. }
  split; [exact Hwf |].
  apply (get_state_inside (-40) 30 (-30) 40 a_half 0%Z EpochFacts.midnight Hwf).
  - discriminate.
  - intros i. unfold unit_interval, a_half. split; discriminate.
Defined.

Lemma get_state_outside_crossing_witness :
  let bbox := (170, -10, -170, 10) in
  well_formed bbox
  /\ bbox_includes bbox
       (location (NavSrc.get_state bbox a_half 0%Z EpochFacts.midnight))
     = Ok false.
Proof.
  cbv zeta.
  assert (Hwf : well_formed (170, -10, -170, 10)).
  { unfold well_formed, lon_in_range, lat_in_range. repeat split; discriminate. }
  split; [exact Hwf |].
  apply (get_state_outside_crossing 170 (-10) (-170) 10 a_half 0%Z
           EpochFacts.midnight Hwf).
  - reflexivity.
  - unfold unit_interval, a_half. split; discriminate.
  - reflexivity.
  - reflexivity.
Defined.

End NavFacts.

(** ** The receive handlers *)

Module ReceiveFacts.

Import Application.

(** *** A vehicle authorized for a box across the antimeridian *)

Definition a_crossing_request : Api.AuthorizationRequest := {|
  Api.gufi := IssuanceFacts.a_gufi;
  Api.nbf := EpochFacts.midnight + minutes 1;
  Api.exp := IssuanceFacts.ten_minutes_on;
  Api.bbox := (170, -10, -170, 10)%Q
|}.

Definition crossing_tokens : list Token.t :=
  match Authority.generate_authorization settings (ed := Toy.ed25519)
          (ws := Toy.waters) IssuanceFacts.ready_db EpochFacts.midnight
          a_crossing_request "jane doe" with
  | Ok a =>
      Fixture.oks
        (map (fun t => Token.unpack settings (Token.Binary (Database.value t)))
           (Database.tokens a))
  | Raise _ => []
  end.

(** The vehicle at the antimeridian, on the equator. *)
Definition a_crossing_state : StateUpdate.t := {|
  StateUpdate.lat_deg := 0;
  StateUpdate.lon_deg := 180;
  StateUpdate.alt_hae_ft := 1000;
  StateUpdate.vel_ew_fps := 100;
  StateUpdate.vel_ns_fps := -50;
  StateUpdate.vel_vert_fps := 0;
  StateUpdate.toa_utc := 1577836800
|}.

Definition a_crossing_datagram : bytes :=
  Fixture.result_get []
    (msg <- Application.assemble_msg (ws := Toy.waters) Fixture.the_signing_keys
              crossing_tokens a_crossing_state Fixture.two_past Fixture.two_past ;;
     Message.pack settings msg).

Definition a_blackhat : BlackHat := {|
  bh_token_keys := Fixture.the_token_keys;
  bh_message_keys := Fixture.the_message_keys
|}.

(** C10, evaluated on the code.  The black hat receives the broadcast of a
    vehicle whose token covers the box (170, -10, -170, 10); the message
    validates at the location of its own payload, (180, 0).  With the draws
    of [random()] at one half, the state that replaces the payload is at
    longitude 0: the replayed message is queued for transmission with a
    location that the box of its token does not include. *)
Theorem blackhat_replay_outside_bbox :
  exists (msg replayed : Message.t) (packed : bytes) (w : World),
    Message.unpack settings a_crossing_datagram = Ok msg
    /\ NavFacts.location (Message.payload msg) = (180, 0)%Q
    /\ TokenPayload.bbox (Token.payload (Message.token msg)) = (170, -10, -170, 10)%Q
    /\ validate_msg settings (ed := Toy.ed25519) (ws := Toy.waters)
         (bh_message_keys a_blackhat) (bh_token_keys a_blackhat) msg
         Fixture.two_past (180, 0)%Q = Ok tt
    /\ blackhat_receive settings (ed := Toy.ed25519) (ws := Toy.waters) a_blackhat
         NavFacts.a_half 0 Fixture.two_past
         a_crossing_datagram Transceiver.start = (w, None)
    /\ Queue.items (transmit_queue w) = [packed]
    /\ Message.unpack settings packed = Ok replayed
    /\ Message.token replayed = Message.token msg
    /\ (StateUpdate.lon_deg (Message.payload replayed) == 0)%Q
    /\ bbox_includes (TokenPayload.bbox (Token.payload (Message.token replayed)))
         (NavFacts.location (Message.payload replayed)) = Ok false.
Proof.
  eexists _, _, _, _.
  split; [vm_compute; reflexivity |].
  split; [vm_compute; reflexivity |].
  split; [vm_compute; reflexivity |].
  split; [vm_compute; reflexivity |].
  split; [vm_compute; reflexivity |].
  split; [vm_compute; reflexivity |].
  split; [vm_compute; reflexivity |].
  split; [vm_compute; reflexivity |].
  split; vm_compute; reflexivity.
Qed.

End ReceiveFacts.

(** ** The producer: choosing credentials and assembling a message *)

Module ProducerFacts.

Import Application.

(** The first element of a list that passes a test, with what comes before
    it. *)
Definition first_passing {A : Type} (ok : A -> Prop) (l : list A) (x : A) : Prop :=
  exists before after,
    l = before ++ x :: after /\ ok x /\ Forall (fun y => ~ ok y) before.

Lemma first_passing_here {A : Type} (ok : A -> Prop) (x : A) (rest : list A) :
  ok x -> forall y, first_passing ok (x :: rest) y <-> y = x.
Proof.
  intros Hx y. split.
  - intros ([| b before] & after & Heq & Hy & Hbefore).
    + injection Heq as <- _. reflexivity.
    + injection Heq as <- _. inversion Hbefore; contradiction.
  - intros ->. exists [], rest. split; [reflexivity |]. split; [exact Hx | constructor].
Qed.

Lemma first_passing_later {A : Type} (ok : A -> Prop) (x : A) (rest : list A) :
  ~ ok x -> forall y, first_passing ok (x :: rest) y <-> first_passing ok rest y.
Proof.
  intros Hx y. split.
  - intros ([| b before] & after & Heq & Hy & Hbefore).
    + injection Heq as -> _. contradiction.
    + injection Heq as <- ->. inversion Hbefore; subst.
      exists before, after. split; [reflexivity |]. split; assumption.
  - intros (before & after & -> & Hy & Hbefore).
    exists (x :: before), after. split; [reflexivity |].
    split; [exact Hy | constructor; assumption].
Qed.

(** A token or a key that is live at an instant: the window is open at both
    ends. *)
Definition token_live (now : datetime) (tok : Token.t) : Prop :=
  TokenPayload.nbf (Token.payload tok) < now < TokenPayload.exp (Token.payload tok).

Definition key_live (now : datetime) (key : SigningKey.t) : Prop :=
  SigningKey.nbf key < now < SigningKey.exp key.

Lemma token_live_test (now : datetime) (tok : Token.t) :
  (TokenPayload.exp (Token.payload tok) >? now)
  && (TokenPayload.nbf (Token.payload tok) <? now) = true
  <-> token_live now tok.
Proof. unfold token_live. rewrite andb_true_iff, Z.gtb_lt, Z.ltb_lt. lia. Qed.

Lemma key_live_test (now : datetime) (key : SigningKey.t) :
  (SigningKey.exp key >? now) && (SigningKey.nbf key <? now) = true
  <-> key_live now key.
Proof. unfold key_live. rewrite andb_true_iff, Z.gtb_lt, Z.ltb_lt. lia. Qed.

Lemma first_passing_unique {A : Type} (ok : A -> Prop) (l : list A) (x y : A) :
  first_passing ok l x -> first_passing ok l y -> x = y.
Proof.
  induction l as [| a rest IH]; intros Hx Hy.
  - destruct Hx as ([| b before] & after & Heq & _); discriminate Heq.
  - destruct Hx as ([| b before] & after & Heq & Hokx & Hbefore).
    + injection Heq as <- _. apply (proj1 (first_passing_here ok a rest Hokx y)) in Hy.
      symmetry. exact Hy.
    + cbn [app] in Heq. injection Heq as Hab Hrest_eq. subst b rest.
      inversion Hbefore as [| ? ? Hdead Hrest]; subst.
      apply (proj1 (first_passing_later ok a _ Hdead y)) in Hy.
      apply IH; [| exact Hy].
      exists before, after. split; [reflexivity |]. split; assumption.
Qed.

Lemma first_passing_not_all_fail {A : Type} (ok : A -> Prop) (l : list A) (x : A) :
  first_passing ok l x -> ~ Forall (fun y => ~ ok y) l.
Proof.
  intros (before & after & -> & Hx & _) Hall.
  apply Forall_app in Hall as [_ Hall]. inversion Hall; contradiction.
Qed.

(** The loop of [choose_token], by its two exits. *)
Lemma choose_token_cases (tokens : list Token.t) (now : datetime) :
  match choose_token tokens now with
  | Ok tok => first_passing (token_live now) tokens tok
  | Raise e =>
      e = ValueError "no valid token found in loadset"
      /\ Forall (fun tok => ~ token_live now tok) tokens
  end.
Proof.
  induction tokens as [| t rest IH]; cbn [choose_token].
  - split; [reflexivity | constructor].
  - destruct (_ && _) eqn:Htest.
    + apply token_live_test in Htest.
      apply (first_passing_here _ _ _ Htest). reflexivity.
    + assert (Hdead : ~ token_live now t).
      { rewrite <- token_live_test, Htest. discriminate. }
      destruct (choose_token rest now) as [tok | e].
      * apply (first_passing_later _ _ _ Hdead). exact IH.
      * destruct IH as [-> Hall]. split; [reflexivity | constructor; assumption].
Qed.

Lemma choose_signing_key_cases (keys : list SigningKey.t) (now : datetime) :
  match choose_signing_key keys now with
  | Ok key => first_passing (key_live now) keys key
  | Raise e =>
      e = ValueError "no valid signing key found in loadset"
      /\ Forall (fun key => ~ key_live now key) keys
  end.
Proof.
  induction keys as [| k rest IH]; cbn [choose_signing_key].
  - split; [reflexivity | constructor].
  - destruct (_ && _) eqn:Htest.
    + apply key_live_test in Htest.
      apply (first_passing_here _ _ _ Htest). reflexivity.
    + assert (Hdead : ~ key_live now k).
      { rewrite <- key_live_test, Htest. discriminate. }
      destruct (choose_signing_key rest now) as [key | e].
      * apply (first_passing_later _ _ _ Hdead). exact IH.
      * destruct IH as [-> Hall]. split; [reflexivity | constructor; assumption].
Qed.

(** [choose_token] returns the first token of the load set that is live at
    the instant it reads the clock, and raises its [ValueError] exactly when
    no token is live. *)
Theorem choose_token_spec (tokens : list Token.t) (now : datetime) :
  (forall tok, choose_token tokens now = Ok tok
               <-> first_passing (token_live now) tokens tok)
  /\ (raises (choose_token tokens now)
      <-> Forall (fun tok => ~ token_live now tok) tokens)
  /\ (forall e, choose_token tokens now = Raise e ->
        e = ValueError "no valid token found in loadset").
Proof.
  pose proof (choose_token_cases tokens now) as Hcases.
  destruct (choose_token tokens now) as [found | e].
  - split; [| split].
    + intros tok. split.
      * intros [= <-]. exact Hcases.
      * intros Htok. f_equal. exact (first_passing_unique _ _ _ _ Hcases Htok).
    + split; [intros [e He]; discriminate He |].
      intros Hall. exfalso. exact (first_passing_not_all_fail _ _ _ Hcases Hall).
    + discriminate.
  - destruct Hcases as [-> Hall]. split; [| split].
    + intros tok. split; [discriminate |].
      intros Htok. exfalso. exact (first_passing_not_all_fail _ _ _ Htok Hall).
    + split; [intros _; exact Hall | intros _; eexists; reflexivity].
    + intros e [= <-]. reflexivity.
Qed.

(** [choose_signing_key] likewise, over the signing keys. *)
Theorem choose_signing_key_spec (keys : list SigningKey.t) (now : datetime) :
  (forall key, choose_signing_key keys now = Ok key
               <-> first_passing (key_live now) keys key)
  /\ (raises (choose_signing_key keys now)
      <-> Forall (fun key => ~ key_live now key) keys)
  /\ (forall e, choose_signing_key keys now = Raise e ->
        e = ValueError "no valid signing key found in loadset").
Proof.
  pose proof (choose_signing_key_cases keys now) as Hcases.
  destruct (choose_signing_key keys now) as [found | e].
  - split; [| split].
    + intros key. split.
      * intros [= <-]. exact Hcases.
      * intros Hkey. f_equal. exact (first_passing_unique _ _ _ _ Hcases Hkey).
    + split; [intros [e He]; discriminate He |].
      intros Hall. exfalso. exact (first_passing_not_all_fail _ _ _ Hcases Hall).
    + discriminate.
  - destruct Hcases as [-> Hall]. split; [| split].
    + intros key. split; [discriminate |].
      intros Hkey. exfalso. exact (first_passing_not_all_fail _ _ _ Hkey Hall).
    + split; [intros _; exact Hall | intros _; eexists; reflexivity].
    + intros e [= <-]. reflexivity.
Qed.

Section WithLibs.

Variable s : Settings.
Context {ed : Pks.Ed25519} {ws : Ibs.WatersSig}.

(** [assemble_msg] returns exactly the message that carries the payload it
    was given, the first live token, the kid of the first live signing key,
    and the identity-based signature of the packed payload under that key.
    The key is chosen first: without a live key the error is the key's,
    whatever the tokens; with a live key and no live token it is the
    token's. *)
Theorem assemble_msg_spec (keys : list SigningKey.t) (tokens : list Token.t)
    (payload : StateUpdate.t) (now_key now_token : datetime) :
  let r := assemble_msg keys tokens payload now_key now_token in
  (forall msg,
     r = Ok msg
     <-> exists key packed,
           first_passing (key_live now_key) keys key
           /\ first_passing (token_live now_token) tokens (Message.token msg)
           /\ StateUpdate.pack payload = Ok packed
           /\ Message.payload msg = payload
           /\ Message.kid msg = SigningKey.kid key
           /\ Message.signature msg = Ibs.sign packed (SigningKey.key_group key))
  /\ (Forall (fun key => ~ key_live now_key key) keys ->
        r = Raise (ValueError "no valid signing key found in loadset"))
  /\ (forall key, first_passing (key_live now_key) keys key ->
        Forall (fun tok => ~ token_live now_token tok) tokens ->
        r = Raise (ValueError "no valid token found in loadset")).
Proof.
  cbv zeta. unfold assemble_msg.
  pose proof (choose_signing_key_cases keys now_key) as Hkey.
  pose proof (choose_token_cases tokens now_token) as Htok.
  destruct (choose_signing_key keys now_key) as [key | e]; cbn [bind].
  - destruct (choose_token tokens now_token) as [tok | e]; cbn [bind].
    + split; [| split].
      * intros msg. destruct (StateUpdate.pack payload) as [packed | e]; cbn [bind].
        -- split.
           ++ intros [= <-]. exists key, packed. cbn. repeat split; assumption.
           ++ intros (key' & packed' & Hk & Ht & [= <-] & Hp & Hkid & Hsig).
              rewrite (first_passing_unique _ _ _ _ Hk Hkey) in Hkid, Hsig.
              pose proof (first_passing_unique _ _ _ _ Htok Ht) as Heq.
              destruct msg. cbn in *. subst. reflexivity.
        -- split; [discriminate |].
           intros (key' & packed' & _ & _ & Hpack & _). discriminate Hpack.
      * intros Hdead. exfalso. exact (first_passing_not_all_fail _ _ _ Hkey Hdead).
      * intros key' _ Hdead. exfalso.
        exact (first_passing_not_all_fail _ _ _ Htok Hdead).
    + destruct Htok as [-> Hall]. split; [| split].
      * intros msg. split; [discriminate |].
        intros (key' & packed' & _ & Ht & _). exfalso.
        exact (first_passing_not_all_fail _ _ _ Ht Hall).
      * intros Hdead. exfalso. exact (first_passing_not_all_fail _ _ _ Hkey Hdead).
      * reflexivity.
  - destruct Hkey as [-> Hall]. split; [| split].
    + intros msg. split; [discriminate |].
      intros (key' & packed' & Hk & _). exfalso.
      exact (first_passing_not_all_fail _ _ _ Hk Hall).
    + reflexivity.
    + intros key' Hk. exfalso. exact (first_passing_not_all_fail _ _ _ Hk Hall).
Qed.

Lemma report_slipping_frame (self : Baseline) (delta : Q) (w : World) :
  receive_queue (report_slipping self delta w) = receive_queue w
  /\ transmit_queue (report_slipping self delta w) = transmit_queue w
  /\ log (report_slipping self delta w)
     = log w ++ (if Qle_bool (total_seconds (broadcast_period self)) delta
                 then [(Log.CRITICAL, "squitter producer slipping!"%string)]
                 else []).
Proof.
  unfold report_slipping. cbv zeta.
  set (remaining := (total_seconds (broadcast_period self) - delta)%Q).
  assert (Hle : Qle_bool remaining 0
                = Qle_bool (total_seconds (broadcast_period self)) delta).
  { apply eq_true_iff_eq. rewrite !Qle_bool_iff. unfold remaining. split; intros H; lra. }
  rewrite <- Hle.
  destruct (Qle_bool remaining 0) eqn:Hrem.
  - change (Qeq_bool 0 0) with true. cbv iota. repeat split.
  - assert (Hne : Qeq_bool remaining 0 = false).
    { apply not_true_iff_false. intros Heq. apply Qeq_bool_iff in Heq.
      apply not_true_iff_false in Hrem. apply Hrem. apply Qle_bool_iff.
      rewrite Heq. apply Qle_refl. }
    rewrite Hne. repeat split. symmetry. apply app_nil_r.
Qed.

(** One turn of the producer.  It leaves the receive queue alone and keeps
    the transmit queue within its capacity.  When a message is assembled and
    packed the turn ends without an exception: on a full transmit queue the
    message is dropped, the queue is as before and the drop is reported at
    level CRITICAL; otherwise the packed message is put at the tail.  A turn
    that has taken the broadcast period or longer is reported as slipping,
    at level CRITICAL, after that. *)
Theorem produce_step_spec (self : Baseline) (toa now_key now_token : datetime)
    (delta : Q) (w : World) :
  let '(w', raised) := produce_step s self toa now_key now_token delta w in
  receive_queue w' = receive_queue w
  /\ Queue.maxsize (transmit_queue w') = Queue.maxsize (transmit_queue w)
  /\ (QueueFacts.within_capacity (transmit_queue w) ->
      QueueFacts.within_capacity (transmit_queue w'))
  /\ (forall squitter packed,
        assemble_msg (signing_keys self) (tokens self) (nav_src self toa)
          now_key now_token = Ok squitter ->
        Message.pack s squitter = Ok packed ->
        raised = None
        /\ (if Queue.full (transmit_queue w)
            then transmit_queue w' = transmit_queue w
            else Queue.items (transmit_queue w')
                 = Queue.items (transmit_queue w) ++ [packed])
        /\ log w'
           = log w
               ++ (if Queue.full (transmit_queue w)
                   then [(Log.CRITICAL, "transmit queue full - message dropped"%string)]
                   else [])
               ++ (if Qle_bool (total_seconds (broadcast_period self)) delta
                   then [(Log.CRITICAL, "squitter producer slipping!"%string)]
                   else [])).
Proof.
  unfold produce_step. cbv zeta.
  destruct (assemble_msg _ _ _ _ _) as [squitter | e].
  2: { split; [reflexivity |]. split; [reflexivity |].
       split; [intros H; exact H | intros ? ? Hno; discriminate Hno]. }
  destruct (Message.pack s squitter) as [packed | e] eqn:Hpack.
  2: { split; [reflexivity |]. split; [reflexivity |].
       split; [intros H; exact H | intros ? ? [= <-] Hno; rewrite Hpack in Hno; discriminate Hno]. }
  destruct (QueueFacts.put_nowait_cases (transmit_queue w) packed) as [[Hf ->] | [Hf ->]];
    rewrite Hf.
  - destruct (report_slipping_frame self delta
                (logger Log.CRITICAL "transmit queue full - message dropped" w))
      as (Hr & Ht & Hl).
    rewrite Hr, Ht, Hl. cbn [receive_queue transmit_queue logger log].
    split; [reflexivity |]. split; [reflexivity |]. split; [intros H; exact H |].
    intros sq pk [= <-] Hp. rewrite Hpack in Hp. injection Hp as <-.
    split; [reflexivity |]. split; [reflexivity |]. rewrite <- app_assoc. reflexivity.
  - set (q := {| Queue.maxsize := Queue.maxsize (transmit_queue w);
                 Queue.items := Queue.items (transmit_queue w) ++ [packed] |}).
    destruct (report_slipping_frame self delta (set_transmit_queue q w))
      as (Hr & Ht & Hl).
    rewrite Hr, Ht, Hl. unfold q.
    cbn [receive_queue transmit_queue set_transmit_queue log Queue.maxsize Queue.items].
    split; [reflexivity |]. split; [reflexivity |]. split.
    + unfold QueueFacts.within_capacity. cbn [Queue.maxsize]. intros Hin Hpos.
      rewrite QueueFacts.qsize_snoc.
      destruct (Z.le_gt_cases (Queue.maxsize (transmit_queue w))
                  (Queue.qsize (transmit_queue w))) as [Hle | Hgt].
      * apply (QueueFacts.full_bounded _ Hpos) in Hle. congruence.
      * unfold Queue.qsize in *. cbn [Queue.items]. lia.
    + intros sq pk [= <-] Hp. rewrite Hpack in Hp. injection Hp as <-.
      split; [reflexivity |]. split; reflexivity.
Qed.

End WithLibs.

End ProducerFacts.

(** ** The receive handlers, on every input *)

Module HandlerFacts.

Import Application.

Section WithLibs.

Variable s : Settings.
Context {ed : Pks.Ed25519} {ws : Ibs.WatersSig}.

(** The message that the black hat sends back: the received one with a
    state drawn for the box of its token in place of its payload. *)
Definition replay (msg : Message.t) (rnd : nat -> Q) (utcoffset : timedelta)
    : Message.t :=
  {| Message.token := Message.token msg;
     Message.kid := Message.kid msg;
     Message.payload :=
       NavSrc.get_state (TokenPayload.bbox (Token.payload (Message.token msg))) rnd
         utcoffset (NavSrc.utcfromtimestamp (StateUpdate.toa_utc (Message.payload msg)));
     Message.signature := Message.signature msg |}.

(** [BlackHat.receive] on every input.  The receive queue is never touched.
    The transmit queue changes only when the datagram unpacks to a message
    that validates at the location of its own payload, and then by exactly
    the packed replay at its tail; no check on the sender's gufi stands
    before the validation.  A message that fails with a validation error is
    reported at level WARNING and no exception escapes; any other error of
    the validation escapes the handler. *)
Theorem blackhat_receive_spec (self : BlackHat) (rnd : nat -> Q)
    (utcoffset : timedelta) (time : datetime) (data : bytes) (w : World) :
  let '(w', raised) := blackhat_receive s self rnd utcoffset time data w in
  receive_queue w' = receive_queue w
  /\ Queue.maxsize (transmit_queue w') = Queue.maxsize (transmit_queue w)
  /\ (Queue.items (transmit_queue w') = Queue.items (transmit_queue w)
      \/ exists msg packed,
           Message.unpack s data = Ok msg
           /\ validate_msg s (bh_message_keys self) (bh_token_keys self) msg time
                (NavFacts.location (Message.payload msg)) = Ok tt
           /\ Message.pack s (replay msg rnd utcoffset) = Ok packed
           /\ Queue.items (transmit_queue w')
              = Queue.items (transmit_queue w) ++ [packed]
           /\ raised = None)
  /\ (forall msg e,
        Message.unpack s data = Ok msg ->
        validate_msg s (bh_message_keys self) (bh_token_keys self) msg time
          (NavFacts.location (Message.payload msg)) = Raise e ->
        transmit_queue w' = transmit_queue w
        /\ match is_validation_error e with
           | Some err =>
               raised = None
               /\ last (log w')
                  = Some (Log.WARNING,
                          ("Message validation FAILED: " ++ err
                             ++ ".  Not using for replay")%string)
           | None => raised = Some e
           end).
Proof.
  unfold blackhat_receive, NavFacts.location. cbv zeta.
  destruct (Message.unpack s data) as [msg | e].
  2: { split; [reflexivity |]. split; [reflexivity |].
       split; [left; reflexivity | intros ? ? Hno; discriminate Hno]. }
  destruct (validate_msg s _ _ msg time _) as [[] | e] eqn:Hval.
  - fold (replay msg rnd utcoffset).
    destruct (Message.pack s (replay msg rnd utcoffset)) as [packed | e] eqn:Hpack.
    2: { split; [reflexivity |]. split; [reflexivity |].
         split; [left; reflexivity |].
         intros ? ? [= <-] Hno. rewrite Hval in Hno. discriminate Hno. }
    destruct (QueueFacts.put_nowait_cases
                (transmit_queue
                   (logger Log.INFO ("Received message from " ++ UUID.str (sender msg)) w))
                packed) as [[Hf ->] | [Hf ->]];
      cbn [receive_queue transmit_queue set_transmit_queue logger log Queue.maxsize
           Queue.items].
    + split; [reflexivity |]. split; [reflexivity |].
      split; [left; reflexivity |].
      intros ? ? [= <-] Hno. rewrite Hval in Hno. discriminate Hno.
    + split; [reflexivity |]. split; [reflexivity |]. split.
      * right. exists msg, packed. repeat split; assumption.
      * intros ? ? [= <-] Hno. rewrite Hval in Hno. discriminate Hno.
  - destruct (is_validation_error e) as [err |] eqn:Herr;
      (split; [reflexivity |]; split; [reflexivity |]; split; [left; reflexivity |]);
      intros ? e' [= <-] He; rewrite Hval in He; injection He as <-; rewrite Herr.
    + cbn [transmit_queue logger log]. split; [reflexivity |].
      split; [reflexivity |]. apply last_snoc.
    + split; reflexivity.
Qed.

(** [Baseline.receive] on every input.  Neither queue is touched.  A
    message that carries the receiver's own gufi is set aside before any
    validation, with one entry at level DEBUG, whatever its content.  A
    message of another sender is validated at the location that the
    receiver's own navigation source reports for the time of receipt; a
    validation error is reported at level WARNING and does not escape, any
    other error of the validation escapes the handler. *)
Theorem baseline_receive_spec (self : Baseline) (time : datetime) (data : bytes)
    (w : World) :
  let '(w', raised) := baseline_receive s self time data w in
  receive_queue w' = receive_queue w
  /\ transmit_queue w' = transmit_queue w
  /\ (forall msg,
        Message.unpack s data = Ok msg ->
        UUID.int (sender msg) = UUID.int (gufi self) ->
        raised = None
        /\ log w' = log w ++ [(Log.DEBUG, "ignoring message from self"%string)])
  /\ (forall msg,
        Message.unpack s data = Ok msg ->
        UUID.int (sender msg) <> UUID.int (gufi self) ->
        match validate_msg s (message_keys self) (token_keys self) msg time
                (NavFacts.location (nav_src self time)) with
        | Ok _ => raised = None
        | Raise e =>
            match is_validation_error e with
            | Some err =>
                raised = None
                /\ last (log w')
                   = Some (Log.WARNING, ("Message validation FAILED: " ++ err)%string)
            | None => raised = Some e
            end
        end).
Proof.
  unfold baseline_receive, NavFacts.location, uuid_eqb. cbv zeta.
  destruct (Message.unpack s data) as [msg | e].
  2: { split; [reflexivity |]. split; [reflexivity |].
       split; intros ? Hno; discriminate Hno. }
  destruct (Z.eqb_spec (UUID.int (sender msg)) (UUID.int (gufi self))) as [Heq | Hne].
  - split; [reflexivity |]. split; [reflexivity |]. split.
    + intros ? [= <-] _. split; reflexivity.
    + intros ? [= <-] Hno. contradiction.
  - destruct (validate_msg s _ _ msg time _) as [[] | e] eqn:Hval.
    + split; [reflexivity |]. split; [reflexivity |]. split.
      * intros ? [= <-] Hyes. contradiction.
      * intros ? [= <-] _. rewrite Hval. reflexivity.
    + destruct (is_validation_error e) as [err |] eqn:Herr;
        (split; [reflexivity |]; split; [reflexivity |]; split;
         [intros ? [= <-] Hyes; contradiction |]);
        intros ? [= <-] _; rewrite Hval, Herr; [| reflexivity].
      split; [reflexivity |]. cbn [logger log]. apply last_snoc.
Qed.

End WithLibs.

End HandlerFacts.

(** ** The wire format beyond the round trip *)

Module WireFacts.

Import StructFacts UtilsFacts CodecFacts Application.

Lemma Ok_inj {A : Type} (a b : A) : Ok a = Ok b -> a = b.
Proof. congruence. Qed.

Lemma unpack_fields_inv (widths : list nat) (data : bytes) (fields : list bytes) :
  unpack_fields widths data = Ok fields -> length data = calcsize widths.
Proof.
  unfold unpack_fields. destruct (Nat.eqb_spec (length data) (calcsize widths));
    [intros _; assumption | discriminate].
Qed.

Lemma unpack_fields_wrong_size (widths : list nat) (data : bytes) :
  length data <> calcsize widths ->
  unpack_fields widths data
  = Raise (StructError "unpack requires a buffer of the format's size").
Proof.
  intros H. unfold unpack_fields.
  destruct (Nat.eqb_spec (length data) (calcsize widths)); [contradiction | reflexivity].
Qed.

Section WithSettings.

Variable s : Settings.

Local Abbreviation MIN := (MIN_DATETIME s).
Local Abbreviation D := (TIME_RESOLUTION s).

Lemma payload_pack_length (p : TokenPayload.t) (data : bytes) :
  TokenPayload.pack s p = Ok data -> length data = 40%nat.
Proof.
  unfold TokenPayload.pack. intros H.
  IssuanceFacts.bind_inv H. IssuanceFacts.bind_inv H.
  IssuanceFacts.bind_inv H. IssuanceFacts.bind_inv H.
  destruct (TokenPayload.bbox p) as [[[b0 b1] b2] b3].
  IssuanceFacts.bind_inv H. apply Ok_inj in H. subst data.
  apply pack_I_inv in Ha1 as [_ ->]. apply pack_I_inv in Ha2 as [_ ->].
  apply length_pack_floats in Ha3.
  rewrite !length_app, length_pack_s, !length_int_to_bytes, Ha3. reflexivity.
Qed.

Lemma token_pack_length (tok : Token.t) (data : bytes) :
  Token.pack s tok = Ok data -> length data = 108%nat.
Proof.
  unfold Token.pack. intros H.
  IssuanceFacts.bind_inv H. IssuanceFacts.bind_inv H. apply Ok_inj in H. subst data.
  apply pack_I_inv in Ha0 as [_ ->].
  rewrite !length_app, !length_pack_s, length_int_to_bytes. reflexivity.
Qed.

Lemma state_pack_length (u : StateUpdate.t) (data : bytes) :
  StateUpdate.pack u = Ok data -> length data = 28%nat.
Proof. unfold StateUpdate.pack. intros H. apply length_pack_floats in H. exact H. Qed.

Lemma message_pack_length (m : Message.t) (data : bytes) :
  Message.pack s m = Ok data -> length data = 203%nat.
Proof.
  unfold Message.pack. intros H.
  IssuanceFacts.bind_inv H. IssuanceFacts.bind_inv H. IssuanceFacts.bind_inv H.
  IssuanceFacts.bind_inv H. IssuanceFacts.bind_inv H. IssuanceFacts.bind_inv H.
  apply Ok_inj in H. subst data. apply pack_I_inv in Ha4 as [_ ->].
  rewrite !length_app, !length_pack_s, length_int_to_bytes. reflexivity.
Qed.

(** Whatever value is packed, and whenever packing returns, the buffer has
    the size of its format: 40 bytes for a token payload, 108 for a token, 28
    for a state update and 203 for a message.  A signature or a packed field
    longer than its slot is cut to the slot. *)
Theorem pack_sizes :
  (forall p data, TokenPayload.pack s p = Ok data -> length data = 40%nat)
  /\ (forall tok data, Token.pack s tok = Ok data -> length data = 108%nat)
  /\ (forall u data, StateUpdate.pack u = Ok data -> length data = 28%nat)
  /\ (forall m data, Message.pack s m = Ok data -> length data = 203%nat).
Proof.
  split; [exact payload_pack_length |]. split; [exact token_pack_length |].
  split; [exact state_pack_length | exact message_pack_length].
Qed.

(** A buffer that is not of the size of the format is refused with the
    error of [struct.unpack], before any field is read. *)
Theorem unpack_wrong_size (data : bytes) :
  let refused := StructError "unpack requires a buffer of the format's size" in
  (length data <> 40%nat -> TokenPayload.unpack s data = Raise refused)
  /\ (length data <> 108%nat -> Token.unpack s (Token.Binary data) = Raise refused)
  /\ (length data <> 28%nat -> StateUpdate.unpack data = Raise refused)
  /\ (length data <> 203%nat -> Message.unpack s data = Raise refused).
Proof.
  cbv zeta.
  split; [| split; [| split]]; intros H;
    unfold TokenPayload.unpack, Token.unpack, StateUpdate.unpack, Message.unpack;
    cbn [bind]; rewrite unpack_fields_wrong_size by exact H; reflexivity.
Qed.

(** *** Quantization and validation *)

Lemma floor_tick_below_min (t : datetime) : 0 < D -> t < MIN -> floor_tick s t < MIN.
Proof.
  intros Hd Ht. unfold floor_tick, decode_datetime_from_int.
  pose proof (floor_div_spec (t - MIN) D Hd). nia.
Qed.

Lemma encode_floor_tick (t : datetime) :
  0 < D ->
  encode_datetime_as_int s (floor_tick s t) ROUND_FLOOR
  = encode_datetime_as_int s t ROUND_FLOOR.
Proof.
  intros Hd. destruct (Z_lt_le_dec t MIN) as [Hlt | Hge].
  - pose proof (floor_tick_below_min t Hd Hlt) as Hq.
    unfold encode_datetime_as_int.
    destruct (Z.ltb_spec (floor_tick s t) MIN); [| lia].
    destruct (Z.ltb_spec t MIN); [reflexivity | lia].
  - rewrite (encode_floor s t Hd Hge).
    unfold floor_tick, decode_datetime_from_int.
    pose proof (floor_div_spec (t - MIN) D Hd) as Hf.
    assert (Hk : 0 <= floor_div (t - MIN) D) by nia.
    replace (floor_div (t - MIN) D * D + MIN) with (MIN + floor_div (t - MIN) D * D) by lia.
    apply encode_on_tick; [exact Hd | exact Hk | left; reflexivity].
Qed.

Lemma encode_ceil_tick (t : datetime) :
  0 < D -> MIN <= t ->
  encode_datetime_as_int s (ceil_tick s t) ROUND_CEILING
  = encode_datetime_as_int s t ROUND_CEILING.
Proof.
  intros Hd Hge. rewrite (encode_ceiling s t Hd Hge).
  unfold ceil_tick, decode_datetime_from_int.
  pose proof (ceil_div_spec (t - MIN) D Hd) as Hc.
  assert (Hk : 0 <= ceil_div (t - MIN) D) by nia.
  replace (ceil_div (t - MIN) D * D + MIN) with (MIN + ceil_div (t - MIN) D * D) by lia.
  apply encode_on_tick; [exact Hd | exact Hk | right; reflexivity].
Qed.

Lemma pack_quantized (p : TokenPayload.t) :
  0 < D -> MIN <= TokenPayload.exp p ->
  TokenPayload.pack s (quantized s p) = TokenPayload.pack s p.
Proof.
  intros Hd He. unfold TokenPayload.pack, quantized.
  cbn [TokenPayload.gufi TokenPayload.nbf TokenPayload.exp TokenPayload.bbox].
  rewrite encode_floor_tick, encode_ceil_tick by assumption. reflexivity.
Qed.

Lemma payload_validate_quantized (p : TokenPayload.t) (time : datetime) (loc : Point) :
  0 < D ->
  TokenPayload.validate_ p time loc = Ok tt ->
  TokenPayload.validate_ (quantized s p) time loc = Ok tt.
Proof.
  intros Hd. unfold TokenPayload.validate_, quantized.
  cbn [TokenPayload.nbf TokenPayload.exp TokenPayload.bbox].
  pose proof (floor_tick_spec s (TokenPayload.nbf p) Hd) as [Hf _].
  pose proof (ceil_tick_spec s (TokenPayload.exp p) Hd) as [Hc _].
  destruct (Z.gtb_spec time (TokenPayload.exp p)) as [? | H1]; [discriminate |].
  destruct (Z.ltb_spec time (TokenPayload.nbf p)) as [? | H2]; [discriminate |].
  destruct (Z.gtb_spec time (ceil_tick s (TokenPayload.exp p))) as [H3 | _]; [lia |].
  destruct (Z.ltb_spec time (floor_tick s (TokenPayload.nbf p))) as [H4 | _]; [lia |].
  intros Hv. exact Hv.
Qed.

(** Quantization does not change what is signed, and it only widens the
    window: with a positive tick and an exp not before [MIN_DATETIME], the
    payload with nbf at its floor tick and exp at its ceiling tick packs to
    the same bytes as the payload itself; its window contains the payload's
    and reaches less than one tick beyond it at either end; and it validates
    at every time and location at which the payload validates. *)
Theorem quantized_spec (p : TokenPayload.t) :
  1 <= time_resolution_ms s -> MIN <= TokenPayload.exp p ->
  let q := quantized s p in
  TokenPayload.pack s q = TokenPayload.pack s p
  /\ (TokenPayload.nbf p - D < TokenPayload.nbf q <= TokenPayload.nbf p)
  /\ (TokenPayload.exp p <= TokenPayload.exp q < TokenPayload.exp p + D)
  /\ (forall time loc,
        TokenPayload.validate_ p time loc = Ok tt ->
        TokenPayload.validate_ q time loc = Ok tt).
Proof.
  intros Hms He. cbv zeta.
  assert (Hd : 0 < D) by (unfold TIME_RESOLUTION, milliseconds; lia).
  split; [apply pack_quantized; assumption |].
  pose proof (floor_tick_spec s (TokenPayload.nbf p) Hd) as [Hf _].
  pose proof (ceil_tick_spec s (TokenPayload.exp p) Hd) as [Hc _].
  unfold quantized. cbn [TokenPayload.nbf TokenPayload.exp].
  split; [lia |]. split; [lia |].
  intros time loc. apply payload_validate_quantized. exact Hd.
Qed.

Context {ed : Pks.Ed25519} {ws : Ibs.WatersSig}.

Lemma validate_ok_exp (p : TokenPayload.t) (data : bytes) :
  TokenPayload.pack s p = Ok data -> MIN <= TokenPayload.exp p.
Proof.
  unfold TokenPayload.pack. intros H.
  IssuanceFacts.bind_inv H. IssuanceFacts.bind_inv H.
  unfold encode_datetime_as_int in Ha0.
  destruct (Z.ltb_spec (TokenPayload.exp p) MIN); [discriminate | assumption].
Qed.

Lemma token_validate_quantized (tok : Token.t) (token_key : Pks.PublicKey)
    (time : datetime) (loc : Point) :
  0 < D ->
  Token.validate_ s tok token_key time loc = Ok tt ->
  Token.validate_ s (token_quantized s tok) token_key time loc = Ok tt.
Proof.
  intros Hd. unfold Token.validate_, token_quantized.
  cbn [Token.payload Token.signature]. intros H.
  destruct (TokenPayload.validate_ (Token.payload tok) time loc) as [[] | e] eqn:Hv;
    [| discriminate H].
  rewrite (payload_validate_quantized _ _ _ Hd Hv).
  cbn [bind] in H |- *.
  destruct (TokenPayload.pack s (Token.payload tok)) as [packed | e] eqn:Hp;
    [| discriminate H].
  rewrite pack_quantized by (try exact Hd; eapply validate_ok_exp; exact Hp).
  rewrite Hp. exact H.
Qed.

Lemma validate_msg_quantized (message_keys : gmap Z MessageKey.t)
    (token_keys : gmap Z TokenKey.t) (m : Message.t) (time : datetime) (loc : Point) :
  0 < D ->
  validate_msg s message_keys token_keys m time loc = Ok tt ->
  validate_msg s message_keys token_keys (message_quantized s m) time loc = Ok tt.
Proof.
  intros Hd. unfold validate_msg, message_quantized.
  cbn [Message.kid Message.token].
  change (Token.kid (token_quantized s (Message.token m)))
    with (Token.kid (Message.token m)).
  destruct (message_keys !! Message.kid m) as [mk |]; [| discriminate].
  destruct (time >? MessageKey.exp mk); [discriminate |].
  destruct (time <? MessageKey.nbf mk); [discriminate |].
  destruct (token_keys !! Token.kid (Message.token m)) as [tk |]; [| discriminate].
  destruct (time >? TokenKey.exp tk); [discriminate |].
  destruct (time <? TokenKey.nbf tk); [discriminate |].
  unfold Message.validate_.
  cbn [Message.token Message.payload Message.signature].
  intros H.
  destruct (Token.validate_ s (Message.token m) (TokenKey.public_key tk) time loc)
    as [[] | e] eqn:Hv; [| discriminate H].
  rewrite (token_validate_quantized _ _ _ _ Hd Hv).
  cbn [bind] in H |- *.
  change (TokenPayload.gufi (Token.payload (token_quantized s (Message.token m))))
    with (TokenPayload.gufi (Token.payload (Message.token m))).
  exact H.
Qed.

(** A message that the receiver would accept is still accepted after the
    wire.  With a tick of at least one millisecond, a message that the wire
    can carry and that validates under a load set, at a time and a location,
    packs to a datagram that unpacks to a message which validates under the
    same load set at the same time and location. *)
Theorem validation_survives_wire (message_keys : gmap Z MessageKey.t)
    (token_keys : gmap Z TokenKey.t) (m : Message.t) (time : datetime) (loc : Point) :
  1 <= time_resolution_ms s ->
  message_ok s m ->
  validate_msg s message_keys token_keys m time loc = Ok tt ->
  exists data m',
    Message.pack s m = Ok data
    /\ Message.unpack s data = Ok m'
    /\ validate_msg s message_keys token_keys m' time loc = Ok tt.
Proof.
  intros Hms Hok Hval.
  assert (Hd : 0 < D) by (unfold TIME_RESOLUTION, milliseconds; lia).
  destruct (message_roundtrip s m Hd Hok) as (data & Hpack & _ & Hunpack).
  exists data, (message_quantized s m).
  split; [exact Hpack |]. split; [exact Hunpack |].
  apply validate_msg_quantized; assumption.
Qed.

End WithSettings.

(** An off-tick payload at the default settings: 0.2 s and 0.7 s into a
    tick of 0.5 s. *)
Definition off_tick_payload : TokenPayload.t := {|
  TokenPayload.gufi := IssuanceFacts.a_gufi;
  TokenPayload.nbf := MIN_DATETIME settings + 200000;
  TokenPayload.exp := MIN_DATETIME settings + 700000;
  TokenPayload.bbox := (-40, 30, -30, 40)%Q
|}.

Lemma quantized_spec_witness :
  let p := off_tick_payload in
  let q := quantized settings p in
  1 <= time_resolution_ms settings
  /\ MIN_DATETIME settings <= TokenPayload.exp p
  /\ TokenPayload.nbf q = MIN_DATETIME settings
  /\ TokenPayload.exp q = MIN_DATETIME settings + 1000000
  /\ TokenPayload.pack settings q = TokenPayload.pack settings p
  /\ (TokenPayload.nbf p - TIME_RESOLUTION settings < TokenPayload.nbf q
      <= TokenPayload.nbf p)
  /\ (TokenPayload.exp p <= TokenPayload.exp q
      < TokenPayload.exp p + TIME_RESOLUTION settings)
  /\ (forall time loc,
        TokenPayload.validate_ p time loc = Ok tt ->
        TokenPayload.validate_ q time loc = Ok tt).
Proof.
  cbv zeta.
  assert (H1 : 1 <= time_resolution_ms settings) by (vm_compute; discriminate).
  assert (H2 : MIN_DATETIME settings <= TokenPayload.exp off_tick_payload)
    by (vm_compute; discriminate).
  split; [exact H1 |]. split; [exact H2 |].
  split; [vm_compute; reflexivity |]. split; [vm_compute; reflexivity |].
  exact (quantized_spec settings off_tick_payload H1 H2).
Defined.

Ltac wire_value :=
  lazymatch goal with
  | |- Forall _ _ => repeat (constructor; [CodecFacts.exact_float |]); constructor
  | |- _ <= _ => vm_compute; discriminate
  | |- _ < _ => vm_compute; reflexivity
  | |- _ => vm_compute; reflexivity
  end.

Lemma fixture_message_ok : message_ok settings Fixture.a_message.
Proof.
  set (m := Fixture.a_message). vm_compute in m. subst m.
  unfold message_ok, token_ok, payload_ok, uuid_ok, time_ok, element_ok, all_exact.
  cbn [Message.token Message.kid Message.payload Message.signature Token.payload
       Token.kid Token.signature TokenPayload.gufi TokenPayload.nbf TokenPayload.exp
       TokenPayload.bbox Ibs.S1 Ibs.S2 Ibs.S3 StateUpdate.values
       StateUpdate.lat_deg StateUpdate.lon_deg StateUpdate.alt_hae_ft
       StateUpdate.vel_ew_fps StateUpdate.vel_ns_fps StateUpdate.vel_vert_fps
       StateUpdate.toa_utc].
  repeat match goal with |- _ /\ _ => split end; wire_value.
Qed.

Lemma validation_survives_wire_witness :
  1 <= time_resolution_ms settings
  /\ message_ok settings Fixture.a_message
  /\ exists data m',
       Message.pack settings Fixture.a_message = Ok data
       /\ Message.unpack settings data = Ok m'
       /\ validate_msg settings (ed := Toy.ed25519) (ws := Toy.waters)
            Fixture.the_message_keys Fixture.the_token_keys m' Fixture.two_past
            Fixture.a_location = Ok tt.
Proof.
  assert (H1 : 1 <= time_resolution_ms settings) by (vm_compute; discriminate).
  split; [exact H1 |]. split; [exact fixture_message_ok |].
  apply (validation_survives_wire settings (ed := Toy.ed25519) (ws := Toy.waters)
           Fixture.the_message_keys Fixture.the_token_keys Fixture.a_message
           Fixture.two_past Fixture.a_location H1 fixture_message_ok).
  vm_compute. reflexivity.
Defined.

End WireFacts.

(** ** Encoding and decoding of datetimes, together *)

Module TimeFacts.

Import UtilsFacts CodecFacts.

Section WithSettings.

Variable s : Settings.

Local Abbreviation MIN := (MIN_DATETIME s).
Local Abbreviation D := (TIME_RESOLUTION s).



End WithSettings.


End TimeFacts.

(** ** The rest of an authorization: signing keys and header *)

Module AuthorizationFacts.

Import Database IssuanceFacts CodecFacts.

Section WithLibs.

Variable s : Settings.
Context {ed : Pks.Ed25519} {ws : Ibs.WatersSig}.

(** The row [row] is the signing key issued for [request] under the root
    key [k]: the identity key that the scheme derives for the text of the
    gufi from the root key's parameters and secret, in serialized form. *)
Definition issued (request : Api.AuthorizationRequest) (k : RootKey)
    (row : Database.SigningKey) : Prop :=
  exists root_secret : Ibs.PairingElement,
    Ibs.deserialize_pairing_element (secret_key k) = Ok root_secret
    /\ root_key row = k
    /\ private_key row
       = Ibs.key_as_str
           (Ibs.waters_keygen (public_key k) root_secret
              (UUID.str (Api.gufi request))).

Lemma generate_signing_key_issued (request : Api.AuthorizationRequest) (k : RootKey)
    (row : Database.SigningKey) :
  Authority.generate_signing_key request k = Ok row -> issued request k row.
Proof.
  unfold Authority.generate_signing_key. intros H.
  bind_inv H. rename a into root_secret. injection H as <-.
  exists root_secret. split; [exact Ha |]. split; reflexivity.
Qed.

(** When [generate_authorization] returns, the authorization carries the
    gufi, the window and the box of the request, the operator and the clock
    it was handed, and one signing key for each selected root-key epoch, in
    the order of the selection.  A failure of the token-key selection is
    raised as it is, before root keys are looked at. *)
Theorem generate_authorization_signing_keys (db : Session) (now : datetime)
    (request : Api.AuthorizationRequest) (operator : string) :
  let r := Authority.generate_authorization s db now request operator in
  (forall auth, r = Ok auth ->
     gufi auth = Api.gufi request
     /\ a_nbf auth = Api.nbf request
     /\ a_exp auth = Api.exp request
     /\ bbox auth = Api.bbox request
     /\ Database.operator auth = operator
     /\ granted auth = now
     /\ exists keys,
          Authority.choose_root_keys db (Api.nbf request) (Api.exp request) = Ok keys
          /\ Forall2 (issued request) keys (signing_keys auth))
  /\ (forall e,
        Authority.choose_token_keys db (Api.nbf request) (Api.exp request) = Raise e ->
        r = Raise e).
Proof.
  cbv zeta. unfold Authority.generate_authorization. split.
  - intros auth H.
    bind_inv H. bind_inv H. bind_inv H. rename a1 into keys. rename Ha1 into Hkeys.
    bind_inv H. rename a1 into rows. rename Ha1 into Hrows.
    injection H as <-. cbn.
    repeat (split; [reflexivity |]).
    exists keys. split; [exact Hkeys |].
    apply for_each_Ok in Hrows.
    eapply Forall2_impl; [exact Hrows |].
    intros k row. apply generate_signing_key_issued.
  - intros e ->. reflexivity.
Qed.

(** *** Issued tokens validate *)

(** The correctness of the signature primitive: what a key signs, its public
    key verifies. *)
Definition signs_correctly (lib : Pks.Ed25519) : Prop :=
  forall (sk : Pks.PrivateKey) (msg : bytes),
    Pks.ed25519_verify (Pks.ed25519_public_key sk) (Pks.ed25519_sign sk msg) msg = Ok tt.

Lemma mint_token_inv (request : Api.AuthorizationRequest) (k : TokenKey)
    (tok : Token.t) :
  Authority.mint_token s request k = Ok tok ->
  exists sk packed,
    Pks.deserialize_private_key (secret_key k) = Ok sk
    /\ Token.payload tok
       = {| TokenPayload.gufi := Api.gufi request;
            TokenPayload.nbf := Z.max (Api.nbf request) (nbf k);
            TokenPayload.exp := Z.min (Api.exp request) (exp k);
            TokenPayload.bbox := Api.bbox request |}
    /\ TokenPayload.pack s (Token.payload tok) = Ok packed
    /\ Token.signature tok = Pks.sign packed sk.
Proof.
  unfold Authority.mint_token. intros H.
  bind_inv H. rename a into sk. bind_inv H. rename a into payload.
  apply init_Ok in Ha0 as [-> _]. bind_inv H. rename a into packed.
  destruct (pk k) as [kid |]; [| discriminate H]. injection H as <-.
  exists sk, packed. cbn [Token.payload Token.signature].
  split; [exact Ha |]. split; [reflexivity |]. split; [exact Ha0 | reflexivity].
Qed.

(** A token that the authority mints for a request under a token-key epoch
    validates under the public key of that epoch, at every time within both
    the request's window and the epoch's and at every location inside the
    request's box, provided the signature primitive is correct.  When the
    wire can carry the token, the token read back from its packed form
    validates as well. *)
Theorem minted_token_validates (request : Api.AuthorizationRequest) (k : TokenKey)
    (tok : Token.t) (sk : Pks.PrivateKey) (time : datetime) (loc : Point) :
  signs_correctly ed ->
  1 <= time_resolution_ms s ->
  Authority.mint_token s request k = Ok tok ->
  Pks.deserialize_private_key (secret_key k) = Ok sk ->
  Z.max (Api.nbf request) (nbf k) <= time <= Z.min (Api.exp request) (exp k) ->
  bbox_includes (Api.bbox request) loc = Ok true ->
  Token.validate_ s tok (Pks.ed25519_public_key sk) time loc = Ok tt
  /\ (token_ok s tok ->
        exists data tok',
          Token.pack s tok = Ok data
          /\ Token.unpack s (Token.Binary data) = Ok tok'
          /\ Token.validate_ s tok' (Pks.ed25519_public_key sk) time loc = Ok tt).
Proof.
  intros Hlib Hms Hmint Hsk Htime Hloc.
  assert (Hd : 0 < TIME_RESOLUTION s) by (unfold TIME_RESOLUTION, milliseconds; lia).
  destruct (mint_token_inv _ _ _ Hmint) as (sk' & packed & Hsk' & Hpayload & Hpack & Hsig).
  rewrite Hsk in Hsk'. injection Hsk' as <-.
  assert (Hval : Token.validate_ s tok (Pks.ed25519_public_key sk) time loc = Ok tt).
  { unfold Token.validate_, TokenPayload.validate_. rewrite Hpack, Hsig, Hpayload.
    cbn [TokenPayload.nbf TokenPayload.exp TokenPayload.bbox].
    destruct (Z.gtb_spec time (Z.min (Api.exp request) (exp k))); [lia |].
    destruct (Z.ltb_spec time (Z.max (Api.nbf request) (nbf k))); [lia |].
    rewrite Hloc. cbn [bind negb].
    unfold Pks.verify, Pks.sign. rewrite Hlib. reflexivity. }
  split; [exact Hval |].
  intros Hok. destruct (token_roundtrip s tok Hd Hok) as (data & Hp & _ & Hu).
  exists data, (token_quantized s tok).
  split; [exact Hp |]. split; [exact Hu |].
  apply WireFacts.token_validate_quantized; assumption.
Qed.

End WithLibs.

Lemma toy_signs_correctly : signs_correctly Toy.ed25519.
Proof.
  intros sk msg. cbn.
  assert (Hrefl : forall b, Toy.bytes_eqb b b = true).
  { induction b as [| x b IH]; [reflexivity |]. cbn.
    rewrite IH, Bool.andb_true_r. destruct x; reflexivity. }
  rewrite Hrefl. reflexivity.
Qed.

(** The authority of the fixture issues two signing keys for its request. *)
Example ready_db_signing_keys :
  exists auth,
    Authority.generate_authorization settings (ed := Toy.ed25519) (ws := Toy.waters)
      ready_db EpochFacts.midnight a_request "jane doe" = Ok auth
    /\ length (signing_keys auth) = 2%nat
    /\ gufi auth = a_gufi.
Proof.
  eexists. split; [vm_compute; reflexivity |]. split; reflexivity.
Qed.

(** The first token-key epoch of the fixture. *)
Definition first_token_key : TokenKey :=
  match token_keys ready_db with
  | k :: _ => k
  | [] => {| pk := None; nbf := 0; exp := 0; public_key := []; secret_key := [] |}
  end.

Lemma minted_token_validates_witness :
  exists tok sk,
    signs_correctly Toy.ed25519
    /\ 1 <= time_resolution_ms settings
    /\ Authority.mint_token settings (ed := Toy.ed25519) a_request first_token_key
       = Ok tok
    /\ Pks.deserialize_private_key (secret_key first_token_key) = Ok sk
    /\ bbox_includes (Api.bbox a_request) Fixture.a_location = Ok true
    /\ Token.validate_ settings (ed := Toy.ed25519) tok
         (Pks.ed25519_public_key (Ed25519 := Toy.ed25519) sk) Fixture.two_past
         Fixture.a_location = Ok tt.
Proof.
  assert (H1 : 1 <= time_resolution_ms settings) by (vm_compute; discriminate).
  assert (H2 : bbox_includes (Api.bbox a_request) Fixture.a_location = Ok true)
    by (vm_compute; reflexivity).
  destruct (Authority.mint_token settings (ed := Toy.ed25519) a_request first_token_key)
    as [tok | e] eqn:Hmint; [| vm_compute in Hmint; discriminate Hmint].
  destruct (Pks.deserialize_private_key (secret_key first_token_key))
    as [sk | e] eqn:Hsk; [| vm_compute in Hsk; discriminate Hsk].
  exists tok, sk.
  split; [exact toy_signs_correctly |]. split; [exact H1 |].
  split; [reflexivity |]. split; [reflexivity |]. split; [exact H2 |].
  apply (minted_token_validates settings (ed := Toy.ed25519) a_request first_token_key
           tok sk Fixture.two_past Fixture.a_location toy_signs_correctly H1 Hmint Hsk).
  - vm_compute. split; discriminate.
  - exact H2.
Defined.

End AuthorizationFacts.

(** ** Epoch chains: what allocation maintains and selection relies on *)

Module CoverageFacts.

Import Database UtilsFacts ChooseFacts EpochFacts.

Section WithLibs.

Variable s : Settings.
Context {ed : Pks.Ed25519} {ws : Ibs.WatersSig}.

Local Abbreviation KI := (Authority.KEY_INTERVAL s).
Local Abbreviation BUF := (Authority.KEY_EXP_BUFFER s).

(** A table is a chain from [a] when its i-th row starts i intervals after
    [a] and expires one interval and one buffer after it starts. *)
Definition chain (a : datetime) (table : list Key) : Prop :=
  forall (i : nat) (k : Key), table !! i = Some k ->
    nbf k = a + Z.of_nat i * KI /\ exp k = nbf k + KI + BUF.

(** The table reaches a horizon when its last row expires at or after it. *)
Definition reaches (table : list Key) (horizon : datetime) : Prop :=
  exists l, last table = Some l /\ horizon <= exp l.

Lemma last_lookup_length {A : Type} (l : list A) (x : A) :
  last l = Some x <-> l !! Nat.pred (length l) = Some x.
Proof. rewrite last_lookup. reflexivity. Qed.








(** *** Selection on a chain *)

Lemma sorted_last_greatest (keys : list Key) (l k : Key) :
  StronglySorted nbf_le keys -> last keys = Some l -> k ∈ keys -> nbf k <= nbf l.
Proof.
  induction 1 as [| x rest Hrest IH Hall]; [discriminate |].
  intros Hlast Hin. destruct rest as [| y rest'].
  - injection Hlast as <-. apply list_elem_of_singleton in Hin. subst k. lia.
  - change (last (x :: y :: rest')) with (last (y :: rest')) in Hlast.
    apply elem_of_cons in Hin as [-> | Hin].
    + rewrite Forall_forall in Hall. apply Hall.
      apply last_Some_elem_of. exact Hlast.
    + apply IH; assumption.
Qed.

Lemma chain_covered (table : list Key) (a start end_ : datetime) :
  0 < KI -> 0 <= BUF -> chain a table -> reaches table end_ ->
  start < end_ -> a < end_ ->
  exists l, last (order_by_nbf_asc (selected table start end_)) = Some l
            /\ end_ <= exp l.
Proof.
  intros Hk Hb Hc (lt & Hlast & Hreach) Hse Hae.
  apply last_lookup_length in Hlast.
  pose proof (lookup_lt_Some _ _ _ Hlast) as Hn.
  destruct (Hc _ _ Hlast) as [Hltn Hlte].
  (* the row that is live just before [end_] *)
  set (j := Z.to_nat (Z.min (Z.of_nat (Nat.pred (length table)))
                        (floor_div (end_ - 1 - a) KI))).
  pose proof (floor_div_spec (end_ - 1 - a) KI Hk) as Hf.
  assert (Hf0 : 0 <= floor_div (end_ - 1 - a) KI) by nia.
  assert (Hj : (j <= Nat.pred (length table))%nat) by lia.
  destruct (lookup_lt_is_Some_2 table j ltac:(lia)) as [kj Hkj].
  destruct (Hc _ _ Hkj) as [Hjn Hje].
  assert (Hjsel : nbf kj < end_ /\ end_ <= exp kj).
  { destruct (Z.le_gt_cases (Z.of_nat (Nat.pred (length table)))
                (floor_div (end_ - 1 - a) KI)) as [Hcase | Hcase].
    - assert (j = Nat.pred (length table)) by lia. subst j.
      rewrite H in Hkj. rewrite Hkj in Hlast. injection Hlast as <-. nia.
    - assert (Z.of_nat j = floor_div (end_ - 1 - a) KI) by lia. nia. }
  assert (Hin : kj ∈ order_by_nbf_asc (selected table start end_)).
  { rewrite order_by_nbf_asc_perm. unfold selected.
    apply list_elem_of_filter. split.
    - apply overlaps_iff. lia.
    - apply list_elem_of_lookup. eexists. exact Hkj. }
  destruct (last (order_by_nbf_asc (selected table start end_))) as [l |] eqn:Hl.
  2: { apply last_None in Hl. rewrite Hl in Hin. apply elem_of_nil in Hin. contradiction. }
  exists l. split; [reflexivity |].
  pose proof (sorted_last_greatest _ _ _ (order_by_nbf_asc_sorted _) Hl Hin) as Hge.
  assert (Hlin : l ∈ table).
  { apply last_Some_elem_of in Hl. rewrite order_by_nbf_asc_perm in Hl.
    unfold selected in Hl. apply list_elem_of_filter in Hl. tauto. }
  apply list_elem_of_lookup in Hlin as [i Hi].
  destruct (Hc _ _ Hi) as [Hin' Hie]. nia.
Qed.

(** Selection succeeds on a chain that reaches the end of the window.  With
    a positive rotation interval and a buffer that is not negative, for the
    token keys and for the root keys alike: when the table is a chain from
    [a] whose last row expires at or after [end_], every window
    [start, end_) with start < end_ and a < end_ is covered, and the selection
    returns a list that is not empty. *)
Theorem choose_keys_on_chain (db : Session) (a start end_ : datetime) :
  0 < key_rotation_mins s -> 0 <= key_expiration_buffer_ms s ->
  start < end_ -> a < end_ ->
  (chain a (token_keys db) -> reaches (token_keys db) end_ ->
     exists keys, Authority.choose_token_keys db start end_ = Ok keys /\ keys <> [])
  /\ (chain a (root_keys db) -> reaches (root_keys db) end_ ->
        exists keys, Authority.choose_root_keys db start end_ = Ok keys /\ keys <> []).
Proof.
  intros Hmins Hbuf Hse Hae.
  assert (Hk : 0 < KI) by (unfold Authority.KEY_INTERVAL, minutes; lia).
  assert (Hb : 0 <= BUF) by (unfold Authority.KEY_EXP_BUFFER, milliseconds; lia).
  split; intros Hc Hr;
    destruct (chain_covered _ a start end_ Hk Hb Hc Hr Hse Hae) as (l & Hl & Hle).
  - pose proof (choose_token_keys_cases db start end_) as Hcases. cbv zeta in Hcases.
    rewrite Hl in Hcases. destruct (Z.ltb_spec (exp l) end_); [lia |].
    eexists. split; [exact Hcases |]. intros Hnil. rewrite Hnil in Hl. discriminate Hl.
  - pose proof (choose_root_keys_cases db start end_) as Hcases. cbv zeta in Hcases.
    rewrite Hl in Hcases. destruct (Z.ltb_spec (exp l) end_); [lia |].
    eexists. split; [exact Hcases |]. intros Hnil. rewrite Hnil in Hl. discriminate Hl.
Qed.

End WithLibs.


Lemma ready_db_chain :
  chain settings midnight (token_keys IssuanceFacts.ready_db)
  /\ reaches (token_keys IssuanceFacts.ready_db) IssuanceFacts.ten_minutes_on.
Proof.
  split.
  - unfold chain. set (t := token_keys IssuanceFacts.ready_db). vm_compute in t.
    subst t. intros i k Hik.
    repeat (destruct i as [| i];
            [injection Hik as <-; vm_compute; split; reflexivity |]).
    discriminate Hik.
  - unfold reaches. eexists. split; [vm_compute; reflexivity | vm_compute; discriminate].
Qed.

Lemma choose_keys_on_chain_witness :
  let start := midnight + minutes 1 in
  let end_ := IssuanceFacts.ten_minutes_on in
  0 < key_rotation_mins settings
  /\ 0 <= key_expiration_buffer_ms settings
  /\ start < end_ /\ midnight < end_
  /\ chain settings midnight (token_keys IssuanceFacts.ready_db)
  /\ reaches (token_keys IssuanceFacts.ready_db) end_
  /\ exists keys,
       Authority.choose_token_keys IssuanceFacts.ready_db start end_ = Ok keys
       /\ keys <> [].
Proof.
  cbv zeta.
  assert (H1 : 0 < key_rotation_mins settings) by reflexivity.
  assert (H2 : 0 <= key_expiration_buffer_ms settings) by discriminate.
  assert (H3 : midnight + minutes 1 < IssuanceFacts.ten_minutes_on) by reflexivity.
  assert (H4 : midnight < IssuanceFacts.ten_minutes_on) by reflexivity.
  destruct ready_db_chain as [H5 H6].
  repeat (split; [assumption |]).
  exact (proj1 (choose_keys_on_chain settings IssuanceFacts.ready_db midnight
                  (midnight + minutes 1) IssuanceFacts.ten_minutes_on H1 H2 H3 H4)
           H5 H6).
Defined.

End CoverageFacts.

(** ** models/api.py: the validators of an authorization request *)

Module AuthorizationBase.



End AuthorizationBase.

Module ApiFacts.

Import BBoxFacts AuthorizationBase.

Local Open Scope Q_scope.




End ApiFacts.

(** ** Root keys in storage *)

Module RootKeyFacts.

Import Database Base64Facts IssuanceFacts.

Lemma deserialize_serialize (e : Ibs.PairingElement) :
  Ibs.deserialize_pairing_element (Ibs.key_as_bytes e) = Ok e.
Proof.
  unfold Ibs.deserialize_pairing_element, Ibs.key_as_bytes, Ibs.serialize,
    Ibs.deserialize.
  change (Byte.eqb ":"%byte ":"%byte) with true. cbv iota.
  rewrite b64decode_b64encode. destruct e. reflexivity.
Qed.

Section WithLibs.

Variable s : Settings.
Context {ed : Pks.Ed25519} {ws : Ibs.WatersSig}.

(** The secret of a root key survives its storage: [key_as_bytes] followed
    by [deserialize_pairing_element] gives the element back, and whatever
    fails to deserialize raises a bare [ValueError].  So for every root-key
    row that [generate_root_keys] builds, before or after the commit has
    given it a primary key, and for every request, [generate_signing_key]
    returns the identity key derived from the secret that was generated. *)
Theorem generated_root_keys_issue (entropy : Z -> Z) (start end_ : datetime)
    (rows : list RootKey) :
  (forall e, Ibs.deserialize_pairing_element (Ibs.key_as_bytes e) = Ok e)
  /\ (forall v e, Ibs.deserialize_pairing_element v = Raise e -> e = ValueError "")
  /\ (Authority.generate_root_keys s entropy start end_ = Ok rows ->
      forall (next : Z) (i : nat) (k : RootKey) (request : Api.AuthorizationRequest),
        rows !! i = Some k \/ assign_pks next rows !! i = Some k ->
        let generated := Ibs.generate_root_key (entropy (Z.of_nat i)) in
        public_key k = Ibs.public_key generated
        /\ Authority.generate_signing_key request k
           = Ok {| private_key :=
                     Ibs.key_as_str
                       (Ibs.waters_keygen (Ibs.public_key generated)
                          (Ibs.secret_key generated) (UUID.str (Api.gufi request)));
                   root_key := k |}).
Proof.
  split; [exact deserialize_serialize |]. split.
  - intros v e. unfold Ibs.deserialize_pairing_element.
    destruct (Ibs.deserialize v); [discriminate | intros [= <-]; reflexivity].
  - unfold Authority.generate_root_keys.
    destruct (negb (end_ >? start)); [discriminate |]. intros [= <-].
    assert (Hrow : forall i k,
               map (fun i0 =>
                      let key_group := Ibs.generate_root_key (entropy i0) in
                      {| pk := None;
                         nbf := Authority.epoch_nbf s start i0;
                         exp := Authority.epoch_exp s start i0;
                         public_key := Ibs.public_key key_group;
                         secret_key := Ibs.key_as_bytes (Ibs.secret_key key_group) |})
                 (Authority.range (Authority.n_epochs s start end_)) !! i = Some k ->
               public_key k = Ibs.public_key (Ibs.generate_root_key (entropy (Z.of_nat i)))
               /\ secret_key k
                  = Ibs.key_as_bytes
                      (Ibs.secret_key (Ibs.generate_root_key (entropy (Z.of_nat i))))).
    { intros i k. rewrite list_lookup_fmap.
      destruct (Authority.range _ !! i) as [x |] eqn:Hx; [| discriminate].
      apply EpochFacts.lookup_range in Hx. subst x. intros [= <-]. split; reflexivity. }
    assert (Hpk : forall rows next i k,
               assign_pks next rows !! i = Some k ->
               exists r, rows !! i = Some r /\ public_key k = public_key r
                         /\ secret_key k = secret_key r).
    { induction rows as [| r rest IH]; intros next i k; cbn [assign_pks];
        [discriminate |].
      destruct i as [| i]; cbn.
      - intros [= <-]. exists r. repeat split.
      - intros Hk. apply (IH _ _ _ Hk). }
    intros next i k request Hk. cbv zeta.
    assert (Hks : public_key k
                  = Ibs.public_key (Ibs.generate_root_key (entropy (Z.of_nat i)))
                  /\ secret_key k
                     = Ibs.key_as_bytes
                         (Ibs.secret_key (Ibs.generate_root_key (entropy (Z.of_nat i))))).
    { destruct Hk as [Hk | Hk]; [exact (Hrow _ _ Hk) |].
      destruct (Hpk _ _ _ _ Hk) as (r & Hr & -> & ->). exact (Hrow _ _ Hr). }
    destruct Hks as [Hpub Hsec]. split; [exact Hpub |].
    unfold Authority.generate_signing_key. rewrite Hsec, deserialize_serialize.
    cbn [bind]. unfold Ibs.generate_identity_key.
    cbn [Ibs.public_key Ibs.secret_key Ibs.id_secret_key]. rewrite Hpub. reflexivity.
Qed.

End WithLibs.

End RootKeyFacts.

(** ** The time of a replayed state *)

Module ReplayTimeFacts.



End ReplayTimeFacts.

(** ** models/api.py: the load set *)

Module LoadSet.

Record Token : Type := {
  t_nbf : datetime;
  t_exp : datetime;
  t_value : string
}.

Record TokenKey : Type := {
  tk_kid : Z;
  tk_nbf : datetime;
  tk_exp : datetime;
  tk_value : string
}.

Record MessageKey : Type := {
  mk_kid : Z;
  mk_nbf : datetime;
  mk_exp : datetime;
  mk_value : Ibs.PublicKey
}.

Record SigningKey : Type := {
  sk_kid : Z;
  sk_value : string * string
}.

Record t : Type := {
  gufi : UUID.t;
  tokens : list Token;
  token_keys : list TokenKey;
  signing_keys : list SigningKey;
  message_keys : list MessageKey
}.

(** [b64encode_bytes] on [bytes], read as the [str] the field is declared
    to hold. *)
Definition b64encode_bytes (value : bytes) : string :=
  decode_utf8 (standard_b64encode value).

(** A field declared [int] and filled from a primary key that is not set. *)
Definition required_pk (pk : option Z) : result Z :=
  match pk with
  | Some k => Ok k
  | None => Raise (PydanticValidationError "none is not an allowed value")
  end.

(** [from_orm] of each model; [kid] is the alias of the row's [pk], and of
    [root_key_pk] for a signing key. *)
Definition token_from_orm (row : Database.Token) : Token :=
  {| t_nbf := Database.t_nbf row;
     t_exp := Database.t_exp row;
     t_value := b64encode_bytes (Database.value row) |}.

Definition token_key_from_orm (row : Database.TokenKey) : result TokenKey :=
  kid <- required_pk (Database.pk row) ;;
  Ok {| tk_kid := kid;
        tk_nbf := Database.nbf row;
        tk_exp := Database.exp row;
        tk_value := b64encode_bytes (Database.public_key row) |}.

Definition message_key_from_orm (row : Database.RootKey) : result MessageKey :=
  kid <- required_pk (Database.pk row) ;;
  Ok {| mk_kid := kid;
        mk_nbf := Database.nbf row;
        mk_exp := Database.exp row;
        mk_value := Database.public_key row |}.

Definition signing_key_from_orm (row : Database.SigningKey) : result SigningKey :=
  kid <- required_pk (Database.pk (Database.root_key row)) ;;
  Ok {| sk_kid := kid; sk_value := Database.private_key row |}.

End LoadSet.

(** ** server.py: the load set of an authorization *)

Module Server.

Import Database.

(** An [HTTPException], by its status and detail. *)
Definition HTTPException (status : Z) (detail : string) : exn :=
  Unmodelled ("HTTPException " ++ Application.str_int status ++ ": " ++ detail).

(** [query(Authorization).filter_by(gufi = gufi)] *)
Definition by_gufi (authorizations : list Authorization) (g : UUID.t)
    : list Authorization :=
  filter (fun a => UUID.int (gufi a) = UUID.int g) authorizations.

(** [get_loadset], over the rows of the authorizations table and the key
    tables of the session.  [.one()] raises when the rows found are none or
    several; only the first case is caught. *)
Definition get_loadset (authorizations : list Authorization) (db : Session)
    (g : UUID.t) : result LoadSet.t :=
  match by_gufi authorizations g with
  | [] => Raise (HTTPException 404 "Authorization not found")
  | [authorization] =>
      let token_keys :=
        filter (fun k => overlaps (a_nbf authorization) (a_exp authorization) k = true)
          (token_keys db) in
      let root_keys :=
        filter (fun k => overlaps (a_nbf authorization) (a_exp authorization) k = true)
          (root_keys db) in
      let tokens := map LoadSet.token_from_orm (tokens authorization) in
      token_keys <- Authority.for_each LoadSet.token_key_from_orm token_keys ;;
      message_keys <- Authority.for_each LoadSet.message_key_from_orm root_keys ;;
      signing_keys <- Authority.for_each LoadSet.signing_key_from_orm
                        (signing_keys authorization) ;;
      Ok {| LoadSet.gufi := g;
            LoadSet.tokens := tokens;
            LoadSet.token_keys := token_keys;
            LoadSet.signing_keys := signing_keys;
            LoadSet.message_keys := message_keys |}
  | _ => Raise (Unmodelled "MultipleResultsFound")
  end.

End Server.

(** ** transceiver/application.py: building the applications from a load set *)

Module Construction.

Import Application.

(** A dict comprehension: of two entries with one key the later stays. *)
Definition dict_of {A : Type} (entries : list (Z * A)) : gmap Z A :=
  fold_left (fun m p => <[fst p := snd p]> m) entries ∅.

(** The dataclass [TokenKey] built from the fields of a key of the load
    set: the value is the base64 text of the raw public key. *)
Definition token_key_init (key : LoadSet.TokenKey) : result TokenKey.t :=
  raw <- standard_b64decode_str (LoadSet.tk_value key) ;;
  public_key <- Pks.deserialize_public_key raw ;;
  Ok {| TokenKey.kid := LoadSet.tk_kid key;
        TokenKey.nbf := LoadSet.tk_nbf key;
        TokenKey.exp := LoadSet.tk_exp key;
        TokenKey.public_key := public_key |}.

(** The dataclass [MessageKey] likewise: the public parameters stay in
    serialized form. *)
Definition message_key_init (key : LoadSet.MessageKey) : MessageKey.t :=
  {| MessageKey.kid := LoadSet.mk_kid key;
     MessageKey.nbf := LoadSet.mk_nbf key;
     MessageKey.exp := LoadSet.mk_exp key;
     MessageKey.public_key := LoadSet.mk_value key |}.

(** The validation of the [secret_key] field of [IdentityKeyGroup]: each of
    the two texts is deserialized, and a failure of either fails the model. *)
Definition parse_secret (value : string * string)
    : result (Ibs.PairingElement * Ibs.PairingElement) :=
  match Ibs.deserialize_pairing_element (list_byte_of_string (fst value)),
        Ibs.deserialize_pairing_element (list_byte_of_string (snd value)) with
  | Ok a, Ok b => Ok (a, b)
  | _, _ => Raise (PydanticValidationError "secret_key")
  end.

Definition token_keys_of (keys : list TokenKey.t) : gmap Z TokenKey.t :=
  dict_of (map (fun k => (TokenKey.kid k, k)) keys).

Definition message_keys_of (keys : list LoadSet.MessageKey) : gmap Z MessageKey.t :=
  dict_of (map (fun k => (LoadSet.mk_kid k, message_key_init k)) keys).

(** One turn of the loop over [loadset.signing_keys]. *)
Definition signing_key_init (g : UUID.t) (message_keys : gmap Z MessageKey.t)
    (signing_key : LoadSet.SigningKey) : result SigningKey.t :=
  match message_keys !! LoadSet.sk_kid signing_key with
  | None => Raise (ValueError "No message key found for signing key")
  | Some message_key =>
      secret <- parse_secret (LoadSet.sk_value signing_key) ;;
      Ok {| SigningKey.kid := LoadSet.sk_kid signing_key;
            SigningKey.nbf := MessageKey.nbf message_key;
            SigningKey.exp := MessageKey.exp message_key;
            SigningKey.key_group :=
              {| Ibs.identity := UUID.str g;
                 Ibs.id_public_key := MessageKey.public_key message_key;
                 Ibs.id_secret_key := secret |} |}
  end.

Section WithSettings.

Variable s : Settings.

(** [BlackHat.__init__] *)
Definition blackhat_init (loadset : LoadSet.t) : result BlackHat :=
  token_keys <- Authority.for_each token_key_init (LoadSet.token_keys loadset) ;;
  Ok {| bh_token_keys := token_keys_of token_keys;
        bh_message_keys := message_keys_of (LoadSet.message_keys loadset) |}.

(** [Baseline.__init__] *)
Definition baseline_init (loadset : LoadSet.t) (nav_src : datetime -> StateUpdate.t)
    (broadcast_period : timedelta) : result Baseline :=
  tokens <- Authority.for_each
              (fun token => Token.unpack s (Token.Text (LoadSet.t_value token)))
              (LoadSet.tokens loadset) ;;
  token_keys <- Authority.for_each token_key_init (LoadSet.token_keys loadset) ;;
  let message_keys := message_keys_of (LoadSet.message_keys loadset) in
  signing_keys <- Authority.for_each
                    (signing_key_init (LoadSet.gufi loadset) message_keys)
                    (LoadSet.signing_keys loadset) ;;
  Ok {| Application.nav_src := nav_src;
        Application.broadcast_period := broadcast_period;
        Application.gufi := LoadSet.gufi loadset;
        Application.tokens := tokens;
        Application.token_keys := token_keys_of token_keys;
        Application.message_keys := message_keys;
        Application.signing_keys := signing_keys |}.

End WithSettings.

End Construction.

(** ** From the authorization to the applications *)

Module LoadSetFacts.

Import IssuanceFacts ChooseFacts Application Construction Database.

Lemma for_each_lookup_l {A B : Type} (f : A -> result B) (l : list A) (bs : list B)
    (a : A) :
  Authority.for_each f l = Ok bs -> a ∈ l -> exists b, b ∈ bs /\ f a = Ok b.
Proof.
  intros H Ha. apply for_each_Ok in H.
  apply list_elem_of_lookup in Ha as [i Hi].
  destruct (Forall2_lookup_l _ _ _ _ _ H Hi) as (b & Hb & Hf).
  exists b. split; [apply list_elem_of_lookup; eexists; exact Hb | exact Hf].
Qed.

Lemma for_each_lookup_r {A B : Type} (f : A -> result B) (l : list A) (bs : list B)
    (b : B) :
  Authority.for_each f l = Ok bs -> b ∈ bs -> exists a, a ∈ l /\ f a = Ok b.
Proof.
  intros H Hb. apply for_each_Ok in H.
  apply list_elem_of_lookup in Hb as [i Hi].
  destruct (Forall2_lookup_r _ _ _ _ _ H Hi) as (a & Ha & Hf).
  exists a. split; [apply list_elem_of_lookup; eexists; exact Ha | exact Hf].
Qed.

(** An entry of the list is found in the dict under its key. *)
Lemma dict_of_is_Some {A : Type} (entries : list (Z * A)) (k : Z) :
  k ∈ map fst entries -> is_Some (dict_of entries !! k).
Proof.
  unfold dict_of.
  assert (Hgen : forall (m : gmap Z A),
             k ∈ map fst entries \/ is_Some (m !! k) ->
             is_Some (fold_left (fun m p => <[fst p := snd p]> m) entries m !! k)).
  { induction entries as [| [k' v] rest IH]; intros m H; cbn [fold_left map] in *.
    - destruct H as [H | H]; [apply elem_of_nil in H; contradiction | exact H].
    - apply IH. destruct H as [H | H].
      + apply elem_of_cons in H as [-> | H]; [| left; exact H].
        right. cbn [fst snd]. rewrite lookup_insert_eq. eexists. reflexivity.
      + right. cbn [fst snd]. destruct (decide (k' = k)) as [-> | Hne].
        * rewrite lookup_insert_eq. eexists. reflexivity.
        * rewrite lookup_insert_ne by exact Hne. exact H. }
  intros H. apply Hgen. left. exact H.
Qed.

Section WithLibs.

Variable s : Settings.
Context {ed : Pks.Ed25519} {ws : Ibs.WatersSig}.

(** The rows of an authorization hang on keys that overlap its window. *)
Lemma authorization_keys (db : Session) (now : datetime)
    (request : Api.AuthorizationRequest) (operator : string) (auth : Authorization) :
  Authority.generate_authorization s db now request operator = Ok auth ->
  gufi auth = Api.gufi request
  /\ a_nbf auth = Api.nbf request /\ a_exp auth = Api.exp request
  /\ (forall row, row ∈ tokens auth ->
        key row ∈ selected (token_keys db) (Api.nbf request) (Api.exp request))
  /\ (forall row, row ∈ signing_keys auth ->
        root_key row ∈ selected (root_keys db) (Api.nbf request) (Api.exp request)).
Proof.
  unfold Authority.generate_authorization. intros H.
  bind_inv H. rename a into tks. rename Ha into Htks.
  bind_inv H. rename a into toks. rename Ha into Htoks.
  bind_inv H. rename a into rks. rename Ha into Hrks.
  bind_inv H. rename a into sks. rename Ha into Hsks.
  injection H as <-. cbn.
  split; [reflexivity |]. split; [reflexivity |]. split; [reflexivity |].
  pose proof (choose_token_keys_cases db (Api.nbf request) (Api.exp request)) as Hc1.
  pose proof (choose_root_keys_cases db (Api.nbf request) (Api.exp request)) as Hc2.
  cbv zeta in Hc1, Hc2. rewrite Htks in Hc1. rewrite Hrks in Hc2.
  split.
  - intros row Hrow.
    destruct (for_each_lookup_r _ _ _ _ Htoks Hrow) as (k & Hk & Hgen).
    unfold Authority.generate_token in Hgen.
    bind_inv Hgen. bind_inv Hgen. injection Hgen as <-. cbn [key]. clear Hc2.
    destruct (last _) as [l |]; [| discriminate Hc1].
    destruct (exp l <? Api.exp request); [discriminate Hc1 |].
    injection Hc1 as ->. rewrite order_by_nbf_asc_perm in Hk. exact Hk.
  - intros row Hrow.
    destruct (for_each_lookup_r _ _ _ _ Hsks Hrow) as (k & Hk & Hgen).
    unfold Authority.generate_signing_key in Hgen.
    bind_inv Hgen. injection Hgen as <-. cbn [root_key]. clear Hc1.
    destruct (last _) as [l |]; [| discriminate Hc2].
    destruct (exp l <? Api.exp request); [discriminate Hc2 |].
    injection Hc2 as ->. rewrite order_by_nbf_asc_perm in Hk. exact Hk.
Qed.

(** The load set that the server returns for an authorization carries a key
    for every credential in it.  When [generate_authorization] has returned
    an authorization for a request and the row is in the table,
    [get_loadset] for the gufi of the request, over the same key tables,
    returns a load set with that gufi and the authorization's tokens in
    base64 text, in which every signing key has a message key of the same
    kid, so that the lookup in the constructor of the baseline application
    succeeds, and every token has its token key. *)
Theorem loadset_keys_present (db : Session) (now : datetime)
    (request : Api.AuthorizationRequest) (operator : string) (auth : Authorization)
    (authorizations : list Authorization) (loadset : LoadSet.t) :
  Authority.generate_authorization s db now request operator = Ok auth ->
  auth ∈ authorizations ->
  Server.get_loadset authorizations db (Api.gufi request) = Ok loadset ->
  LoadSet.gufi loadset = Api.gufi request
  /\ LoadSet.tokens loadset = map LoadSet.token_from_orm (tokens auth)
  /\ (forall sk, sk ∈ LoadSet.signing_keys loadset ->
        (exists mk, mk ∈ LoadSet.message_keys loadset
                    /\ LoadSet.mk_kid mk = LoadSet.sk_kid sk)
        /\ is_Some (message_keys_of (LoadSet.message_keys loadset)
                      !! LoadSet.sk_kid sk))
  /\ (forall row, row ∈ tokens auth ->
        exists tk, tk ∈ LoadSet.token_keys loadset
                   /\ pk (key row) = Some (LoadSet.tk_kid tk)).
Proof.
  intros Hgen Hin Hls.
  destruct (authorization_keys _ _ _ _ _ Hgen) as (Hg & Hn & He & Htok & Hsig).
  unfold Server.get_loadset in Hls.
  assert (Hfound : auth ∈ Server.by_gufi authorizations (Api.gufi request)).
  { unfold Server.by_gufi. apply list_elem_of_filter. split; [| exact Hin].
    rewrite Hg. reflexivity. }
  destruct (Server.by_gufi authorizations (Api.gufi request)) as [| a [| a' rest]];
    [discriminate Hls | | discriminate Hls].
  apply list_elem_of_singleton in Hfound. subst a.
  rewrite Hn, He in Hls. fold (selected (token_keys db) (Api.nbf request) (Api.exp request))
    in Hls.
  fold (selected (root_keys db) (Api.nbf request) (Api.exp request)) in Hls.
  bind_inv Hls. rename a into tks. rename Ha into Htks.
  bind_inv Hls. rename a into mks. rename Ha into Hmks.
  bind_inv Hls. rename a into sks. rename Ha into Hsks.
  injection Hls as <-.
  cbn [LoadSet.gufi LoadSet.tokens LoadSet.signing_keys LoadSet.message_keys
       LoadSet.token_keys].
  split; [reflexivity |]. split; [reflexivity |]. split.
  - intros sk Hsk.
    destruct (for_each_lookup_r _ _ _ _ Hsks Hsk) as (row & Hrow & Hfrom).
    destruct (for_each_lookup_l _ _ _ _ Hmks (Hsig row Hrow)) as (mk & Hmk & Hmfrom).
    unfold LoadSet.signing_key_from_orm in Hfrom.
    unfold LoadSet.message_key_from_orm in Hmfrom.
    destruct (pk (root_key row)) as [kid |]; [| discriminate Hfrom].
    cbn [LoadSet.required_pk bind] in Hfrom, Hmfrom.
    injection Hfrom as <-. injection Hmfrom as <-.
    assert (Hex : exists mk, mk ∈ mks /\ LoadSet.mk_kid mk = kid).
    { eexists. split; [exact Hmk | reflexivity]. }
    split; [exact Hex |].
    apply dict_of_is_Some. rewrite map_map. cbn [fst].
    destruct Hex as (mk & Hmk' & Hkid). rewrite <- Hkid.
    apply (list_elem_of_fmap_2 LoadSet.mk_kid). exact Hmk'.
  - intros row Hrow.
    destruct (for_each_lookup_l _ _ _ _ Htks (Htok row Hrow)) as (tk & Htk & Hfrom).
    unfold LoadSet.token_key_from_orm in Hfrom.
    destruct (pk (key row)) as [kid |]; [| discriminate Hfrom].
    cbn [LoadSet.required_pk bind] in Hfrom. injection Hfrom as <-.
    eexists. split; [exact Htk | reflexivity].
Qed.

End WithLibs.

Section Init.

Variable s : Settings.
Context {ed : Pks.Ed25519} {ws : Ibs.WatersSig}.

(** The signing key that the constructor builds for a signing key of the
    load set: the window and the public parameters are those of the message
    key with its kid, the identity is the text of the gufi. *)
Definition built_from (g : UUID.t) (message_keys : gmap Z MessageKey.t)
    (sk : LoadSet.SigningKey) (key : SigningKey.t) : Prop :=
  exists (mk : MessageKey.t) (secret : Ibs.PairingElement * Ibs.PairingElement),
    message_keys !! LoadSet.sk_kid sk = Some mk
    /\ parse_secret (LoadSet.sk_value sk) = Ok secret
    /\ key = {| SigningKey.kid := LoadSet.sk_kid sk;
                SigningKey.nbf := MessageKey.nbf mk;
                SigningKey.exp := MessageKey.exp mk;
                SigningKey.key_group :=
                  {| Ibs.identity := UUID.str g;
                     Ibs.id_public_key := MessageKey.public_key mk;
                     Ibs.id_secret_key := secret |} |}.

Lemma signing_key_init_Ok (g : UUID.t) (message_keys : gmap Z MessageKey.t)
    (sk : LoadSet.SigningKey) (key : SigningKey.t) :
  signing_key_init g message_keys sk = Ok key -> built_from g message_keys sk key.
Proof.
  unfold signing_key_init, built_from.
  destruct (message_keys !! LoadSet.sk_kid sk) as [mk |]; [| discriminate].
  intros H. bind_inv H. rename a into secret. injection H as <-.
  exists mk, secret. split; [reflexivity |]. split; [exact Ha | reflexivity].
Qed.


Lemma baseline_init_Ok (loadset : LoadSet.t) (nav : datetime -> StateUpdate.t)
    (period : timedelta) (self : Baseline) :
  baseline_init s loadset nav period = Ok self ->
  Application.gufi self = LoadSet.gufi loadset
  /\ Application.nav_src self = nav
  /\ Application.broadcast_period self = period
  /\ Application.message_keys self = message_keys_of (LoadSet.message_keys loadset)
  /\ Forall2 (fun t tok => Token.unpack s (Token.Text (LoadSet.t_value t)) = Ok tok)
       (LoadSet.tokens loadset) (Application.tokens self)
  /\ Forall2 (built_from (LoadSet.gufi loadset) (Application.message_keys self))
       (LoadSet.signing_keys loadset) (Application.signing_keys self).
Proof.
  unfold baseline_init. intros H.
  bind_inv H. rename a into toks. rename Ha into Htoks.
  bind_inv H. rename a into tks. rename Ha into Htks.
  bind_inv H. rename a into sks. rename Ha into Hsks.
  injection H as <-.
  cbn [Application.gufi Application.nav_src Application.broadcast_period
       Application.message_keys Application.tokens Application.signing_keys].
  repeat (split; [reflexivity |]).
  split; [apply for_each_Ok; exact Htoks |].
  apply for_each_Ok in Hsks.
  eapply Forall2_impl; [exact Hsks |].
  intros sk key. apply signing_key_init_Ok.
Qed.


(** What the producer signs with, the receiver finds.  A message assembled
    from the signing keys and the tokens of a baseline application built from
    a load set carries a kid under which the message keys of that load set
    hold a key, and the instant at which the signing key was chosen lies
    strictly inside the window of that key: the first three checks of
    [validate_msg] against the same message keys pass at that instant. *)
Theorem assembled_message_key_found (loadset : LoadSet.t)
    (nav : datetime -> StateUpdate.t) (period : timedelta) (self : Baseline)
    (payload : StateUpdate.t) (now_key now_token : datetime) (msg : Message.t) :
  baseline_init s loadset nav period = Ok self ->
  assemble_msg (Application.signing_keys self) (Application.tokens self) payload
    now_key now_token = Ok msg ->
  let keys := message_keys_of (LoadSet.message_keys loadset) in
  (exists mk, keys !! Message.kid msg = Some mk
              /\ MessageKey.nbf mk < now_key < MessageKey.exp mk)
  /\ ValidationFacts.message_key_lookup keys msg = None
  /\ ValidationFacts.message_key_expired keys msg now_key = None
  /\ ValidationFacts.message_key_not_yet_valid keys msg now_key = None.
Proof.
  intros Hinit Hmsg. cbv zeta.
  destruct (baseline_init_Ok loadset nav period self Hinit)
    as (_ & _ & _ & Hkeys & _ & Hbuilt).
  rewrite Hkeys in Hbuilt.
  unfold assemble_msg in Hmsg.
  bind_inv Hmsg. rename a into key. rename Ha into Hkey.
  bind_inv Hmsg. bind_inv Hmsg. injection Hmsg as <-. cbn [Message.kid].
  pose proof (ProducerFacts.choose_signing_key_cases
                (Application.signing_keys self) now_key) as Hcases.
  rewrite Hkey in Hcases. destruct Hcases as (before & after & Heq & Hlive & _).
  assert (Hin : key ∈ Application.signing_keys self).
  { rewrite Heq. apply elem_of_app. right. apply elem_of_cons. left. reflexivity. }
  apply list_elem_of_lookup in Hin as [i Hi].
  destruct (Forall2_lookup_r _ _ _ _ _ Hbuilt Hi) as (sk & _ & mk & secret & Hmk & _ & ->).
  cbn [SigningKey.kid]. unfold ProducerFacts.key_live in Hlive.
  cbn [SigningKey.nbf SigningKey.exp] in Hlive.
  assert (Hfound : exists mk,
             message_keys_of (LoadSet.message_keys loadset) !! LoadSet.sk_kid sk = Some mk
             /\ MessageKey.nbf mk < now_key < MessageKey.exp mk).
  { exists mk. split; [exact Hmk | exact Hlive]. }
  split; [exact Hfound |].
  unfold ValidationFacts.message_key_lookup, ValidationFacts.message_key_expired,
    ValidationFacts.message_key_not_yet_valid, ValidationFacts.message_key,
    ValidationFacts.when, ValidationFacts.fail_if.
  cbn [Message.kid]. rewrite Hmk.
  destruct (Z.gtb_spec now_key (MessageKey.exp mk)); [lia |].
  destruct (Z.ltb_spec now_key (MessageKey.nbf mk)); [lia |].
  repeat split.
Qed.

End Init.

(** The authorization of the fixture, alone in its table. *)
Definition the_authorizations : list Authorization :=
  match Fixture.an_authorization with
  | Ok a => [a]
  | Raise _ => []
  end.

Lemma loadset_keys_present_witness :
  exists auth loadset,
    Authority.generate_authorization settings (ed := Toy.ed25519) (ws := Toy.waters)
      ready_db EpochFacts.midnight a_request "jane doe" = Ok auth
    /\ auth ∈ the_authorizations
    /\ Server.get_loadset the_authorizations ready_db (Api.gufi a_request) = Ok loadset
    /\ length (LoadSet.signing_keys loadset) = 2%nat
    /\ forall sk, sk ∈ LoadSet.signing_keys loadset ->
         is_Some (message_keys_of (LoadSet.message_keys loadset) !! LoadSet.sk_kid sk).
Proof.
  destruct (Authority.generate_authorization settings (ed := Toy.ed25519)
              (ws := Toy.waters) ready_db EpochFacts.midnight a_request "jane doe")
    as [auth | e] eqn:Hgen; [| vm_compute in Hgen; discriminate Hgen].
  assert (Hauths : the_authorizations = [auth]).
  { unfold the_authorizations, Fixture.an_authorization. rewrite Hgen. reflexivity. }
  assert (Hin : auth ∈ the_authorizations).
  { rewrite Hauths. apply list_elem_of_singleton. reflexivity. }
  destruct (Server.get_loadset the_authorizations ready_db (Api.gufi a_request))
    as [loadset | e] eqn:Hls.
  2: { exfalso. unfold the_authorizations, Fixture.an_authorization in Hls.
       vm_compute in Hls. discriminate Hls. }
  exists auth, loadset.
  split; [reflexivity |]. split; [exact Hin |]. split; [reflexivity |].
  split.
  - unfold the_authorizations, Fixture.an_authorization in Hls.
    vm_compute in Hls. injection Hls as <-. reflexivity.
  - intros sk Hsk.
    exact (proj2 (proj1 (proj2 (proj2
             (loadset_keys_present settings (ed := Toy.ed25519) (ws := Toy.waters)
                ready_db EpochFacts.midnight a_request "jane doe" auth
                the_authorizations loadset Hgen Hin Hls))) sk Hsk)).
Defined.

(** The load set that the server returns for the fixture's authorization. *)
Definition the_loadset : LoadSet.t :=
  match Server.get_loadset the_authorizations ready_db a_gufi with
  | Ok loadset => loadset
  | Raise _ =>
      {| LoadSet.gufi := a_gufi; LoadSet.tokens := []; LoadSet.token_keys := [];
         LoadSet.signing_keys := []; LoadSet.message_keys := [] |}
  end.

Lemma assembled_message_key_found_witness :
  exists self msg mk,
    baseline_init settings the_loadset (fun _ => Fixture.a_state) 1000000 = Ok self
    /\ assemble_msg (ws := Toy.waters) (Application.signing_keys self)
         (Application.tokens self) Fixture.a_state Fixture.two_past Fixture.two_past
       = Ok msg
    /\ message_keys_of (LoadSet.message_keys the_loadset) !! Message.kid msg = Some mk
    /\ MessageKey.nbf mk < Fixture.two_past < MessageKey.exp mk.
Proof.
  destruct (baseline_init settings the_loadset (fun _ => Fixture.a_state) 1000000)
    as [self | e] eqn:Hinit; [| vm_compute in Hinit; discriminate Hinit].
  destruct (assemble_msg (ws := Toy.waters) (Application.signing_keys self)
              (Application.tokens self) Fixture.a_state Fixture.two_past
              Fixture.two_past) as [msg | e] eqn:Hmsg.
  2: { exfalso. vm_compute in Hinit. injection Hinit as <-.
       vm_compute in Hmsg. discriminate Hmsg. }
  destruct (assembled_message_key_found settings (ws := Toy.waters) the_loadset
              (fun _ => Fixture.a_state) 1000000 self Fixture.a_state Fixture.two_past
              Fixture.two_past msg Hinit Hmsg) as [(mk & Hmk & Hwin) _].
  exists self, msg, mk. split; [reflexivity |]. split; [exact Hmsg |].
  split; [exact Hmk | exact Hwin].
Defined.

End LoadSetFacts.

(** ** server.py: allocation before issuance *)

Module PostAuthorizationFacts.

Import Database EpochFacts ChooseFacts CoverageFacts.

Section WithLibs.

Variable s : Settings.
Context {ed : Pks.Ed25519} {ws : Ibs.WatersSig}.

Local Abbreviation KI := (Authority.KEY_INTERVAL s).
Local Abbreviation BUF := (Authority.KEY_EXP_BUFFER s).





End WithLibs.


End PostAuthorizationFacts.

(** ** The transmitting loop of the link *)

Module TransmitFacts.

Import Application.

(** The datagrams that [run_transmitting] sends in its first [n] turns, and
    the world it leaves; a turn on an empty queue waits, and the run ends
    there. *)
Fixpoint run_transmitting (n : nat) (w : World) : list bytes * World :=
  match n with
  | O => ([], w)
  | S k =>
      match Link.run_transmitting_step w with
      | None => ([], w)
      | Some (data, w') =>
          let '(sent, w'') := run_transmitting k w' in (data :: sent, w'')
      end
  end.

(** The link sends what is queued, in the order it was queued, each
    datagram once: the first [n] turns of [run_transmitting] send the first
    [n] items of the transmit queue and leave the others in it; the receive
    queue, the capacity and the log are untouched. *)
Theorem run_transmitting_fifo (n : nat) (w : World) :
  let '(sent, w') := run_transmitting n w in
  sent = firstn n (Queue.items (transmit_queue w))
  /\ Queue.items (transmit_queue w') = skipn n (Queue.items (transmit_queue w))
  /\ Queue.maxsize (transmit_queue w') = Queue.maxsize (transmit_queue w)
  /\ receive_queue w' = receive_queue w
  /\ log w' = log w.
Proof.
  revert w. induction n as [| k IH]; intros w; cbn [run_transmitting].
  - repeat split.
  - unfold Link.run_transmitting_step, Queue.get.
    destruct (Queue.items (transmit_queue w)) as [| data rest] eqn:Hitems.
    + cbv beta iota. cbn [firstn skipn]. repeat split; first [reflexivity | exact Hitems].
    + cbv beta iota. specialize (IH (set_transmit_queue
                        {| Queue.maxsize := Queue.maxsize (transmit_queue w);
                           Queue.items := rest |} w)).
      destruct (run_transmitting k _) as [sent w''].
      cbn [transmit_queue set_transmit_queue receive_queue log Queue.items
           Queue.maxsize] in IH.
      destruct IH as (H1 & H2 & H3 & H4 & H5).
      cbn [firstn skipn]. rewrite H1. repeat split; assumption.
Qed.

End TransmitFacts.

(** ** Credentials through the load set *)

Module CredentialFacts.

Import Base64Facts Construction.

Section WithSettings.

Variable s : Settings.

(** Every credential survives its passage through the load set.  The text
    of a token unpacks as the token's bytes do.  A token key whose primary
    key is set and whose public key has 32 bytes becomes, in the application,
    the key with that kid, that window and those bytes; one whose public key
    is of another length is refused with a bare [ValueError]; one whose
    primary key is not set fails the model of the load set.  The two
    elements of a signing key's secret are read back from their text as they
    were serialized. *)
Theorem credentials_survive_loadset :
  (forall row : Database.Token,
     Token.unpack s (Token.Text (LoadSet.t_value (LoadSet.token_from_orm row)))
     = Token.unpack s (Token.Binary (Database.value row)))
  /\ (forall (row : Database.TokenKey) (kid : Z),
        Database.pk row = Some kid ->
        exists key,
          LoadSet.token_key_from_orm row = Ok key
          /\ (length (Database.public_key row) = 32%nat ->
              token_key_init key
              = Ok {| TokenKey.kid := kid;
                      TokenKey.nbf := Database.nbf row;
                      TokenKey.exp := Database.exp row;
                      TokenKey.public_key :=
                        {| Pks.public_bytes := Database.public_key row |} |})
          /\ (length (Database.public_key row) <> 32%nat ->
              token_key_init key = Raise (ValueError "")))
  /\ (forall row : Database.TokenKey,
        Database.pk row = None ->
        LoadSet.token_key_from_orm row
        = Raise (PydanticValidationError "none is not an allowed value"))
  /\ (forall secret : Ibs.PairingElement * Ibs.PairingElement,
        parse_secret (Ibs.key_as_str secret) = Ok secret).
Proof.
  split; [| split; [| split]].
  - intros row. apply CodecFacts.token_unpack_text.
  - intros row kid Hpk. unfold LoadSet.token_key_from_orm. rewrite Hpk.
    cbn [LoadSet.required_pk bind]. eexists. split; [reflexivity |].
    unfold token_key_init, LoadSet.b64encode_bytes.
    cbn [LoadSet.tk_value LoadSet.tk_kid LoadSet.tk_nbf LoadSet.tk_exp].
    rewrite b64decode_str_b64encode. cbn [bind]. unfold Pks.deserialize_public_key.
    split; intros Hlen.
    + rewrite Hlen. reflexivity.
    + destruct (Nat.eqb_spec (length (Database.public_key row)) 32);
        [contradiction | reflexivity].
  - intros row Hpk. unfold LoadSet.token_key_from_orm. rewrite Hpk. reflexivity.
  - intros [e1 e2]. unfold parse_secret, Ibs.key_as_str, decode_utf8.
    cbn [fst snd]. rewrite !list_byte_of_string_of_list_byte.
    change (Ibs.serialize e1) with (Ibs.key_as_bytes e1).
    change (Ibs.serialize e2) with (Ibs.key_as_bytes e2).
    rewrite !RootKeyFacts.deserialize_serialize. reflexivity.
Qed.

End WithSettings.

End CredentialFacts.
